(** * A paged storage engine and its recursive query evaluator

    Shallow embedding of [db/index.js], [db/page], [db/pageBuffer] and of the
    optimised evaluator ([evaluators/recursivedb]), with the properties the
    specification states about them. *)

From Stdlib Require Import ZArith QArith String Ascii List Permutation Lia.
From stdpp Require Import base tactics option list gmap strings pretty sorting.

Open Scope string_scope.
Open Scope list_scope.
Open Scope Z_scope.
Open Scope nat_scope.

(** ** Configuration ([config.js]) *)

Definition maxNoOfRecsPerFile : nat := 100.
Definition cacheMax : nat := 50.
Definition blockJoinSize : nat := 100.
Global Arguments maxNoOfRecsPerFile : simpl never.
Global Arguments cacheMax : simpl never.
Global Arguments blockJoinSize : simpl never.

(** ** Scalars and records *)

(** A column holds an integer or a string; reading a property that a record
    lacks yields [undefined], which can in turn be stored (a projection of a
    missing column does so). *)
Inductive Value :=
| VNum (z : Z)
| VStr (s : string)
| VUndef.

Global Instance Value_eq_dec : EqDecision Value.
Proof. solve_decision. Defined.

(** A record is a JavaScript object: its own properties in insertion order. *)
Abbreviation Record := (list (string * Value)).

(** [rec[k]] *)
Fixpoint rget (r : Record) (k : string) : Value :=
  match r with
  | [] => VUndef
  | (k', v) :: r' => if String.eqb k' k then v else rget r' k
  end.

(** [k in rec] *)
Fixpoint rhas (r : Record) (k : string) : bool :=
  match r with
  | [] => false
  | (k', _) :: r' => String.eqb k' k || rhas r' k
  end.

(** [rec[k] = v]: an existing property keeps its position, a new one goes last. *)
Fixpoint rset (r : Record) (k : string) (v : Value) : Record :=
  match r with
  | [] => [(k, v)]
  | (k', v') :: r' => if String.eqb k' k then (k', v) :: r' else (k', v') :: rset r' k v
  end.

(** [Object.assign(dst, src)] *)
Definition rassign (dst src : Record) : Record :=
  fold_left (fun acc kv => rset acc (fst kv) (snd kv)) src dst.

(** The host language's conversions and serialisation are outside the
    repository; the development is parametric in them. *)
Inductive JsNumber :=
| NaN
| Fin (q : Q)
| PosInf
| NegInf.

Class JsBuiltins := {
  (** [ToNumber] applied to a string *)
  ToNumber : string -> JsNumber;
  (** [JSON.stringify] applied to a record *)
  JSON_stringify : Record -> string;
  (** [key in m] for a [Map] object [m]: the members that maps inherit *)
  MapMember : string -> bool
}.

(** ** Pages ([db/page]) *)

Record Page := mkPage { _files : list Record }.

Abbreviation Locator := (string * nat)%type.

(** [Page.insertRecord]: the slot of the record, or [None] for [false]. *)
Definition Page_insertRecord (p : Page) (record : Record) : option (Page * nat) :=
  if length (_files p) <? maxNoOfRecsPerFile
  then Some (mkPage (_files p ++ [record]), length (_files p))
  else None.

(** [Page.spacesLeft] *)
Definition Page_spacesLeft (p : Page) : nat := maxNoOfRecsPerFile - length (_files p).

(** [Page.clear] *)
Definition Page_clear (p : Page) : Page := mkPage [].

(** ** Hash indexes

    [HashMap<value, [pageId, slot][]>] of the [hashmap] package: keys are told
    apart by their type and text, so the number 3 and the string "3" are two
    keys; [keys()] is kept in insertion order. *)
Abbreviation HashIndex := (list (Value * list (string * nat))).

Fixpoint hm_get (h : HashIndex) (k : Value) : option (list Locator) :=
  match h with
  | [] => None
  | (k', ls) :: h' => if decide (k' = k) then Some ls else hm_get h' k
  end.

Definition hm_has (h : HashIndex) (k : Value) : bool :=
  match hm_get h k with Some _ => true | None => false end.

Fixpoint hm_set (h : HashIndex) (k : Value) (ls : list Locator) : HashIndex :=
  match h with
  | [] => [(k, ls)]
  | (k', ls') :: h' =>
      if decide (k' = k) then (k', ls) :: h' else (k', ls') :: hm_set h' k ls
  end.

Definition hm_keys (h : HashIndex) : list Value := map fst h.

(** ** The free-space queue

    [FastPriorityQueue] with [_pageSpaceComparator]: [peek] and [poll] serve an
    entry with the most free slots.  The entries are kept sorted by decreasing
    [spacesLeft]; the package's array layout only decides which of several
    equally free pages comes first. *)
Abbreviation QEntry := (string * nat)%type.   (* { pageId, spacesLeft } *)

Definition _pageSpaceComparator (entry1 entry2 : QEntry) : bool :=
  snd entry2 <? snd entry1.

Fixpoint q_add (e : QEntry) (q : list QEntry) : list QEntry :=
  match q with
  | [] => [e]
  | e' :: q' => if _pageSpaceComparator e e' then e :: q else e' :: q_add e q'
  end.

Definition q_heapify (arr : list QEntry) : list QEntry :=
  fold_left (fun q e => q_add e q) arr [].

(** ** Columns of a query ([query/classes]) *)

(** [new Column("*")] has [null] for its table and its name;
    [new Column("t.c")] has the two parts. *)
Inductive Column :=
| Star
| Col (_tableName _colName : string).

Definition parentTable (c : Column) : option string :=
  match c with Star => None | Col t _ => Some t end.

Definition name (c : Column) : option string :=
  match c with Star => None | Col _ n => Some n end.

Global Instance Column_eq_dec : EqDecision Column.
Proof. solve_decision. Defined.

(** What [addTable] is given as column keys: names, or the [Column] objects
    that the evaluator passes for some of its temporary tables. *)
Inductive ColKey :=
| KStr (s : string)
| KCol (c : Column).

Global Instance ColKey_eq_dec : EqDecision ColKey.
Proof. solve_decision. Defined.

(** ** The database singleton *)

Record DB := mkDB {
  (** the [Page] objects, by page id; a table and the cache refer to them *)
  pages : gmap string Page;
  (** [_buf._cache]: ids of the resident pages, most recently used first *)
  _buf : list string;
  (** [_tables]: per table, the page ids in insertion order *)
  _tables : gmap string (list string);
  _tablePageSpaces : gmap string (list QEntry);
  _tableCols : gmap string (list ColKey);
  (** [_tableHashes]: per table and column, the index object (or [undefined]) *)
  _tableHashes : gmap string (gmap string (option HashIndex));
  (** supply of [nanoid()] *)
  seed : nat
}.

Definition emptyDB : DB := mkDB ∅ [] ∅ ∅ ∅ ∅ 0.

Definition set_pages (f : gmap string Page -> gmap string Page) (db : DB) : DB :=
  mkDB (f (pages db)) (_buf db) (_tables db) (_tablePageSpaces db) (_tableCols db)
       (_tableHashes db) (seed db).
Definition set_buf (f : list string -> list string) (db : DB) : DB :=
  mkDB (pages db) (f (_buf db)) (_tables db) (_tablePageSpaces db) (_tableCols db)
       (_tableHashes db) (seed db).
Definition set_tables (f : gmap string (list string) -> gmap string (list string))
    (db : DB) : DB :=
  mkDB (pages db) (_buf db) (f (_tables db)) (_tablePageSpaces db) (_tableCols db)
       (_tableHashes db) (seed db).
Definition set_tablePageSpaces
    (f : gmap string (list QEntry) -> gmap string (list QEntry)) (db : DB) : DB :=
  mkDB (pages db) (_buf db) (_tables db) (f (_tablePageSpaces db)) (_tableCols db)
       (_tableHashes db) (seed db).
Definition set_tableCols (f : gmap string (list ColKey) -> gmap string (list ColKey))
    (db : DB) : DB :=
  mkDB (pages db) (_buf db) (_tables db) (_tablePageSpaces db) (f (_tableCols db))
       (_tableHashes db) (seed db).
Definition set_tableHashes
    (f : gmap string (gmap string (option HashIndex)) ->
         gmap string (gmap string (option HashIndex))) (db : DB) : DB :=
  mkDB (pages db) (_buf db) (_tables db) (_tablePageSpaces db) (_tableCols db)
       (f (_tableHashes db)) (seed db).
Definition set_seed (f : nat -> nat) (db : DB) : DB :=
  mkDB (pages db) (_buf db) (_tables db) (_tablePageSpaces db) (_tableCols db)
       (_tableHashes db) (f (seed db)).

(** ** Computations: state and exceptions *)

Inductive Err :=
| TypeError                 (* a member access or call on [undefined] *)
| Error (msg : string)      (* [throw new Error(msg)] *)
| OutOfFuel.                (* the loop bound of the model is exhausted *)

Inductive Res (A : Type) :=
| Ok (a : A)
| Throw (e : Err).
Arguments Ok {A} a.
Arguments Throw {A} e.

(** The state reached when an exception is raised is kept: a caller that
    catches it goes on from there. *)
Definition M (A : Type) : Type := DB -> Res A * DB.

Definition ret {A} (a : A) : M A := fun db => (Ok a, db).
Definition bind {A B} (m : M A) (k : A -> M B) : M B :=
  fun db => match m db with
            | (Ok a, db') => k a db'
            | (Throw e, db') => (Throw e, db')
            end.
Definition throw {A} (e : Err) : M A := fun db => (Throw e, db).
Definition gets {A} (f : DB -> A) : M A := fun db => (Ok (f db), db).
Definition modify (f : DB -> DB) : M unit := fun db => (Ok tt, f db).

Global Instance M_ret : MRet M := @ret.
Global Instance M_bind : MBind M := fun A B k m => bind m k.

(** A value that must not be [undefined] because a member of it is used. *)
Definition defined {A} (o : option A) : M A :=
  match o with Some a => ret a | None => throw TypeError end.

Definition when (b : bool) (m : M unit) : M unit := if b then m else ret tt.

Fixpoint foldM {S A} (f : S -> A -> M S) (l : list A) (s : S) : M S :=
  match l with
  | [] => ret s
  | x :: l' => s' ← f s x; foldM f l' s'
  end.

Definition forM_ {A} (l : list A) (f : A -> M unit) : M unit :=
  foldM (fun _ x => f x) l tt.

(** [arr.map(f)] for a callback with effects *)
Definition mapM {A B} (f : A -> M B) : list A -> M (list B) :=
  fix go (l : list A) : M (list B) :=
    match l with
    | [] => ret []
    | x :: l' => y ← f x; ys ← go l'; ret (y :: ys)
    end.

(** a computation that does not look at the database *)
Definition liftR {A} (r : Res A) : M A := fun db => (r, db).

(** folding with a step that may fail *)
Fixpoint foldR {S A} (g : S -> A -> Res S) (l : list A) (s : S) : Res S :=
  match l with
  | [] => Ok s
  | x :: l' => match g s x with
               | Ok s' => foldR g l' s'
               | Throw e => Throw e
               end
  end.

(** [arr.every(p)], which stops at the first element that fails *)
Fixpoint every {A} (l : list A) (p : A -> M bool) : M bool :=
  match l with
  | [] => ret true
  | x :: l' => b ← p x; if b : bool then every l' p else ret false
  end.

Definition E_PAGE_FULL : Err :=
  Error "Cannot insert record, page doesn't have anymore space".
Definition E_OUT_OF_BOUNDS : Err := Error "Record index out of bounds".
Definition E_NEEDS_HASH : Err := Error "Table needs to be hashed first".
Definition E_MUST_HASH : Err := Error "Table must be hashed first".
Definition E_OPERATOR : Err := Error "Unexpected operator".
Definition E_PROJECTION : Err := Error "Unexpected projection".

(** ** [nanoid]

    A supply of identifiers that never repeats. *)
Definition nano (k : nat) : string := "nanoid#" +:+ pretty k.

Definition nanoid_seed : M nat :=
  fun db => (Ok (seed db), set_seed S db).

Definition nanoid : M string := k ← nanoid_seed; ret (nano k).

(** ** The page buffer ([db/pageBuffer]) *)

(** [_cache.get]: the entry moves to the front. *)
Definition lru_touch (pageId : string) (c : list string) : list string :=
  pageId :: filter (fun x => x <> pageId) c.

(** [_cache.set]: the entry goes to the front, the oldest one leaves when the
    capacity is exceeded. *)
Definition lru_set (pageId : string) (c : list string) : list string :=
  take cacheMax (lru_touch pageId c).

(** [addPage(page)]; the argument is [undefined] when the table had no such
    page.  The simulated latency is not part of the state. *)
Definition addPage (page : option string) : M unit :=
  pageId ← defined page;
  modify (set_buf (lru_set pageId)).

(** [hasPage]: [peek], the order is left alone. *)
Definition hasPage (pageId : string) : M bool :=
  gets (fun db => bool_decide (pageId ∈ _buf db)).

(** [this._cache.get(pageId)] followed by a member access *)
Definition cache_get (pageId : string) : M Page :=
  fun db =>
    if bool_decide (pageId ∈ _buf db) then
      match pages db !! pageId with
      | Some p => (Ok p, set_buf (lru_touch pageId) db)
      | None => (Throw TypeError, db)
      end
    else (Throw TypeError, db).

(** [getPageContents]: the iterator works on a copy of the array. *)
Definition getPageContents (pageId : string) : M (list Record) :=
  p ← cache_get pageId; ret (_files p).

Definition clearPage (pageId : string) : M unit :=
  p ← cache_get pageId;
  modify (set_pages (<[pageId := Page_clear p]>)).

Definition buf_insertRecord (pageId : string) (record : Record) : M nat :=
  p ← cache_get pageId;
  match Page_insertRecord p record with
  | Some (p', index) => modify (set_pages (<[pageId := p']>));; ret index
  | None => throw E_PAGE_FULL
  end.

(** [getPageRecord] through [Page.directAccess] *)
Definition getPageRecord (pageId : string) (index : nat) : M Record :=
  p ← cache_get pageId;
  match _files p !! index with
  | Some r => ret r
  | None => throw E_OUT_OF_BOUNDS
  end.

(** ** The table catalog ([db/index.js]) *)

(** [table.get(pageId)] on the page map of a table.  [table] is a reference
    to the map kept in [_tables]: it is read when it is used. *)
Definition tableGet (tableName pageId : string) : M (option string) :=
  table ← gets (fun db => _tables db !! tableName);
  pids ← defined table;
  ret (if bool_decide (pageId ∈ (pids : list string)) then Some pageId else None).

(** [if (!buf.hasPage(pageId)) buf.addPage(table.get(pageId))] *)
Definition ensurePage (tableName pageId : string) : M unit :=
  b ← hasPage pageId;
  if b : bool then ret tt else (page ← tableGet tableName pageId; addPage page).

(** [page.spacesLeft] of a page object *)
Definition spacesLeftOf (page : option string) : M nat :=
  pageId ← defined page;
  p ← gets (fun db => pages db !! pageId);
  p ← defined p;
  ret (Page_spacesLeft p).

Definition queue_add (tableName : string) (e : QEntry) : M unit :=
  q ← gets (fun db => _tablePageSpaces db !! tableName);
  q ← defined q;
  modify (set_tablePageSpaces (<[tableName := q_add e q]>)).

Definition _addNewPageToTable (tableName : string) : M unit :=
  id ← nanoid;
  modify (set_pages (<[id := mkPage []]>));;
  table ← gets (fun db => _tables db !! tableName);
  pids ← defined table;
  modify (set_tables (<[tableName := pids ++ [id]]>));;
  queue_add tableName (id, Page_spacesLeft (mkPage [])).

Definition addTable (tableName : string) (colNames : list ColKey) : M bool :=
  known ← gets (fun db => bool_decide (is_Some (_tables db !! tableName)));
  if known : bool then ret false
  else
    modify (set_tables (<[tableName := []]>));;
    modify (set_tableHashes (<[tableName := ∅]>));;
    modify (set_tablePageSpaces (<[tableName := []]>));;
    modify (set_tableCols (<[tableName := colNames]>));;
    _addNewPageToTable tableName;;
    ret true.

Definition _getPageToInsert (tableName : string) : M QEntry :=
  queue ← gets (fun db => _tablePageSpaces db !! tableName);
  q ← defined queue;
  top ← defined (head q);
  when (snd top =? 0) (_addNewPageToTable tableName);;
  q ← gets (fun db => _tablePageSpaces db !! tableName);
  q ← defined q;
  match q with
  | [] => throw TypeError
  | e :: q' => modify (set_tablePageSpaces (<[tableName := q']>));; ret e
  end.

(** the [for] loop of [insertRecords]; returns what is left of [recordsCopy] *)
Fixpoint insertRecords_for (tableName pageId : string) (spacesLeft : nat)
    (recordsCopy : list Record) : M (list Record) :=
  match spacesLeft, recordsCopy with
  | S n, r :: rest =>
      record ← (if rhas r "_id" then ret r
                else (id ← nanoid; ret (("_id", VStr (tableName +:+ ":" +:+ id)) :: r)));
      buf_insertRecord pageId record;;
      insertRecords_for tableName pageId n rest
  | _, _ => ret recordsCopy
  end.

(** the [while] loop of [insertRecords] *)
Fixpoint insertRecords_while (fuel : nat) (tableName : string)
    (recordsCopy : list Record) : M unit :=
  match recordsCopy with
  | [] => ret tt
  | _ :: _ =>
      match fuel with
      | 0 => throw OutOfFuel
      | S fuel' =>
          e ← _getPageToInsert tableName;
          let '(pageId, spacesLeft) := e in
          page ← tableGet tableName pageId;
          b ← hasPage pageId;
          when (negb b) (addPage page);;
          rest ← insertRecords_for tableName pageId spacesLeft recordsCopy;
          sl ← spacesLeftOf page;
          queue_add tableName (pageId, sl);;
          insertRecords_while fuel' tableName rest
      end
  end.

Definition insertRecords (tableName : string) (records : list Record) : M unit :=
  insertRecords_while (length records) tableName records.

Definition isTableHashed (tableName col : string) : M bool :=
  hashedCols ← gets (fun db => _tableHashes db !! tableName);
  hashedCols ← defined hashedCols;
  ret (bool_decide (is_Some (hashedCols !! col))).

(** [this._tableHashes.get(tableName).get(colName)] *)
Definition getIndex (tableName colName : string) : M (option HashIndex) :=
  hashedCols ← gets (fun db => _tableHashes db !! tableName);
  hashedCols ← defined hashedCols;
  ret (mjoin (hashedCols !! colName)).

Definition setIndex (tableName colName : string) (hashIndex : option HashIndex) : M unit :=
  hashedCols ← gets (fun db => _tableHashes db !! tableName);
  hashedCols ← defined hashedCols;
  modify (set_tableHashes (<[tableName := <[colName := hashIndex]> hashedCols]>)).

(** the body of the scan of [hashTable]: a first locator for the value, or
    one more *)
Definition index_add (idx : HashIndex) (colVal : Value) (loc : Locator) : HashIndex :=
  match hm_get idx colVal with
  | None => hm_set idx colVal [loc]
  | Some ls => hm_set idx colVal (ls ++ [loc])
  end.

(** one step of the scan of [hashTable]; [hashIndex] may be [undefined] *)
Definition hashRecord (colName pageId : string) (st : option HashIndex * nat)
    (record : Record) : M (option HashIndex * nat) :=
  let '(hashIndex, index) := st in
  let colVal := rget record colName in
  idx ← defined hashIndex;
  ret (Some (index_add idx colVal (pageId, index)), S index).

(** the scan of one page in [hashTable] *)
Definition hashPage (tableName colName : string) (hashIndex : option HashIndex)
    (pageId : string) : M (option HashIndex) :=
  ensurePage tableName pageId;;
  files ← getPageContents pageId;
  st ← foldM (hashRecord colName pageId) files (hashIndex, 0);
  ret (fst st).

Definition hashTable (tableName colName : string) (isNew : bool) : M unit :=
  hashIndex ← (if isNew then ret (Some []) else getIndex tableName colName);
  table ← gets (fun db => _tables db !! tableName);
  pids ← defined table;
  hashIndex ← foldM (hashPage tableName colName) pids hashIndex;
  setIndex tableName colName hashIndex.

(** the index object of [insertUniqueRecordsById], which must support [has] *)
Definition idIndex (tableName : string) : M HashIndex :=
  hashIndex ← getIndex tableName "_id";
  defined hashIndex.

(** the callback of [recs.forEach] in [insertUniqueRecordsById] *)
Definition insertUnique_each (tableName : string) (rec : Record) : M unit :=
  let _id := rget rec "_id" in
  hashIndex ← idIndex tableName;
  if hm_has hashIndex _id then ret tt
  else
    e ← _getPageToInsert tableName;
    let pageId := fst e in
    page ← tableGet tableName pageId;
    b ← hasPage pageId;
    when (negb b) (addPage page);;
    index ← buf_insertRecord pageId rec;
    sl ← spacesLeftOf page;
    queue_add tableName (pageId, sl);;
    hashIndex ← idIndex tableName;
    setIndex tableName "_id" (Some (hm_set hashIndex _id [(pageId, index)])).

Definition insertUniqueRecordsById (tableName : string) (records : list Record) : M unit :=
  hashed ← isTableHashed tableName "_id";
  when (negb hashed) (hashTable tableName "_id" true);;
  getIndex tableName "_id";;
  forM_ records (insertUnique_each tableName).

(** the callback of [pages.forEach] in [clearTable] *)
Definition clearTable_each (acc : list QEntry) (pageId : string) : M (list QEntry) :=
  b ← hasPage pageId;
  when (negb b) (addPage (Some pageId));;
  clearPage pageId;;
  sl ← spacesLeftOf (Some pageId);
  ret (acc ++ [(pageId, sl)]).

Definition clearTable (tableName : string) : M unit :=
  table ← gets (fun db => _tables db !! tableName);
  pids ← defined table;
  newTableSpaces ← foldM clearTable_each pids [];
  q ← gets (fun db => _tablePageSpaces db !! tableName);
  defined q;;
  modify (set_tablePageSpaces (<[tableName := q_heapify newTableSpaces]>));;
  modify (set_tableHashes (<[tableName := ∅]>)).

(** [for (const record of this.getAllRecords(tableName)) s = f(s, record)] *)
Definition getAllRecords {S} (tableName : string) (f : S -> Record -> M S) (s : S) : M S :=
  table ← gets (fun db => _tables db !! tableName);
  pids ← defined table;
  foldM (fun s pageId =>
           ensurePage tableName pageId;;
           files ← getPageContents pageId;
           foldM f files s)
        pids s.

(** the records a consumer without effects of its own receives *)
Definition collect {S} (gen : (list Record -> Record -> M (list Record)) -> list Record -> M S)
  : M S := gen (fun acc r => ret (acc ++ [r])) [].

Definition filterRecords {S} (tableName : string) (filterFunction : Record -> bool)
    (f : S -> Record -> M S) (s : S) : M S :=
  getAllRecords tableName
    (fun s record => if filterFunction record then f s record else ret s) s.

Definition hasValue (tableName colName : string) (val : Value) : M bool :=
  hashed ← isTableHashed tableName colName;
  if negb hashed then throw E_MUST_HASH
  else
    hashIndex ← getIndex tableName colName;
    idx ← defined hashIndex;
    ret (hm_has idx val).

Definition drop (tableName : string) : M unit :=
  known ← gets (fun db => bool_decide (is_Some (_tables db !! tableName)));
  if known : bool then
    clearTable tableName;;
    modify (set_tables (delete tableName));;
    modify (set_tablePageSpaces (delete tableName));;
    modify (set_tableHashes (delete tableName));;
    modify (set_tableCols (delete tableName))
  else ret tt.

Definition getTableKeys (tableName : string) : M (list ColKey) :=
  cols ← gets (fun db => _tableCols db !! tableName);
  defined cols.

Definition getNumberOfEntries (tableName : string) : M Z :=
  table ← gets (fun db => _tables db !! tableName);
  pids ← defined table;
  q ← gets (fun db => _tablePageSpaces db !! tableName);
  q ← defined q;
  ret (fold_left (fun recordsInTable e => (recordsInTable - Z.of_nat (snd e))%Z) q
          (Z.of_nat maxNoOfRecsPerFile * Z.of_nat (length pids))%Z).


(** the records a page holds *)
Definition filesOf (db : DB) (pageId : string) : list Record :=
  match pages db !! pageId with
  | Some p => _files p
  | None => []
  end.

(** the records of a table as they are stored, page after page *)
Definition recordsOf (tableName : string) (db : DB) : list Record :=
  match _tables db !! tableName with
  | Some pids => concat (map (filesOf db) pids)
  | None => []
  end.

(** ** Lookups and joins *)

Section Joins.
Context `{JsBuiltins}.

(** [a == b] *)
Definition looseEq (a b : Value) : bool :=
  match a, b with
  | VNum x, VNum y => Z.eqb x y
  | VStr s, VStr t => String.eqb s t
  | VUndef, VUndef => true
  | VNum x, VStr s | VStr s, VNum x =>
      match ToNumber s with
      | Fin q => Qeq_bool (inject_Z x) q
      | _ => false
      end
  | _, _ => false
  end.

(** [a > b]; [undefined] converts to [NaN] *)
Definition jsGt (a b : Value) : bool :=
  match a, b with
  | VNum x, VNum y => Z.ltb y x
  | VStr s, VStr t => String.ltb t s
  | VNum x, VStr s =>
      match ToNumber s with
      | Fin q => negb (Qle_bool (inject_Z x) q)
      | NegInf => true
      | _ => false
      end
  | VStr s, VNum x =>
      match ToNumber s with
      | Fin q => negb (Qle_bool q (inject_Z x))
      | PosInf => true
      | _ => false
      end
  | _, _ => false
  end.

(** [a !== b] *)
Definition strictNe (a b : Value) : bool := negb (bool_decide (a = b)).

(** a value inside a template literal *)
Definition toStr (v : Value) : string :=
  match v with
  | VNum z => pretty z
  | VStr s => s
  | VUndef => "undefined"
  end.

(** [{ colNameDst, colSrc: [tName, cName] }] *)
Record Proj := mkProj { colNameDst : string; colSrc : string * string }.

(** the [projection.forEach] of the two joins, started from the object
    [res]; a block of a block join may hold [undefined] in place of a record *)
Fixpoint projectRec (t1 t2 : string) (projection : list Proj)
    (rec1 : option Record) (rec2 : Record) (res : Record) : Res Record :=
  match projection with
  | [] => Ok res
  | p :: rest =>
      let '(srcTName, srcCName) := colSrc p in
      if String.eqb srcTName t1 then
        match rec1 with
        | Some r1 =>
            projectRec t1 t2 rest rec1 rec2 (rset res (colNameDst p) (rget r1 srcCName))
        | None => Throw TypeError
        end
      else if String.eqb srcTName t2 then
        projectRec t1 t2 rest rec1 rec2 (rset res (colNameDst p) (rget rec2 srcCName))
      else Throw E_PROJECTION
  end.

Definition project (t1 t2 : string) (projection : list Proj)
    (rec1 : option Record) (rec2 : Record) : M Record :=
  fun db => (projectRec t1 t2 projection rec1 rec2 [], db).

(** the records behind a list of locators, read through the buffer *)
Definition materialize (tableName : string) (locs : list Locator)
  : M (list Record) :=
  foldM (fun acc (loc : Locator) =>
           ensurePage tableName (fst loc);;
           r ← getPageRecord (fst loc) (snd loc);
           ret (acc ++ [r]))
        locs [].

Definition keepVal2 (op : string) (val1 val2 : Value) : bool :=
  if String.eqb op ">" then jsGt val1 val2
  else if String.eqb op "=" then looseEq val1 val2
  else false.

(** the composite identity and the provenance markers of a joined record *)
Definition withPairId (t1 t2 : string) (rec1 rec2 res : Record) : Record :=
  rset (rset (rset res "_id"
                (VStr (toStr (rget rec1 "_id") +:+ "|" +:+ toStr (rget rec2 "_id"))))
          ("_id" +:+ t1) (rget rec1 "_id"))
    ("_id" +:+ t2) (rget rec2 "_id").

(** the records of the second table to join with the value [val1] *)
Definition hashJoin_recs2 (t2 op : string) (idx2 : HashIndex) (val1 : Value)
  : M (list Record) :=
  foldM (fun acc val2 =>
           locs2 ← defined (hm_get idx2 val2);
           rs ← materialize t2 locs2;
           ret (acc ++ rs))
        (List.filter (keepVal2 op val1) (hm_keys idx2)) [].

(** the [project && join] loops for one value of the first table *)
Definition hashJoin_emit {S} (t1 t2 : string) (projection : list Proj)
    (shouldGenPairId : bool) (f : S -> Record -> M S)
    (recs1 recs2 : list Record) (s : S) : M S :=
  foldM (fun s rec1 =>
           foldM (fun s rec2 =>
                    res ← project t1 t2 projection (Some rec1) rec2;
                    f s (if shouldGenPairId then withPairId t1 t2 rec1 rec2 res else res))
                 recs2 s)
        recs1 s.

(** the body of [for (const val1 of vals1)] *)
Definition hashJoin_val1 {S} (t1 t2 : string) (projection : list Proj) (op : string)
    (shouldGenPairId : bool) (f : S -> Record -> M S)
    (idx1 : HashIndex) (index2 : option HashIndex) (s : S) (val1 : Value) : M S :=
  locs1 ← defined (hm_get idx1 val1);
  recs1 ← materialize t1 locs1;
  idx2 ← defined index2;
  recs2 ← hashJoin_recs2 t2 op idx2 val1;
  hashJoin_emit t1 t2 projection shouldGenPairId f recs1 recs2 s.

(** [for (const res of this.hashJoin(...)) s = f(s, res)] *)
Definition hashJoin {S} (t1 c1 t2 c2 : string) (projection : list Proj) (op : string)
    (shouldGenPairId : bool) (f : S -> Record -> M S) (s : S) : M S :=
  h1 ← isTableHashed t1 c1;
  when (negb h1) (hashTable t1 c1 true);;
  h2 ← isTableHashed t2 c2;
  when (negb h2) (hashTable t2 c2 true);;
  index1 ← getIndex t1 c1;
  index2 ← getIndex t2 c2;
  idx1 ← defined index1;
  foldM (hashJoin_val1 t1 t2 projection op shouldGenPairId f idx1 index2)
        (hm_keys idx1) s.

(** fetching one record of [getRecsFromHash] and handing it to the consumer *)
Definition fetch {S} (tableName : string) (f : S -> Record -> M S) (s : S)
    (loc : Locator) : M S :=
  ensurePage tableName (fst loc);;
  r ← getPageRecord (fst loc) (snd loc);
  f s r.

(** [for (const r of this.getRecsFromHash(...)) s = f(s, r)] *)
Definition getRecsFromHash {S} (tableName colName op : string) (rhs : Value)
    (f : S -> Record -> M S) (s : S) : M S :=
  hashed ← isTableHashed tableName colName;
  if negb hashed then throw E_NEEDS_HASH
  else
    hashIndex ← getIndex tableName colName;
    if String.eqb op "=" then
      idx ← defined hashIndex;
      match hm_get idx rhs with
      | None => ret s
      | Some locs => foldM (fetch tableName f) locs s
      end
    else if String.eqb op ">" then
      idx ← defined hashIndex;
      foldM (fun s val =>
               locs ← defined (hm_get idx val);
               foldM (fetch tableName f) locs s)
            (List.filter (fun key => jsGt key rhs) (hm_keys idx)) s
    else throw E_OPERATOR.

(** *** Block join *)

(** A scan that its caller drives with [next()]: not yet started, or inside
    the page loop with the rest of the current page's copy. *)
Inductive Gen :=
| GStart (tableName : string)
| GRun (tableName : string) (pids : list string) (current : list Record)
| GDone.

Fixpoint gen_advance (tableName : string) (pids : list string)
  : M (option Record * Gen) :=
  match pids with
  | [] => ret (None, GDone)
  | pageId :: rest =>
      ensurePage tableName pageId;;
      files ← getPageContents pageId;
      match files with
      | [] => gen_advance tableName rest
      | r :: rs => ret (Some r, GRun tableName rest rs)
      end
  end.

(** [gen.next()]: [None] stands for [{ done: true, value: undefined }] *)
Definition gen_next (g : Gen) : M (option Record * Gen) :=
  match g with
  | GStart tableName =>
      table ← gets (fun db => _tables db !! tableName);
      pids ← defined table;
      gen_advance tableName pids
  | GRun tableName pids (r :: rs) => ret (Some r, GRun tableName pids rs)
  | GRun tableName pids [] => gen_advance tableName pids
  | GDone => ret (None, GDone)
  end.

(** one block against the inner table: [t2Generator] is created once and
    shared by the records of the block, and a [for ... of] drains it *)
Definition blockJoin_block (tableName1 tableName2 : string) (projection : list Proj)
    (shouldGenPairId : bool) (block : list (option Record)) (out : list Record)
  : M (list Record) :=
  st ← foldM (fun (st : bool * list Record) (rec1 : option Record) =>
                let '(drained, out) := st in
                if drained : bool then ret st
                else
                  out ← getAllRecords tableName2
                          (fun out rec2 =>
                             res ← project tableName1 tableName2 projection rec1 rec2;
                             res ← (if shouldGenPairId : bool then
                                      r1 ← defined rec1;
                                      ret (rset (rset res ("_id" +:+ tableName1) (rget r1 "_id"))
                                             ("_id" +:+ tableName2) (rget rec2 "_id"))
                                    else ret res);
                             ret (out ++ [res]))
                          out;
                  ret (true, out))
             block (false, out);
  ret (snd st).

(** the [while (!done)] loop *)
Fixpoint blockJoin_while (fuel : nat) (tableName1 tableName2 : string)
    (projection : list Proj) (shouldGenPairId : bool)
    (t1Generator : Gen) (block : list (option Record)) (out : list Record)
  : M (list Record) :=
  match fuel with
  | 0 => throw OutOfFuel
  | S fuel' =>
      nx ← gen_next t1Generator;
      let '(value, t1Generator) := nx in
      let done := match value with None => true | Some _ => false end in
      let block := block ++ [value] in
      if (length block =? blockJoinSize) || done then
        out ← blockJoin_block tableName1 tableName2 projection shouldGenPairId block out;
        if done : bool then ret out
        else blockJoin_while fuel' tableName1 tableName2 projection shouldGenPairId
               t1Generator [] out
      else blockJoin_while fuel' tableName1 tableName2 projection shouldGenPairId
             t1Generator block out
  end.

(** The members of the class object [DB]; the scans are methods of its
    instances. *)
Definition DB_static (member : string) : bool :=
  String.eqb member "_pageSpaceComparator".

(** the records [blockJoin] yields when [DB.getAllRecords] resolves or not *)
Definition blockJoin_with (resolves : bool) (tableName1 tableName2 : string)
    (projection : list Proj) (shouldGenPairId : bool) : M (list Record) :=
  if resolves then
    fuel ← gets (fun db => S (length (recordsOf tableName1 db)));
    blockJoin_while fuel tableName1 tableName2 projection shouldGenPairId
      (GStart tableName1) [] []
  else throw TypeError.

(** [blockJoin] as written, with [DB.getAllRecords] looked up on the class *)
Definition blockJoin (tableName1 tableName2 : string) (projection : list Proj)
    (shouldGenPairId : bool) : M (list Record) :=
  blockJoin_with (DB_static "getAllRecords") tableName1 tableName2 projection
    shouldGenPairId.

End Joins.


(** * The recursive evaluator ([evaluators/recursivedb]) *)

(** ** Parsed queries ([query/classes])

    The columns of a comparison are qualified ([t.c]); its right-hand side
    is such a column, or a constant. *)

Inductive Rhs :=
| RCol (_tableName _colName : string)
| RVal (v : Value).

Record Operation := mkOperation {
  lhs : string * string;
  operator : string;
  rhs : Rhs
}.

Definition hasBothSidesCols (op : Operation) : bool :=
  match rhs op with RCol _ _ => true | RVal _ => false end.

Record Term := mkTerm {
  cols : list Column;
  tables : list string;
  (** [null] when the term has no [WHERE] *)
  ops : option (list Operation)
}.

Record WithDecl := mkWithDecl {
  wd_name : string;
  (** the names of the declared columns *)
  wd_columns : list string
}.

Record Query := mkQuery {
  withDecl : WithDecl;
  nonrecTerm : Term;
  recTerm : Term;
  resultTableName : string
}.

(** ** Maps with insertion order *)

Section AList.
Context {K V : Type} `{EqDecision K}.

Fixpoint al_get (m : list (K * V)) (k : K) : option V :=
  match m with
  | [] => None
  | (k', v) :: m' => if decide (k' = k) then Some v else al_get m' k
  end.

Fixpoint al_set (m : list (K * V)) (k : K) (v : V) : list (K * V) :=
  match m with
  | [] => [(k, v)]
  | (k', v') :: m' => if decide (k' = k) then (k', v) :: m' else (k', v') :: al_set m' k v
  end.

Definition al_keys (m : list (K * V)) : list K := map fst m.

End AList.

(** [if (!m.has(k)) m.set(k, []); m.get(k).push(x)] *)
Definition al_push {K V} `{EqDecision K} (m : list (K * list V)) (k : K) (x : V)
  : list (K * list V) :=
  match al_get m k with
  | Some l => al_set m k (l ++ [x])
  | None => al_set m k [x]
  end.

(** ** Helpers of the evaluator *)

(** a property key made from a column name or from [null] *)
Definition keyName (o : option string) : string := default "null" o.

(** a column key used as a property key *)
Definition propKey (k : ColKey) : string :=
  match k with
  | KStr s => s
  | KCol _ => "[object Object]"
  end.

Definition deleteIds (record : Record) : Record :=
  List.filter (fun kv => negb (String.prefix "_id" (fst kv))) record.

(** [JSON.stringify([a, b].sort())], kept as the sorted pair; the text is
    the name of the pair's table *)
Definition joinedIdOf (a b : string) : string * string :=
  if String.ltb b a then (b, a) else (a, b).

Definition dquote : string := String (ascii_of_nat 34) EmptyString.

Definition pairKey (id : string * string) : string :=
  "[" +:+ dquote +:+ fst id +:+ dquote +:+ "," +:+ dquote +:+ snd id +:+ dquote +:+ "]".

(** an operation between a column and a constant *)
Record SimpleOp := mkSimpleOp {
  s_col : string;
  s_operator : string;
  s_rhs : Value
}.

(** an operation between two columns *)
Record PairOp := mkPairOp {
  p_lhs : string * string;
  p_operator : string;
  p_rhs : string * string
}.

Record SortedOps := mkSortedOps {
  simpleOps : list (string * list SimpleOp);
  compositeOps : list ((string * string) * list PairOp);
  noOps : list string
}.

(** the callback of [term.ops.forEach] in [sortOps]; the third component is
    [tablesWithOps] *)
Definition sortOps_each
    (st : list (string * list SimpleOp) * list ((string * string) * list PairOp) *
          list string)
    (op : Operation)
  : list (string * list SimpleOp) * list ((string * string) * list PairOp) * list string :=
  let '(simpleOps, compositeOps, tablesWithOps) := st in
  let lhsParentTable := fst (lhs op) in
  match rhs op with
  | RCol rhsParentTable rhsName =>
      (simpleOps,
       al_push compositeOps (joinedIdOf lhsParentTable rhsParentTable)
         (mkPairOp (lhs op) (operator op) (rhsParentTable, rhsName)),
       rhsParentTable :: lhsParentTable :: tablesWithOps)
  | RVal v =>
      (al_push simpleOps lhsParentTable (mkSimpleOp (snd (lhs op)) (operator op) v),
       compositeOps,
       lhsParentTable :: tablesWithOps)
  end.

Definition sortOps (term : Term) : SortedOps :=
  let '(simpleOps, compositeOps, tablesWithOps) :=
    fold_left sortOps_each (default [] (ops term)) ([], [], []) in
  mkSortedOps simpleOps compositeOps
    (List.filter (fun tableName => negb (bool_decide (tableName ∈ tablesWithOps)))
       (tables term)).

(** the projection built from the columns of the working table: its
    [index]-th key is fed from [columns[index]], which must exist *)
Fixpoint projectionOf (keys : list ColKey) (columns : list Column)
  : Res (list (ColKey * Column)) :=
  match keys with
  | [] => Ok []
  | tcName :: keys' =>
      match columns with
      | [] => Throw TypeError
      | c :: columns' =>
          match projectionOf keys' columns' with
          | Ok proj => Ok ((tcName, c) :: proj)
          | Throw e => Throw e
          end
      end
  end.

(** [proj.filter(p => [lhsT, rhsT].includes(p.colSrc[0]))] *)
Definition tProjOf (proj : list (ColKey * Column)) (lhsT rhsT : string) : list Proj :=
  omap (fun p : ColKey * Column =>
          match snd p with
          | Col t n =>
              if String.eqb t lhsT || String.eqb t rhsT
              then Some (mkProj (propKey (fst p)) (t, n))
              else None
          | Star => None
          end) proj.

(** ** Join trees *)

#[warning="-register-all"]
Inductive Tree := Node (id : string * string) (children : list Tree).

(** [joinMap]: per table, the pair tables it is a source of *)
Definition joinMap_add (joinMap : list (string * list (string * string)))
    (compositeId : string * string) : Res (list (string * list (string * string))) :=
  match al_get joinMap (fst compositeId) with
  | None => Throw TypeError
  | Some l1 =>
      let joinMap := al_set joinMap (fst compositeId) (l1 ++ [compositeId]) in
      match al_get joinMap (snd compositeId) with
      | None => Throw TypeError
      | Some l2 => Ok (al_set joinMap (snd compositeId) (l2 ++ [compositeId]))
      end
  end.

Definition joinMapOf (tables : list string) (compositeIds : list (string * string))
  : Res (list (string * list (string * string))) :=
  foldR joinMap_add compositeIds (fold_left (fun m t => al_set m t []) tables []).

(** [constructJoinTableTree]; the set [ids] shrinks with every node *)
Fixpoint constructJoinTableTree (fuel : nat) (joinMap : list (string * list (string * string)))
    (ids : list (string * string)) (id : string * string)
  : Res (option Tree * list (string * string)) :=
  match fuel with
  | 0 => Throw OutOfFuel
  | S fuel' =>
      if negb (bool_decide (id ∈ ids)) then Ok (None, ids)
      else
        let visit := fun (st : list Tree * list (string * string)) cId =>
          match constructJoinTableTree fuel' joinMap (snd st) cId with
          | Ok (Some childNode, ids) => Ok (fst st ++ [childNode], ids)
          | Ok (None, ids) => Ok (fst st, ids)
          | Throw e => Throw e
          end in
        match al_get joinMap (fst id) with
        | None => Throw TypeError
        | Some adj1 =>
            match foldR visit adj1 ([], List.filter (fun x => negb (bool_decide (x = id))) ids) with
            | Throw e => Throw e
            | Ok st =>
                match al_get joinMap (snd id) with
                | None => Throw TypeError
                | Some adj2 =>
                    match foldR visit adj2 st with
                    | Throw e => Throw e
                    | Ok st => Ok (Some (Node id (fst st)), snd st)
                    end
                end
            end
        end
  end.

(** [for (const id of ids)]: ids deleted meanwhile are not visited *)
Fixpoint joinTrees (joinMap : list (string * list (string * string)))
    (order ids : list (string * string)) (trees : list Tree) : Res (list Tree) :=
  match order with
  | [] => Ok trees
  | id :: order' =>
      if bool_decide (id ∈ ids) then
        match constructJoinTableTree (S (length ids)) joinMap ids id with
        | Ok (Some tree, ids) => joinTrees joinMap order' ids (trees ++ [tree])
        | Ok (None, ids) => joinTrees joinMap order' ids trees
        | Throw e => Throw e
        end
      else joinTrees joinMap order' ids trees
  end.

(** the shared table of a parent and a child, [undefined] if there is none *)
Definition intersectionTable (parentTables childTables : list string) : option string :=
  head (List.filter (fun parentTable => bool_decide (parentTable ∈ childTables)) parentTables).

Definition idKey (o : option string) : string := "_id" +:+ default "undefined" o.

(** the [keysToKeep] loop *)
Definition keepKeys (keysToKeep : list string) (rec : Record) : Record :=
  fold_left (fun res key => if rhas rec key then rset res key (rget rec key) else res)
    keysToKeep [].

Section Evaluator.
Context `{JsBuiltins}.

Definition addRecordAsId (record : Record) : Record :=
  rset record "_id" (VStr (JSON_stringify record)).

(** [getNonIdCols] has no [return]: its result is [undefined]; the filter it
    runs needs every key to be a string *)
Definition getNonIdCols (tName : string) : M (option (list string)) :=
  keys ← getTableKeys tName;
  if forallb (fun k => match k with KStr _ => true | KCol _ => false end) keys
  then ret None
  else throw TypeError.

Definition createRecursiveTable (withDecl : WithDecl) : M string :=
  addTable (wd_name withDecl) (map KStr (wd_columns withDecl));;
  ret (wd_name withDecl).

(** the callback of [ops.forEach] in [constructFilter], with [currObj = {}] *)
Definition constructFilter_each (tableName : string) (filters : list (Record -> bool))
    (op : Operation) : M (list (Record -> bool)) :=
  tableCols ← getTableKeys tableName;
  let lhsName := snd (lhs op) in
  if String.eqb tableName (fst (lhs op)) &&
     existsb (fun col => bool_decide (col = KStr lhsName)) tableCols &&
     negb (String.eqb lhsName EmptyString)
  then
    let rhsVal := match rhs op with RCol _ _ => VUndef | RVal v => v end in
    if String.eqb (operator op) "=" then
      ret (filters ++ [fun record => looseEq (rget record lhsName) rhsVal])
    else if String.eqb (operator op) ">" then
      ret (filters ++ [fun record => jsGt (rget record lhsName) rhsVal])
    else throw (Error "Unsupported operator")
  else ret filters.

Definition constructFilter (ops : list Operation) (tableName : string)
  : M (Record -> bool) :=
  filters ← foldM (constructFilter_each tableName) ops [];
  ret (fun record => forallb (fun filter => filter record) filters).

(** *** [SELECT *] *)

Definition selectAll (term : Term) (tempTableName resultTableName : string) : M unit :=
  match head (tables term) with
  | Some tableName =>
      filterFunction ← match ops term with
                       | Some ops => constructFilter ops tableName
                       | None => ret (fun _ => true)
                       end;
      clearTable tempTableName;;
      filterRecords tableName filterFunction
        (fun _ record =>
           let res := addRecordAsId (deleteIds record) in
           insertUniqueRecordsById tempTableName [res];;
           insertUniqueRecordsById resultTableName [res])
        tt
  | None =>
      (* [term.tables[0]] is [undefined], which no table is keyed by *)
      match ops term with
      | Some (_ :: _) => throw TypeError
      | _ => clearTable tempTableName;; throw TypeError
      end
  end.

(** *** Grouping the columns *)

(** the callback of [columns.forEach] *)
Definition groupCols_each (groupedCols : list (option string * list Column))
    (col : Column) : Res (list (option string * list Column)) :=
  let groupedCols :=
    if MapMember (keyName (parentTable col)) then groupedCols
    else al_set groupedCols (parentTable col) [] in
  match al_get groupedCols (parentTable col) with
  | None => Throw TypeError
  | Some l => Ok (al_set groupedCols (parentTable col) (l ++ [col]))
  end.

(** *** Tables simplified by their constants *)

(** keep the records of the first table that all the others have *)
Definition keepCommon (tempTables : list string) (dst : string) : M unit :=
  match tempTables with
  | firstTempTableName :: remainingTables =>
      getAllRecords firstTempTableName
        (fun _ rec =>
           ok ← every remainingTables (fun rtName => hasValue rtName "_id" (rget rec "_id"));
           when ok (insertUniqueRecordsById dst [rec]))
        tt
  | [] => throw TypeError
  end.

Definition copyFirst (tempTables : list string) (dst : string) : M unit :=
  match head tempTables with
  | Some t0 => getAllRecords t0 (fun _ rec => insertUniqueRecordsById dst [rec]) tt
  | None => throw TypeError
  end.

(** the body of [for (const op of ops)] *)
Definition simpleTemp (tName : string) (tempTables : list string) (op : SimpleOp)
  : M (list string) :=
  tTableName ← nanoid;
  keys ← getTableKeys tName;
  addTable tTableName keys;;
  hashed ← isTableHashed tName (s_col op);
  when (negb hashed) (hashTable tName (s_col op) true);;
  getRecsFromHash tName (s_col op) (s_operator op) (s_rhs op)
    (fun _ rec => insertUniqueRecordsById tTableName [rec]) tt;;
  ret (tempTables ++ [tTableName]).

(** the body of [for (const tName of simpleTables)] *)
Definition simplifyTable (tableNameMap : list (string * string))
    (entry : string * list SimpleOp) : M (list (string * string)) :=
  let '(tName, ops) := entry in
  simplifiedTableId ← nanoid;
  keys ← getTableKeys tName;
  addTable simplifiedTableId keys;;
  let tableNameMap := al_set tableNameMap tName simplifiedTableId in
  tempTables ← foldM (simpleTemp tName) ops [];
  (if 2 <=? length tempTables then keepCommon tempTables simplifiedTableId
   else copyFirst tempTables simplifiedTableId);;
  forM_ tempTables drop;;
  ret tableNameMap.

(** *** Pair tables *)

(** the body of [for (const joinedRec of joinedIterator)] *)
Definition joinedInsert (src1 src2 tTableName : string) (_ : unit) (joinedRec : Record)
  : M unit :=
  if String.eqb src1 src2 &&
     strictNe (rget joinedRec ("_id" +:+ src1)) (rget joinedRec ("_id" +:+ src2))
  then ret tt
  else insertRecords tTableName [joinedRec].

(** the hash join of a pair into its temporary table; a source that
    [tableNameMap] does not know is [undefined] *)
Definition hashJoinInto (src1 : option string) (c1 : string) (src2 : option string)
    (c2 : string) (tProj : list Proj) (operator tTableName : string) : M unit :=
  match src1, src2 with
  | Some src1, Some src2 =>
      hashJoin src1 c1 src2 c2 tProj operator true (joinedInsert src1 src2 tTableName) tt
  | Some src1, None =>
      h1 ← isTableHashed src1 c1;
      when (negb h1) (hashTable src1 c1 true);;
      throw TypeError
  | None, _ => throw TypeError
  end.

(** the body of [for (const pairOp of pairOps)] *)
Definition pairTemp (groupedCols : list (option string * list Column))
    (proj : list (ColKey * Column)) (tableNameMap : list (string * string))
    (tempNames : list string) (pairOp : PairOp) : M (list string) :=
  let '(lhsT, lhsN) := p_lhs pairOp in
  let '(rhsT, rhsN) := p_rhs pairOp in
  tTableName ← nanoid;
  g1 ← defined (al_get groupedCols (Some lhsT));
  g2 ← defined (al_get groupedCols (Some rhsT));
  addTable tTableName (map KCol (g1 ++ g2));;
  hashJoinInto (al_get tableNameMap lhsT) lhsN (al_get tableNameMap rhsT) rhsN
    (tProjOf proj lhsT rhsT) (p_operator pairOp) tTableName;;
  hashTable tTableName "_id" true;;
  ret (tempNames ++ [tTableName]).

(** the body of [for (const compositeId of compositeOps.keys())] *)
Definition compositeTable (groupedCols : list (option string * list Column))
    (proj : list (ColKey * Column)) (tableNameMap : list (string * string))
    (entry : (string * string) * list PairOp) : M unit :=
  let '(compositeId, pairOps) := entry in
  tempNames ← foldM (pairTemp groupedCols proj tableNameMap) pairOps [];
  first ← defined (head pairOps);
  let t1 := fst (p_lhs first) in
  let t2 := fst (p_rhs first) in
  g1 ← defined (al_get groupedCols (Some t1));
  g2 ← defined (al_get groupedCols (Some t2));
  addTable (pairKey compositeId) (map KCol (g1 ++ g2));;
  (if length pairOps =? 1 then copyFirst tempNames (pairKey compositeId)
   else keepCommon tempNames (pairKey compositeId));;
  hashTable (pairKey compositeId) ("_id" +:+ t1) true;;
  hashTable (pairKey compositeId) ("_id" +:+ t2) true;;
  forM_ tempNames drop.

(** *** Common values of a join tree *)

(** the callback of [childrenTables.every]: a block without [return] *)
Definition hasCommon (parentTables : list string) (parentRec : Record)
    (cName : string * string) : M bool :=
  let key := idKey (intersectionTable parentTables [fst cName; snd cName]) in
  hasValue (pairKey cName) key (rget parentRec key);;
  ret false.

(** the callback of [childrenTables.forEach] *)
Definition composeWith (parentTables : list string) (parentRec : Record)
    (recs : list Record) (cName : string * string) : M (list Record) :=
  let key := idKey (intersectionTable parentTables [fst cName; snd cName]) in
  getRecsFromHash (pairKey cName) key "=" (rget parentRec key)
    (fun temp childRec => ret (temp ++ map (fun r => rassign r childRec) recs)) [].

(** the body of [for (const parentRec of DB.getAllRecords(parentId))] *)
Definition commonRow (columns : list Column) (parentTables : list string)
    (childrenTables : list (string * string)) (results : list Record)
    (parentRec : Record) : M (list Record) :=
  ok ← every childrenTables (hasCommon parentTables parentRec);
  if ok : bool then
    recs ← foldM (composeWith parentTables parentRec) childrenTables [parentRec];
    let keysToKeep :=
      map (fun t => "_id" +:+ t) parentTables ++ map (fun c => keyName (name c)) columns in
    ret (results ++ map (keepKeys keysToKeep) recs)
  else ret results.

Fixpoint getCommonTreeVals (columns : list Column) (tree : Tree) : M (string * string) :=
  match tree with
  | Node parentId children =>
      match children with
      | [] => ret parentId
      | _ :: _ =>
          childrenTables ← mapM (getCommonTreeVals columns) children;
          let parentTables := [fst parentId; snd parentId] in
          results ← getAllRecords (pairKey parentId)
                      (commonRow columns parentTables childrenTables) [];
          clearTable (pairKey parentId);;
          insertRecords (pairKey parentId) results;;
          forM_ parentTables (fun t => hashTable (pairKey parentId) ("_id" +:+ t) true);;
          ret parentId
      end
  end.

(** *** The cross product of the independent tables *)

Definition mapColToProjection (tName col : string) : Proj := mkProj col (tName, col).

(** the [do ... while] of [blockJoinIndependentTables], entered with [t1]
    and the tables not yet shifted *)
Fixpoint blockJoin_loop (t1 : string) (independentTables : list string) : M string :=
  match independentTables with
  | [] =>
      (* [t2] is [undefined] *)
      getNonIdCols t1;;
      throw TypeError
  | t2 :: independentTables' =>
      t1NonIdCols ← getNonIdCols t1;
      t2NonIdCols ← getNonIdCols t2;
      t1NonIdCols ← defined t1NonIdCols;
      t2NonIdCols ← defined t2NonIdCols;
      let allNonIdCols := t1NonIdCols ++ t2NonIdCols in
      tTableName ← nanoid;
      addTable tTableName (map KStr allNonIdCols);;
      joined ← blockJoin t1 t2
                 (map (mapColToProjection t1) t1NonIdCols ++
                  map (mapColToProjection t2) t2NonIdCols) false;
      forM_ joined (fun joinedRec =>
                      insertUniqueRecordsById tTableName [addRecordAsId joinedRec]);;
      drop t1;;
      match independentTables' with
      | [] => ret tTableName
      | _ :: _ => blockJoin_loop tTableName independentTables'
      end
  end.

Definition blockJoinIndependentTables (columns : list Column)
    (independentTables : list string) : M string :=
  match independentTables with
  | [table] =>
      finalTableName ← nanoid;
      addTable finalTableName (map KCol columns);;
      getAllRecords table
        (fun _ finalRec =>
           insertUniqueRecordsById finalTableName [addRecordAsId (deleteIds finalRec)])
        tt;;
      ret finalTableName
  | [] => throw TypeError
  | t1 :: independentTables' => blockJoin_loop t1 independentTables'
  end.

(** *** Planning and running a term *)

Definition execute (term : Term) (columns : list Column)
    (groupedCols : list (option string * list Column)) (sorted : SortedOps)
    (tempTableName resultTableName : string) : M unit :=
  let tables := tables term in
  let tableNameMap := fold_left (fun m t => al_set m t t) tables [] in
  tableNameMap ← foldM simplifyTable (simpleOps sorted) tableNameMap;
  keys ← getTableKeys tempTableName;
  proj ← liftR (projectionOf keys columns);
  forM_ (compositeOps sorted) (compositeTable groupedCols proj tableNameMap);;
  let compositeIds := al_keys (compositeOps sorted) in
  joinMap ← liftR (joinMapOf tables compositeIds);
  trees ← liftR (joinTrees joinMap compositeIds compositeIds []);
  let independentSimpleOps :=
    List.filter (fun tName =>
                   negb (existsb (fun cId : string * string =>
                                    String.eqb (fst cId) tName || String.eqb (snd cId) tName)
                                 compositeIds))
      (al_keys (simpleOps sorted)) in
  let independentTables := noOps sorted ++ independentSimpleOps in
  independentTables ←
    foldM (fun independentTables tree =>
             parentId ← getCommonTreeVals columns tree;
             ret (independentTables ++ [pairKey parentId]))
          trees independentTables;
  finalTempTable ← blockJoinIndependentTables columns independentTables;
  clearTable tempTableName;;
  getAllRecords finalTempTable
    (fun _ finalRec =>
       insertUniqueRecordsById tempTableName [finalRec];;
       insertUniqueRecordsById resultTableName [finalRec])
    tt;;
  drop finalTempTable;;
  forM_ compositeIds (fun compositeId => drop (pairKey compositeId)).

(** [columns[0].shouldFetchAllColumns] is a method of the column, not its
    result: with one column, the first branch is taken. *)
Definition executeTerm (term : Term) (tempTableName resultTableName : string) : M Z :=
  let columns := cols term in
  initialNumberOfEntries ← getNumberOfEntries resultTableName;
  (if length columns =? 1 then selectAll term tempTableName resultTableName
   else
     groupedCols ← liftR (foldR groupCols_each columns []);
     execute term columns groupedCols (sortOps term) tempTableName resultTableName);;
  finalNumberOfEntries ← getNumberOfEntries resultTableName;
  ret (finalNumberOfEntries - initialNumberOfEntries)%Z.

(** the [do ... while (recordsInserted > 0)] of the driver *)
Fixpoint recursion (fuel : nat) (recTerm : Term) (recTableName resultTableName : string)
  : M unit :=
  match fuel with
  | 0 => throw OutOfFuel
  | S fuel' =>
      recordsInserted ← executeTerm recTerm recTableName resultTableName;
      if (0 <? recordsInserted)%Z
      then recursion fuel' recTerm recTableName resultTableName
      else ret tt
  end.

Definition executeSingleQuery (fuel : nat) (query : Query) : M unit :=
  recTableName ← createRecursiveTable (withDecl query);
  keys ← getTableKeys recTableName;
  addTable (resultTableName query) keys;;
  executeTerm (nonrecTerm query) recTableName (resultTableName query);;
  recursion fuel (recTerm query) recTableName (resultTableName query);;
  drop recTableName.

End Evaluator.


(** * Records as objects

    The definitions above keep the fields of a record where a page stores
    the record.  In the program a page holds references to objects, and so
    do the callers of the database.  This module follows the references on
    the paths that hand records in and out. *)

Module Aliasing.

(** a reference to an object *)
Abbreviation Ref := nat.

Record Store := mkStore {
  (** the fields of every object, by reference *)
  objects : list Record;
  (** [Page._files], by page id *)
  files : gmap string (list Ref)
}.

(** computations on the store *)
Definition Act (A : Type) : Type := Store -> Res A * Store.

(** a new object with the given fields *)
Definition new_object (fields : Record) (st : Store) : Ref * Store :=
  (length (objects st), mkStore (objects st ++ [fields]) (files st)).

Definition fieldsOf (st : Store) (o : Ref) : Record := default [] (objects st !! o).

(** [o[k] = v], by whoever holds the reference [o] *)
Definition assignField (o : Ref) (k : string) (v : Value) (st : Store) : Store :=
  mkStore (alter (fun r => rset r k v) o (objects st)) (files st).

(** what the records of a page are, read through their references *)
Definition contents (pageId : string) (st : Store) : list Record :=
  map (fieldsOf st) (default [] (files st !! pageId)).

(** ** [Page] *)

(** [Object.assign({}, this._files[index])] *)
Definition Page_directAccess (fs : list Ref) (index : nat) : Act Ref :=
  fun st =>
    match fs !! index with
    | None => (Throw E_OUT_OF_BOUNDS, st)
    | Some o => let '(o', st') := new_object (fieldsOf st o) st in (Ok o', st')
    end.

(** [yield* this._files.slice()]: a new array of the same objects *)
Definition Page_iterator (fs : list Ref) : list Ref := fs.

(** [this._files.push(record)]; [None] stands for [false] *)
Definition Page_insertRecord (pageId : string) (fs : list Ref) (record : Ref)
  : Store -> option nat * Store :=
  fun st =>
    if length fs <? maxNoOfRecsPerFile
    then (Some (length fs), mkStore (objects st) (<[pageId := fs ++ [record]]> (files st)))
    else (None, st).

(** ** [PageBuffer]: the cached page is the page of the table *)

Definition cached (pageId : string) : Act (list Ref) :=
  fun st => match files st !! pageId with
            | Some fs => (Ok fs, st)
            | None => (Throw TypeError, st)
            end.

Definition getPageContents (pageId : string) : Act (list Ref) :=
  fun st => match cached pageId st with
            | (Ok fs, st) => (Ok (Page_iterator fs), st)
            | (Throw e, st) => (Throw e, st)
            end.

Definition getPageRecord (pageId : string) (index : nat) : Act Ref :=
  fun st => match cached pageId st with
            | (Ok fs, st) => Page_directAccess fs index st
            | (Throw e, st) => (Throw e, st)
            end.

Definition insertRecord (pageId : string) (record : Ref) : Act nat :=
  fun st => match cached pageId st with
            | (Ok fs, st) =>
                match Page_insertRecord pageId fs record st with
                | (Some index, st) => (Ok index, st)
                | (None, st) => (Throw E_PAGE_FULL, st)
                end
            | (Throw e, st) => (Throw e, st)
            end.

(** ** [DB]: what happens to one record, on the page chosen for it *)

(** [getAllRecords]: [for (const record of pageIterator) yield record] *)
Definition getAllRecords_page (pageId : string) : Act (list Ref) := getPageContents pageId.

(** [getRecsFromHash]: [yield this._buf.getPageRecord(pageId, index)] *)
Definition getRecsFromHash_loc (loc : Locator) : Act Ref := getPageRecord (fst loc) (snd loc).

(** the body of the [for] loop of [insertRecords]; [id] is the [nanoid()]
    that is drawn when the record has no [_id] *)
Definition insertRecords_one (tableName pageId id : string) (rec : Ref) : Act nat :=
  fun st =>
    let '(record, st) := new_object (fieldsOf st rec) st in
    let '(record, st) :=
      if rhas (fieldsOf st record) "_id" then (record, st)
      else new_object (("_id", VStr (tableName +:+ ":" +:+ id)) :: fieldsOf st record) st in
    insertRecord pageId record st.

(** [insertUniqueRecordsById], for a record it accepts:
    [this._buf.insertRecord(pageId, rec)] *)
Definition insertUnique_one (pageId : string) (rec : Ref) : Act nat :=
  insertRecord pageId rec.

(** a page with one record, and a caller's object not yet stored *)
Definition st0 : Store :=
  mkStore [[("_id", VStr "a"); ("c1", VNum 1)]; [("_id", VStr "b"); ("c1", VNum 2)]]
          {[ "p" := [0] ]}.

End Aliasing.


(** ** Callers of the catalog *)

(** The write operations of the catalog, and the indexing operation. *)
Inductive Op :=
| AddTable (tableName : string) (colNames : list ColKey)
| InsertRecords (tableName : string) (records : list Record)
| InsertUniqueRecordsById (tableName : string) (records : list Record)
| ClearTable (tableName : string)
| Drop (tableName : string)
| HashTable (tableName colName : string) (isNew : bool).

Definition runOp (op : Op) : M unit :=
  match op with
  | AddTable t cols => addTable t cols;; ret tt
  | InsertRecords t recs => insertRecords t recs
  | InsertUniqueRecordsById t recs => insertUniqueRecordsById t recs
  | ClearTable t => clearTable t
  | Drop t => drop t
  | HashTable t c isNew => hashTable t c isNew
  end.

(** the state after a sequence of calls, each resumed from wherever the
    previous one ended (normally or not) *)
Definition after (ops : list Op) (db : DB) : DB :=
  fold_left (fun db op => snd (runOp op db)) ops db.

Definition isWrite (op : Op) : bool :=
  match op with HashTable _ _ _ => false | _ => true end.

(** ** Well-formed states *)

(** a queue entry tells the truth about its page *)
Definition spaces_ok (db : DB) (e : QEntry) : Prop :=
  exists p, pages db !! fst e = Some p /\ snd e = Page_spacesLeft p.

(** the locators of an index point at records of the table *)
Definition locs_ok (db : DB) (pids : list string) (idx : HashIndex) : Prop :=
  forall k locs pid i,
    hm_get idx k = Some locs -> (pid, i) ∈ locs ->
    pid ∈ pids /\ exists p, pages db !! pid = Some p /\ i < length (_files p).

(** [hole] names a page whose queue entry has been polled and not yet put back *)
Record table_ok (hole : option string) (db : DB) (t : string) (pids : list string)
  : Prop := {
  tk_nonempty : pids <> [];
  tk_nodup : NoDup pids;
  tk_pages : forall pid, pid ∈ pids ->
    exists k p, pid = nano k /\ k < seed db /\ pages db !! pid = Some p /\
                length (_files p) <= maxNoOfRecsPerFile;
  tk_queue : exists q, _tablePageSpaces db !! t = Some q /\
    match hole with None => map fst q | Some pid => pid :: map fst q end ≡ₚ pids /\
    Forall (spaces_ok db) q;
  tk_cols : is_Some (_tableCols db !! t);
  tk_hashes : exists reg, _tableHashes db !! t = Some reg /\
    forall c idx, reg !! c = Some (Some idx) -> locs_ok db pids idx
}.

Definition hole_of (hole : option (string * string)) (t : string) : option string :=
  match hole with
  | Some (t', pid) => if decide (t' = t) then Some pid else None
  | None => None
  end.

Record InvH (hole : option (string * string)) (db : DB) : Prop := {
  inv_tables : forall t pids, _tables db !! t = Some pids ->
    table_ok (hole_of hole t) db t pids;
  inv_disjoint : forall t1 t2 pids1 pids2 pid,
    _tables db !! t1 = Some pids1 -> _tables db !! t2 = Some pids2 ->
    pid ∈ pids1 -> pid ∈ pids2 -> t1 = t2;
  inv_dom : forall t, _tables db !! t = None ->
    _tablePageSpaces db !! t = None /\ _tableCols db !! t = None /\
    _tableHashes db !! t = None
}.

Definition Inv : DB -> Prop := InvH None.

(** nothing about table [t] differs between the two states *)
Definition untouched (t : string) (db db' : DB) : Prop :=
  _tables db' !! t = _tables db !! t /\
  _tablePageSpaces db' !! t = _tablePageSpaces db !! t /\
  _tableCols db' !! t = _tableCols db !! t /\
  _tableHashes db' !! t = _tableHashes db !! t /\
  forall pids pid, _tables db !! t = Some pids -> pid ∈ pids ->
    pages db' !! pid = pages db !! pid.

(** the [_id] values held by a table *)
Definition idsOf (t : string) (db : DB) : list Value :=
  map (fun r => rget r "_id") (recordsOf t db).

(** a defined index on column [c] *)
Definition hasIndex (db : DB) (t c : string) (idx : HashIndex) : Prop :=
  exists reg, _tableHashes db !! t = Some reg /\ reg !! c = Some (Some idx).

(** the [_id] values are pairwise distinct and known to the [_id] index, if
    there is one *)
Definition uniqueById (t : string) (db : DB) : Prop :=
  NoDup (idsOf t db) /\
  forall idx, hasIndex db t "_id" idx ->
    forall v, v ∈ idsOf t db -> hm_has idx v = true.

Definition isThrow {A} (r : Res A) : Prop :=
  match r with Throw _ => True | Ok _ => False end.

(** the state [_addNewPageToTable] leaves behind *)
Definition newPageState (t : string) (pids : list string) (q : list QEntry) (db : DB)
  : DB :=
  set_tablePageSpaces (<[t := q_add (nano (seed db), maxNoOfRecsPerFile) q]>)
    (set_tables (<[t := pids ++ [nano (seed db)]]>)
       (set_pages (<[nano (seed db) := mkPage []]>) (set_seed S db))).

(** the state [addTable] starts from when the name is free *)
Definition declaredState (t : string) (colNames : list ColKey) (db : DB) : DB :=
  set_tableCols (<[t := colNames]>)
    (set_tablePageSpaces (<[t := []]>)
       (set_tableHashes (<[t := ∅]>) (set_tables (<[t := []]>) db))).

(** the index [hashTable] computes, page by page *)
Fixpoint index_page (colName pageId : string) (files : list Record) (idx : HashIndex)
    (index : nat) : HashIndex :=
  match files with
  | [] => idx
  | record :: rest =>
      index_page colName pageId rest
        (index_add idx (rget record colName) (pageId, index)) (S index)
  end.

Definition index_pages (colName : string) (db : DB) (pids : list string)
    (idx : HashIndex) : HashIndex :=
  fold_left (fun idx pageId => index_page colName pageId (filesOf db pageId) idx 0)
    pids idx.

(** between the two states only the buffer and the indexes of [t] may differ *)
Definition index_only (t : string) (db db' : DB) : Prop :=
  pages db' = pages db /\ _tables db' = _tables db /\
  _tablePageSpaces db' = _tablePageSpaces db /\ _tableCols db' = _tableCols db /\
  seed db' = seed db /\
  forall t', t' <> t -> _tableHashes db' !! t' = _tableHashes db !! t'.

(** the outcome is neither the page-full error nor an exhausted loop bound *)
Definition benign {A} (r : Res A) : Prop :=
  r <> Throw E_PAGE_FULL /\ r <> Throw OutOfFuel.

(** table [t] may have grown, every other table is as it was *)
Definition extends (t : string) (db db' : DB) : Prop :=
  (forall t', t' <> t -> untouched t' db db') /\
  (is_Some (_tables db !! t) -> is_Some (_tables db' !! t)) /\
  length (recordsOf t db) <= length (recordsOf t db').

(** only the buffer may differ *)
Definition buf_only (db db' : DB) : Prop :=
  pages db' = pages db /\ _tables db' = _tables db /\
  _tablePageSpaces db' = _tablePageSpaces db /\ _tableCols db' = _tableCols db /\
  _tableHashes db' = _tableHashes db /\ seed db' = seed db.

(** table [t] is still there and has lost no record *)
Definition keeps (t : string) (db db' : DB) : Prop :=
  (is_Some (_tables db !! t) -> is_Some (_tables db' !! t)) /\
  length (recordsOf t db) <= length (recordsOf t db').

(** A computation started in a state satisfying [P] ends (normally or not) in
    such a state, related to the first by [R], and never with the page-full
    error. *)
Definition contract (P : DB -> Prop) (R : DB -> DB -> Prop) {A} (m : M A) : Prop :=
  forall db, P db -> P (snd (m db)) /\ R db (snd (m db)) /\ benign (fst (m db)).

(** a contract that also says what is returned *)
Definition contractQ (P : DB -> Prop) (R : DB -> DB -> Prop) {A} (Q : A -> Prop)
    (m : M A) : Prop :=
  forall db, P db ->
    P (snd (m db)) /\ R db (snd (m db)) /\ benign (fst (m db)) /\
    forall a, fst (m db) = Ok a -> Q a.

(** table [t] may have grown, without losing the distinctness of its ids *)
Definition ext_unique (t : string) (db db' : DB) : Prop :=
  extends t db db' /\ (uniqueById t db -> uniqueById t db').

(** table [t] has no record left, every other table is as it was *)
Definition wiped (t : string) (db db' : DB) : Prop :=
  (forall t', t' <> t -> untouched t' db db') /\ recordsOf t db' = [].

(** the pages of a table after [clearTable] *)
Definition clearedPages (pids : list string) (pg : gmap string Page) : gmap string Page :=
  fold_left (fun pg pageId => <[pageId := mkPage []]> pg) pids pg.

(** the state [clearTable] leaves behind, for a buffer content [c] *)
Definition clearedState (t : string) (pids : list string) (c : list string) (db : DB) : DB :=
  set_tableHashes (<[t := ∅]>)
    (set_tablePageSpaces
       (<[t := q_heapify (map (fun pid => (pid, maxNoOfRecsPerFile)) pids)]>)
       (set_pages (clearedPages pids) (set_buf (fun _ => c) db))).

(** the state [drop] leaves behind once the table is cleared *)
Definition droppedState (t : string) (db : DB) : DB :=
  set_tableCols (delete t)
    (set_tableHashes (delete t)
       (set_tablePageSpaces (delete t) (set_tables (delete t) db))).


(** A small database: table [t] with two records stored through
    [insertUniqueRecordsById], one of them offered twice. *)
Definition rec_a : Record := [("_id", VStr "a"); ("c1", VNum 1)].
Definition rec_b : Record := [("_id", VStr "b"); ("c1", VNum 2)].
Definition ops_t : list Op :=
  [AddTable "t" [KStr "c1"]; InsertUniqueRecordsById "t" [rec_a; rec_a; rec_b]].
Definition db_t : DB := after ops_t emptyDB.


(** the record a locator points at *)
Definition recordAt (db : DB) (loc : Locator) : Record :=
  default [] (filesOf db (fst loc) !! snd loc).

(** [runs db0 m r]: started in [db0] with any buffer content, [m] ends with
    outcome [r] and has changed the buffer at most *)
Definition runs {A} (db0 : DB) (m : M A) (r : Res A) : Prop :=
  forall c, exists c', m (set_buf (fun _ => c) db0) = (r, set_buf (fun _ => c') db0).


(** ** What the hash lookups return *)

Section HashLookups.
Context `{JsBuiltins}.

(** the records [getRecsFromHash] yields from a well-formed index *)
Definition lookupResult (db : DB) (idx : HashIndex) (op : string) (rhs : Value)
  : Res (list Record) :=
  if String.eqb op "=" then
    Ok (map (recordAt db) (default [] (hm_get idx rhs)))
  else if String.eqb op ">" then
    Ok (flat_map (fun k => map (recordAt db) (default [] (hm_get idx k)))
          (List.filter (fun key => jsGt key rhs) (hm_keys idx)))
  else Throw E_OPERATOR.

(** the records an index lists under a key *)
Definition recsAt (db : DB) (idx : HashIndex) (k : Value) : list Record :=
  map (recordAt db) (default [] (hm_get idx k)).

(** the pairs [hashJoin] joins, in the order of its loops *)
Definition joinPairs (db : DB) (idx1 idx2 : HashIndex) (op : string)
  : list (Record * Record) :=
  flat_map (fun val1 =>
              list_prod (recsAt db idx1 val1)
                (flat_map (recsAt db idx2)
                   (List.filter (keepVal2 op val1) (hm_keys idx2))))
           (hm_keys idx1).

(** every source table of the projection is one of the two joined tables *)
Definition projOK (t1 t2 : string) (projection : list Proj) : bool :=
  forallb (fun p => String.eqb (fst (colSrc p)) t1 || String.eqb (fst (colSrc p)) t2)
          projection.

Definition projected (t1 t2 : string) (projection : list Proj)
    (pr : Record * Record) : Record :=
  match projectRec t1 t2 projection (Some (fst pr)) (snd pr) [] with
  | Ok res => res
  | Throw _ => []
  end.

(** what a consumer of [hashJoin] without pair ids has collected *)
Definition joinResult (db : DB) (t1 t2 : string) (projection : list Proj)
    (idx1 idx2 : HashIndex) (op : string) : Res (list Record) :=
  let ps := joinPairs db idx1 idx2 op in
  if projOK t1 t2 projection then Ok (map (projected t1 t2 projection) ps)
  else match ps with
       | [] => Ok []
       | _ :: _ => Throw E_PROJECTION
       end.

(** appending the records [l] to [s] when projecting works, and failing at
    the first of them when it does not *)
Definition emitR (ok : bool) (l : list Record) (s : list Record) : Res (list Record) :=
  if ok then Ok (s ++ l)
  else match l with
       | [] => Ok s
       | _ :: _ => Throw E_PROJECTION
       end.

End HashLookups.

(** ** A host for the examples *)

Definition digitOf (a : ascii) : option Z :=
  let n := Z.of_nat (nat_of_ascii a) in
  if (48 <=? n)%Z && (n <=? 57)%Z then Some (n - 48)%Z else None.

Fixpoint digitsOf (s : string) (acc : Z) : option Z :=
  match s with
  | EmptyString => Some acc
  | String a s' => match digitOf a with
                   | Some d => digitsOf s' (10 * acc + d)%Z
                   | None => None
                   end
  end.

(** decimal numerals convert to their value, the empty string to [0], and
    everything else here to [NaN]; records are serialised field by field *)
Definition sampleHost : JsBuiltins := {|
  ToNumber s := match digitsOf s 0%Z with Some n => Fin (inject_Z n) | None => NaN end;
  JSON_stringify r :=
    String.concat "," (map (fun kv => fst kv +:+ ":" +:+
                                      match snd kv with
                                      | VNum n => pretty n
                                      | VStr s => s
                                      | VUndef => "null"
                                      end) r);
  MapMember s :=
    bool_decide (s ∈ ["size"; "get"; "set"; "has"; "delete"; "clear"; "keys"; "values";
                      "entries"; "forEach"; "constructor"; "toString"; "valueOf";
                      "hasOwnProperty"; "isPrototypeOf"; "propertyIsEnumerable";
                      "toLocaleString"; "__proto__"])
|}.

(** ** Two runs of a join compared *)

(** the state after [if (!isTableHashed(t, c)) hashTable(t, c, true)], up to
    the buffer *)
Definition withIndex (t c : string) (db : DB) : DB :=
  match _tables db !! t, _tableHashes db !! t with
  | Some pids, Some reg =>
      match reg !! c with
      | Some _ => db
      | None => set_tableHashes (<[t := <[c := Some (index_pages c db pids [])]> reg]>) db
      end
  | _, _ => db
  end.

(** the registry of [t] holds no [undefined] for column [c] *)
Definition definedIndex (db : DB) (t c : string) : Prop :=
  forall reg, _tableHashes db !! t = Some reg -> reg !! c <> Some None.

(** the same records up to their order, or the same error *)
Definition sameOutcome (r1 r2 : Res (list Record)) : Prop :=
  match r1, r2 with
  | Ok l1, Ok l2 => l1 ≡ₚ l2
  | Throw e1, Throw e2 => e1 = e2
  | _, _ => False
  end.

Definition swap {A B} (p : A * B) : B * A := (snd p, fst p).

(** a table joined with itself *)
Definition rec_1 : Record := [("_id", VStr "a"); ("x", VNum 1); ("y", VNum 2)].
Definition rec_2 : Record := [("_id", VStr "b"); ("x", VNum 2); ("y", VNum 3)].
Definition ops_s : list Op := [AddTable "s" [KStr "x"; KStr "y"]; InsertRecords "s" [rec_1; rec_2]].
Definition db_s : DB := after ops_s emptyDB.
Definition proj_id : list Proj := [mkProj "id" ("s", "_id")].


(** two tables joined *)
Definition ops_ab : list Op :=
  [AddTable "a" [KStr "x"]; AddTable "b" [KStr "y"];
   InsertRecords "a" [[("_id", VStr "a1"); ("x", VNum 1)]; [("_id", VStr "a2"); ("x", VNum 2)]];
   InsertRecords "b" [[("_id", VStr "b1"); ("y", VNum 2)]; [("_id", VStr "b2"); ("y", VStr "2")]]].
Definition db_ab : DB := after ops_ab emptyDB.
Definition proj_ab : list Proj := [mkProj "l" ("a", "_id"); mkProj "r" ("b", "_id")].


(** ** Passes of the recursive term *)

(** the state after [n] executions of a term *)
Definition afterPasses `{JsBuiltins} (n : nat) (term : Term) (W R : string) (db : DB) : DB :=
  Nat.iter n (fun db => snd (executeTerm term W R db)) db.

(** the driver up to its loop *)
Definition beforeLoop `{JsBuiltins} (query : Query) : M Z :=
  recTableName ← createRecursiveTable (withDecl query);
  keys ← getTableKeys recTableName;
  addTable (resultTableName query) keys;;
  executeTerm (nonrecTerm query) recTableName (resultTableName query).

(** the transitive closure of the edges of [a], into [n] *)
Definition ops_edges : list Op :=
  [AddTable "a" [KStr "c1"; KStr "c2"];
   InsertRecords "a" [[("c1", VNum 1); ("c2", VNum 2)]; [("c1", VNum 2); ("c2", VNum 3)]]].
Definition db_edges : DB := after ops_edges emptyDB.
Definition query_closure : Query :=
  mkQuery (mkWithDecl "t" ["c1"; "c2"])
    (mkTerm [Star] ["a"] None)
    (mkTerm [Col "a" "c1"; Col "t" "c2"] ["a"; "t"]
       (Some [mkOperation ("t", "c1") "=" (RCol "a" "c2")]))
    "n".

(** a query whose result table is its working table *)
Definition ops_shrink : list Op :=
  [AddTable "a" [KStr "c1"]; InsertRecords "a" [[("c1", VNum 1)]; [("c1", VNum 2)]];
   AddTable "b" [KStr "c1"]; InsertRecords "b" [[("c1", VNum 7)]]].
Definition db_shrink : DB := after ops_shrink emptyDB.
Definition query_shrink : Query :=
  mkQuery (mkWithDecl "t" ["c1"]) (mkTerm [Star] ["a"] None) (mkTerm [Star] ["b"] None) "t".

(** ** A join tree with a child: [a.x = b.y AND b.z = c.w] *)

Definition ops_abc : list Op :=
  [AddTable "a" [KStr "x"]; InsertRecords "a" [[("x", VNum 1)]];
   AddTable "b" [KStr "y"; KStr "z"]; InsertRecords "b" [[("y", VNum 1); ("z", VNum 5)]];
   AddTable "c" [KStr "w"]; InsertRecords "c" [[("w", VNum 5)]];
   AddTable "t" [KStr "x"; KStr "y"; KStr "w"]; AddTable "n" [KStr "x"; KStr "y"; KStr "w"]].
Definition db_abc : DB := after ops_abc emptyDB.
Definition term_abc : Term :=
  mkTerm [Col "a" "x"; Col "b" "y"; Col "c" "w"] ["a"; "b"; "c"]
    (Some [mkOperation ("a", "x") "=" (RCol "b" "y");
           mkOperation ("b", "z") "=" (RCol "c" "w")]).

(** the pair tables of the term, as [execute] builds them *)
Definition pairs_abc `{JsBuiltins} : M unit :=
  forM_ (compositeOps (sortOps term_abc))
    (compositeTable
       [(Some "a", [Col "a" "x"]); (Some "b", [Col "b" "y"]); (Some "c", [Col "c" "w"])]
       [(KStr "x", Col "a" "x"); (KStr "y", Col "b" "y"); (KStr "w", Col "c" "w")]
       [("a", "a"); ("b", "b"); ("c", "c")]).

Definition tree_abc : Tree := Node ("a", "b") [Node ("b", "c") []].




(** * Further descriptions of states and results *)

(** the record [insertRecords] stores for [r]: [r] itself when it carries an
    [_id], otherwise [r] with a generated [_id] of the form [table:nanoid] *)
Definition storedAs (t : string) (r stored : Record) : Prop :=
  if rhas r "_id" then stored = r
  else exists k, stored = ("_id", VStr (t +:+ ":" +:+ nano k)) :: r.

(** the locators of the records of a page, from slot [i] on, whose column
    [c] holds [v] *)
Fixpoint locsOf (c : string) (v : Value) (pid : string) (i : nat) (files : list Record)
  : list Locator :=
  match files with
  | [] => []
  | r :: rest =>
      (if decide (rget r c = v) then [(pid, i)] else []) ++ locsOf c v pid (S i) rest
  end.

(** the records whose column [c] holds exactly [v] *)
Definition withValue (c : string) (v : Value) (recs : list Record) : list Record :=
  List.filter (fun r => bool_decide (rget r c = v)) recs.

(** the records of a batch that [insertUniqueRecordsById] stores when the
    table already holds the [_id] values [seen]: a record is skipped when its
    [_id] has been seen, in the table or earlier in the batch; a record
    without [_id] counts as having the [_id] [undefined] *)
Fixpoint accepted (seen : list Value) (recs : list Record) : list Record :=
  match recs with
  | [] => []
  | r :: rest =>
      if bool_decide (rget r "_id" ∈ seen) then accepted seen rest
      else r :: accepted (rget r "_id" :: seen) rest
  end.

(** the [_id] index of the table knows exactly the [_id] values stored *)
Definition exactIds (t : string) (db : DB) : Prop :=
  exists idx, hasIndex db t "_id" idx /\
              forall v, hm_has idx v = true <-> v ∈ idsOf t db.

(** the pair tables a join tree is made of, parents before children *)
Fixpoint nodes (t : Tree) : list (string * string) :=
  match t with
  | Node id children => id :: flat_map nodes children
  end.

(** ** [dropAllTables], [zip2] and the CSV loader *)

(** [dropAllTables]: every table of the catalog is dropped, then the buffer
    is replaced by a new one *)
Definition dropAllTables : M unit :=
  names ← gets (fun db => map fst (map_to_list (_tables db)));
  forM_ names drop;;
  modify (set_buf (fun _ => [])).

(** [zip2] of the utilities; [arr2[indexOfEl]] may be [undefined] *)
Definition E_ZIP : Err := Error "Arrays must be of same length to zip them.".

Definition zip2 {A B} (arr1 : list A) (arr2 : list B) : Res (list (A * option B)) :=
  if negb (length arr1 =? length arr2) then Throw E_ZIP
  else Ok (imap (fun indexOfEl arr1El => (arr1El, arr2 !! indexOfEl)) arr1).

(** [s.split(',')], with the field read so far in [cur] *)
Fixpoint split_comma (s : string) (cur : string) : list string :=
  match s with
  | EmptyString => [cur]
  | String c s' =>
      if Ascii.eqb c (ascii_of_nat 44) then cur :: split_comma s' EmptyString
      else split_comma s' (cur +:+ String c EmptyString)
  end.

(** [Object.fromEntries] on pairs of a column name and a field *)
Definition fromEntries (keyValPairs : list (string * option string)) : Record :=
  fold_left (fun res kv =>
               rset res (fst kv) (match snd kv with Some s => VStr s | None => VUndef end))
    keyValPairs [].

(** [Math.round((n * scale) / 100)] for a whole-number [scale] *)
Definition roundPercent (n scale : nat) : nat := (n * scale + 50) / 100.

(** [arr.map(f)] for a callback that may throw *)
Fixpoint mapR {A B} (f : A -> Res B) (l : list A) : Res (list B) :=
  match l with
  | [] => Ok []
  | x :: l' =>
      match f x with
      | Throw e => Throw e
      | Ok y => match mapR f l' with
                | Throw e => Throw e
                | Ok ys => Ok (y :: ys)
                end
      end
  end.

Section CsvInit.
Context `{JsBuiltins}.

(** the callback of [fileLines.map] in [parseCsvFile] *)
Definition csvDoc (fieldNames : list string) (csvLine : string) : Res Record :=
  match zip2 fieldNames (split_comma csvLine EmptyString) with
  | Throw e => Throw e
  | Ok keyValPairs =>
      let res := fromEntries keyValPairs in
      Ok (rset res "_id" (VStr (JSON_stringify res)))
  end.

(** the column names of [parseCsvFile]: those given, or else [c1], [c2], ...
    for the fields of the first line *)
Definition csvFieldNames (fileLines : list string) (colNames : option (list string))
  : Res (list string) :=
  match colNames with
  | None =>
      match head fileLines with
      | None => Throw TypeError
      | Some line0 =>
          let noOfCols := length (split_comma line0 EmptyString) in
          Ok (map (fun index => "c" +:+ pretty (index + 1)) (seq 0 noOfCols))
      end
  | Some colNames => Ok colNames
  end.

(** [parseCsvFile] on the lines of the file: [fileLines] are the trimmed
    matches of the line pattern in the text read.  For a text without any
    line [match] returns [null], on which [getFileLines] fails before
    anything else is done: the empty list stands for that case. *)
Definition parseCsvLines (fileLines : list string) (tableName : string) (scale : nat)
    (colNames : option (list string)) : M unit :=
  match fileLines with
  | [] => throw TypeError
  | _ :: _ =>
      fieldNames ← liftR (csvFieldNames fileLines colNames);
      addTable tableName (map KStr fieldNames);;
      docs ← liftR (mapR (csvDoc fieldNames) fileLines);
      insertUniqueRecordsById tableName
        (take (roundPercent (length docs) scale) docs)
  end.

End CsvInit.
(** * Properties *)

(** ** Running computations *)

Lemma bind_run {A B} (m : M A) (k : A -> M B) db :
  (m ≫= k) db = match m db with
                | (Ok a, db') => k a db'
                | (Throw e, db') => (Throw e, db')
                end.
Proof. reflexivity. Qed.

Lemma bind_ok {A B} (m : M A) (k : A -> M B) db a db' :
  m db = (Ok a, db') -> (m ≫= k) db = k a db'.
Proof. intros E. rewrite bind_run, E. reflexivity. Qed.

Lemma bind_throw {A B} (m : M A) (k : A -> M B) db e db' :
  m db = (Throw e, db') -> (m ≫= k) db = (Throw e, db').
Proof. intros E. rewrite bind_run, E. reflexivity. Qed.

Lemma gets_run {A} (f : DB -> A) db : gets f db = (Ok (f db), db).
Proof. reflexivity. Qed.

Lemma defined_some {A} (a : A) db : defined (Some a) db = (Ok a, db).
Proof. reflexivity. Qed.

Lemma defined_none {A} db : defined (@None A) db = (Throw TypeError, db).
Proof. reflexivity. Qed.

Ltac mstep :=
  rewrite ?bind_run, ?gets_run, ?defined_some, ?defined_none; cbn beta iota.

Lemma cap_pos : 0 < maxNoOfRecsPerFile.
Proof. unfold maxNoOfRecsPerFile. lia. Qed.

Lemma nano_inj k1 k2 : nano k1 = nano k2 -> k1 = k2.
Proof.
  unfold nano. intros E. apply (inj (String.append "nanoid#")) in E.
  by apply (inj pretty) in E.
Qed.
Lemma lru_touch_in pid c : pid ∈ lru_touch pid c.
Proof. unfold lru_touch. set_solver. Qed.

Lemma lru_set_in pid c : pid ∈ lru_set pid c.
Proof. unfold lru_set, lru_touch, cacheMax. simpl. set_solver. Qed.

Lemma cache_get_ok pid db p :
  pid ∈ _buf db -> pages db !! pid = Some p ->
  cache_get pid db = (Ok p, set_buf (lru_touch pid) db).
Proof.
  intros Hin Hp. unfold cache_get. rewrite bool_decide_eq_true_2 by done.
  by rewrite Hp.
Qed.

Lemma tableGet_ok t pid db pids :
  _tables db !! t = Some pids -> pid ∈ pids ->
  tableGet t pid db = (Ok (Some pid), db).
Proof.
  intros Ht Hin. unfold tableGet. mstep. rewrite Ht. mstep.
  unfold ret. rewrite bool_decide_eq_true_2 by done. reflexivity.
Qed.

(** after [ensurePage] the page is resident and nothing else has changed *)
Lemma ensurePage_ok t pid db pids :
  _tables db !! t = Some pids -> pid ∈ pids ->
  exists c, ensurePage t pid db = (Ok tt, set_buf (fun _ => c) db) /\ pid ∈ c.
Proof.
  intros Ht Hin. unfold ensurePage, hasPage. mstep.
  case_bool_decide as Hb.
  - exists (_buf db). split; [|done]. by destruct db.
  - mstep. rewrite (tableGet_ok _ _ _ _ Ht Hin). unfold addPage. mstep.
    exists (lru_set pid (_buf db)). split; [done|apply lru_set_in].
Qed.
Lemma q_add_perm e q : q_add e q ≡ₚ e :: q.
Proof.
  induction q as [|e' q IH]; simpl; [done|].
  destruct (_pageSpaceComparator e e'); [done|].
  rewrite IH. apply perm_swap.
Qed.

Lemma q_heapify_perm arr : q_heapify arr ≡ₚ arr.
Proof.
  unfold q_heapify. 
  assert (G : forall acc, fold_left (fun q e => q_add e q) arr acc ≡ₚ acc ++ arr).
  { induction arr as [|e arr IH]; intros acc; simpl.
    - by rewrite app_nil_r.
    - rewrite IH, q_add_perm. by rewrite <- Permutation_middle. }
  apply (G []).
Qed.

Lemma table_ok_ext h db db' t pids :
  pages db' = pages db -> seed db' = seed db ->
  _tablePageSpaces db' !! t = _tablePageSpaces db !! t ->
  _tableCols db' !! t = _tableCols db !! t ->
  _tableHashes db' !! t = _tableHashes db !! t ->
  table_ok h db t pids -> table_ok h db' t pids.
Proof.
  intros Ep Es Eq Ec Eh [H1 H2 H3 H4 H5 H6].
  constructor; try done.
  - intros pid Hpid. rewrite Ep, Es. by apply H3.
  - destruct H4 as (q & Hq & Hperm & Hall). exists q. rewrite Eq.
    split_and!; try done. eapply Forall_impl; [exact Hall|].
    intros e (p & ? & ?). exists p. by rewrite Ep.
  - by rewrite Ec.
  - destruct H6 as (reg & Hreg & Hl). exists reg. rewrite Eh. split; [done|].
    intros c idx Hc k locs pid i Hk Hin. destruct (Hl c idx Hc k locs pid i Hk Hin) as [? (p & ? & ?)].
    split; [done|]. exists p. by rewrite Ep.
Qed.

Lemma InvH_set_buf h f db : InvH h db -> InvH h (set_buf f db).
Proof.
  intros [H1 H2 H3]. constructor; simpl; try done.
  intros t pids Ht. eapply table_ok_ext; [..|by apply H1]; done.
Qed.

Lemma InvH_set_buf_inv h f db : InvH h (set_buf f db) -> InvH h db.
Proof.
  intros [H1 H2 H3]. constructor; simpl in *; try done.
  intros t pids Ht. eapply table_ok_ext; [..|by apply H1]; done.
Qed.
(** *** Raw state changes that keep the state well formed *)

Lemma hole_not_in_queue (pids : list string) pid (q : list (string * nat)) :
  NoDup pids -> pid :: map fst q ≡ₚ pids -> forall e, e ∈ q -> fst e <> pid.
Proof.
  intros Hnd Hperm e He Heq. rewrite <- Hperm in Hnd.
  apply NoDup_cons in Hnd as [Hni _]. apply Hni. subst pid.
  apply list_elem_of_fmap. eauto.
Qed.

Lemma queue_entry_in_table h (db : DB) t pids :
  table_ok h db t pids ->
  forall q e, _tablePageSpaces db !! t = Some q -> e ∈ q -> fst e ∈ pids.
Proof.
  intros [_ _ _ (q' & Hq' & Hperm & _) _ _] q e Hq He.
  rewrite Hq in Hq'. injection Hq' as <-.
  rewrite <- Hperm. destruct h; [apply list_elem_of_further|];
    apply list_elem_of_fmap; eauto.
Qed.

(** a record is appended to the page whose queue entry is out *)
Lemma InvH_insert_record db t pids pid p r :
  InvH (Some (t, pid)) db ->
  _tables db !! t = Some pids -> pid ∈ pids ->
  pages db !! pid = Some p -> length (_files p) < maxNoOfRecsPerFile ->
  InvH (Some (t, pid)) (set_pages (<[pid := mkPage (_files p ++ [r])]>) db).
Proof.
  intros [H1 H2 H3] Ht Hpid Hp Hlen. constructor; simpl; try done.
  intros t' pids' Ht'. specialize (H1 t' pids' Ht').
  assert (Hq : forall q e, _tablePageSpaces db !! t' = Some q -> e ∈ q -> fst e <> pid).
  { intros q e Hq He. destruct (decide (t' = t)) as [->|Hne].
    - rewrite Ht in Ht'. injection Ht' as <-. destruct H1 as [_ Hnd _ (q' & Hq' & Hperm & _) _ _].
      rewrite Hq in Hq'. injection Hq' as <-. unfold hole_of in Hperm.
      rewrite decide_True in Hperm by done.
      eapply hole_not_in_queue; eauto.
    - intros Heq. apply Hne. apply (H2 t' t pids' pids pid); try done.
      rewrite <- Heq. eapply queue_entry_in_table; eauto. }
  destruct H1 as [K1 K2 K3 K4 K5 K6]. constructor; simpl; try done.
  - intros pid' Hpid'. destruct (K3 pid' Hpid') as (k & p' & -> & Hk & Hp' & Hl).
    destruct (decide (nano k = pid)) as [<-|Hne].
    + exists k, (mkPage (_files p ++ [r])). rewrite lookup_insert_eq. split_and!; try done.
      simpl. rewrite length_app. simpl. lia.
    + exists k, p'. rewrite lookup_insert_ne by done. done.
  - destruct K4 as (q & Hq' & Hperm & Hall). exists q. split_and!; try done.
    apply Forall_forall. intros e He. rewrite Forall_forall in Hall.
    destruct (Hall e He) as (p' & Hp' & Hs). exists p'. simpl.
    rewrite lookup_insert_ne; [done|]. intros Heq. by apply (Hq q e Hq' He).
  - destruct K6 as (reg & Hreg & Hl). exists reg. split; [done|].
    intros c idx Hc k locs pid' i Hk Hin.
    destruct (Hl c idx Hc k locs pid' i Hk Hin) as [Hin' (p' & Hp' & Hi)].
    split; [done|]. destruct (decide (pid' = pid)) as [->|Hne].
    + exists (mkPage (_files p ++ [r])). simpl. rewrite lookup_insert_eq. split; [done|].
      rewrite length_app. rewrite Hp in Hp'. injection Hp' as <-. lia.
    + exists p'. simpl. by rewrite lookup_insert_ne.
Qed.
Lemma Forall_q_add (P : string * nat -> Prop) e q :
  P e -> Forall P q -> Forall P (q_add e q).
Proof.
  intros He Hq. induction Hq as [|e' q He' Hq IH]; simpl.
  - by constructor.
  - destruct (_pageSpaceComparator e e'); repeat constructor; done.
Qed.

(** the top entry of the queue is taken out *)
Lemma InvH_poll db t e (q' : list (string * nat)) :
  Inv db -> _tablePageSpaces db !! t = Some (e :: q') ->
  InvH (Some (t, fst e)) (set_tablePageSpaces (<[t := q']>) db).
Proof.
  intros [H1 H2 H3] Hq. constructor; simpl; try done.
  - intros t' pids' Ht'. specialize (H1 t' pids' Ht').
    destruct H1 as [K1 K2 K3 K4 K5 K6]. constructor; simpl; try done.
    destruct (decide (t = t')) as [<-|Hne].
    + destruct K4 as (q & Hq' & Hperm & Hall). rewrite Hq in Hq'. injection Hq' as <-.
      exists q'. rewrite lookup_insert_eq. split_and!; try done.
      by apply Forall_cons in Hall as [_ ?].
    + rewrite lookup_insert_ne by done. done.
  - intros t' Ht'. destruct (H3 t' Ht') as (? & ? & ?). split_and!; try done.
    rewrite lookup_insert_ne; [done|]. intros <-. congruence.
Qed.

(** the entry of the page comes back with its current free space *)
Lemma InvH_queue_add db t pid p (q : list (string * nat)) :
  InvH (Some (t, pid)) db -> _tablePageSpaces db !! t = Some q ->
  pages db !! pid = Some p ->
  Inv (set_tablePageSpaces (<[t := q_add (pid, Page_spacesLeft p) q]>) db).
Proof.
  intros [H1 H2 H3] Hq Hp. constructor; simpl; try done.
  - intros t' pids' Ht'. specialize (H1 t' pids' Ht').
    destruct H1 as [K1 K2 K3 K4 K5 K6]. constructor; simpl; try done.
    destruct (decide (t = t')) as [<-|Hne].
    + destruct K4 as (q0 & Hq' & Hperm & Hall). rewrite Hq in Hq'. injection Hq' as <-.
      unfold hole_of in Hperm. rewrite decide_True in Hperm by done.
      exists (q_add (pid, Page_spacesLeft p) q). rewrite lookup_insert_eq.
      split_and!; try done.
      * by rewrite q_add_perm.
      * apply Forall_q_add; [by exists p|done].
    + rewrite lookup_insert_ne by done. unfold hole_of in K4.
      by rewrite decide_False in K4 by done.
  - intros t' Ht'. destruct (H3 t' Ht') as (Hn & ? & ?). split_and!; try done.
    rewrite lookup_insert_ne; [done|]. intros <-. congruence.
Qed.

(** an index whose locators are valid is registered *)
Lemma InvH_set_index h db t pids reg c (hashIndex : option (list (Value * list (string * nat)))) :
  InvH h db -> _tables db !! t = Some pids -> _tableHashes db !! t = Some reg ->
  (forall idx, hashIndex = Some idx -> locs_ok db pids idx) ->
  InvH h (set_tableHashes (<[t := <[c := hashIndex]> reg]>) db).
Proof.
  intros [H1 H2 H3] Ht Hreg Hidx. constructor; simpl; try done.
  - intros t' pids' Ht'. specialize (H1 t' pids' Ht').
    destruct H1 as [K1 K2 K3 K4 K5 K6]. constructor; simpl; try done.
    destruct (decide (t = t')) as [<-|Hne].
    + rewrite Ht in Ht'. injection Ht' as <-.
      exists (<[c := hashIndex]> reg). rewrite lookup_insert_eq. split; [done|].
      intros c' idx Hc'. destruct (decide (c = c')) as [<-|Hnc].
      * rewrite lookup_insert_eq in Hc'. injection Hc' as ->. by apply Hidx.
      * rewrite lookup_insert_ne in Hc' by done.
        destruct K6 as (reg' & Hreg' & Hl). rewrite Hreg in Hreg'. injection Hreg' as <-.
        by apply (Hl c').
    + by rewrite lookup_insert_ne.
  - intros t' Ht'. destruct (H3 t' Ht') as (? & ? & ?). split_and!; try done.
    rewrite lookup_insert_ne; [done|]. intros <-. congruence.
Qed.

Lemma Inv_fresh h db t pids pid :
  InvH h db -> _tables db !! t = Some pids -> pid ∈ pids -> pid <> nano (seed db).
Proof.
  intros [H1 _ _] Ht Hpid. destruct (H1 t pids Ht) as [_ _ K3 _ _ _].
  destruct (K3 pid Hpid) as (k & p & -> & Hk & _). intros E%nano_inj. lia.
Qed.
Ltac mred :=
  unfold mbind, M_bind, bind, defined, when, gets, modify, throw, ret;
  cbn beta iota zeta delta [fst snd pages _buf _tables _tablePageSpaces _tableCols
    _tableHashes seed set_pages set_buf set_tables set_tablePageSpaces set_tableCols
    set_tableHashes set_seed].

(** what a table needs from the state in order to stay well formed *)
Lemma table_ok_frame h db db' t pids :
  table_ok h db t pids ->
  (forall pid, pid ∈ pids -> pages db' !! pid = pages db !! pid) ->
  seed db <= seed db' ->
  _tablePageSpaces db' !! t = _tablePageSpaces db !! t ->
  _tableCols db' !! t = _tableCols db !! t ->
  _tableHashes db' !! t = _tableHashes db !! t ->
  table_ok h db' t pids.
Proof.
  intros Hok Ep Es Eq Ec Eh. pose proof (queue_entry_in_table _ _ _ _ Hok) as Hqin.
  destruct Hok as [H1 H2 H3 H4 H5 H6].
  constructor; try done.
  - intros pid Hpid. destruct (H3 pid Hpid) as (k & p & ? & ? & ? & ?).
    exists k, p. rewrite Ep by done. split_and!; try done. lia.
  - destruct H4 as (q & Hq & Hperm & Hall). exists q. rewrite Eq.
    split_and!; try done. apply Forall_forall. intros e He.
    rewrite Forall_forall in Hall. destruct (Hall e He) as (p & ? & ?).
    exists p. rewrite Ep; [done|]. by apply (Hqin q).
  - by rewrite Ec.
  - destruct H6 as (reg & Hreg & Hl). exists reg. rewrite Eh. split; [done|].
    intros c idx Hc k locs pid i Hk Hin.
    destruct (Hl c idx Hc k locs pid i Hk Hin) as [? (p & ? & ?)].
    split; [done|]. exists p. by rewrite Ep.
Qed.

Lemma addNewPage_run db t pids (q : list (string * nat)) :
  _tables db !! t = Some pids -> _tablePageSpaces db !! t = Some q ->
  _addNewPageToTable t db = (Ok tt, newPageState t pids q db).
Proof.
  intros Ht Hq. unfold _addNewPageToTable, nanoid, nanoid_seed, queue_add.
  mred. rewrite Ht. mred. rewrite Hq. reflexivity.
Qed.

(** a fresh page joins a table: the state stays well formed *)
Lemma Inv_newPage db t pids (q : list (string * nat)) :
  Inv db -> _tables db !! t = Some pids -> _tablePageSpaces db !! t = Some q ->
  Inv (newPageState t pids q db).
Proof.
  intros HI Ht Hq. pose proof HI as [H1 H2 H3].
  assert (Hfresh : forall t' pids' pid, _tables db !! t' = Some pids' -> pid ∈ pids' ->
                                        pid <> nano (seed db)).
  { intros. eapply Inv_fresh; eauto. }
  constructor; simpl.
  - intros t' pids' Ht'. destruct (decide (t = t')) as [<-|Hne].
    + rewrite lookup_insert_eq in Ht'. injection Ht' as <-.
      destruct (H1 t pids Ht) as [K1 K2 K3 K4 K5 K6]. constructor; simpl; try done.
      * by destruct pids.
      * apply NoDup_app. split_and!; [done| |apply NoDup_singleton].
        intros pid Hpid ->%list_elem_of_singleton. by eapply Hfresh.
      * intros pid [Hpid| ->%list_elem_of_singleton]%elem_of_app.
        -- destruct (K3 pid Hpid) as (k & p & -> & ? & ? & ?). exists k, p.
           rewrite lookup_insert_ne; [split_and!; try done; lia|].
           intros E. by eapply Hfresh.
        -- exists (seed db), (mkPage []). rewrite lookup_insert_eq. simpl.
           split_and!; try done; lia.
      * destruct K4 as (q0 & Hq0 & Hperm & Hall). rewrite Hq in Hq0. injection Hq0 as <-.
        eexists. rewrite lookup_insert_eq. split; [done|]. split.
        -- rewrite q_add_perm. simpl. rewrite Hperm. apply Permutation_cons_append.
        -- apply Forall_q_add.
           ++ exists (mkPage []). simpl. by rewrite lookup_insert_eq.
           ++ apply Forall_forall. intros e He. rewrite Forall_forall in Hall.
              destruct (Hall e He) as (p & ? & ?). exists p. simpl.
              rewrite lookup_insert_ne; [done|]. intros E.
              eapply (Hfresh t pids (fst e)); [done| |done].
              rewrite <- Hperm. apply list_elem_of_fmap. eauto.
      * destruct K6 as (reg & Hreg & Hl). exists reg. split; [done|].
        intros c idx Hc k locs pid i Hk Hin.
        destruct (Hl c idx Hc k locs pid i Hk Hin) as [? (p & ? & ?)].
        split; [apply elem_of_app; by left|]. exists p. simpl. rewrite lookup_insert_ne; [done|].
        intros E. by eapply Hfresh.
    + rewrite lookup_insert_ne in Ht' by done.
      eapply table_ok_frame; [by apply H1|..]; simpl; try done.
      * intros pid Hpid. rewrite lookup_insert_ne; [done|]. intros E. by eapply Hfresh.
      * lia.
      * by rewrite lookup_insert_ne.
  - intros t1 t2 pids1 pids2 pid Ht1 Ht2 Hp1 Hp2.
    destruct (decide (t = t1)) as [<-|Hn1]; destruct (decide (t = t2)) as [<-|Hn2]; try done.
    + rewrite lookup_insert_eq in Ht1. injection Ht1 as <-.
      rewrite lookup_insert_ne in Ht2 by done.
      apply elem_of_app in Hp1 as [Hp1| ->%list_elem_of_singleton]; [by eapply H2|].
      exfalso. by eapply Hfresh.
    + rewrite lookup_insert_eq in Ht2. injection Ht2 as <-.
      rewrite lookup_insert_ne in Ht1 by done.
      apply elem_of_app in Hp2 as [Hp2| ->%list_elem_of_singleton]; [by eapply H2|].
      exfalso. by eapply Hfresh.
    + rewrite lookup_insert_ne in Ht1, Ht2 by done. by eapply H2.
  - intros t' Ht'. destruct (decide (t = t')) as [<-|Hne].
    + by rewrite lookup_insert_eq in Ht'.
    + rewrite lookup_insert_ne in Ht' by done. rewrite lookup_insert_ne by done.
      by apply H3.
Qed.
Lemma recordsOf_newPage db t t' pids (q : list (string * nat)) :
  Inv db -> _tables db !! t = Some pids ->
  recordsOf t' (newPageState t pids q db) = recordsOf t' db.
Proof.
  intros HI Ht. unfold recordsOf. simpl.
  assert (Hmap : forall t0 pids0, _tables db !! t0 = Some pids0 ->
    map (filesOf (newPageState t pids q db)) pids0 = map (filesOf db) pids0).
  { intros t0 pids0 Ht0. apply map_ext_in. intros pid Hpid%list_elem_of_In.
    unfold filesOf. simpl.
    rewrite lookup_insert_ne; [done|]. intros E. symmetry in E. revert E.
    by eapply Inv_fresh. }
  destruct (decide (t = t')) as [<-|Hne].
  - rewrite lookup_insert_eq, Ht. rewrite map_app, concat_app. simpl.
    unfold filesOf at 2. simpl.
    rewrite lookup_insert_eq. simpl. rewrite !app_nil_r. f_equal. by eapply Hmap.
  - rewrite lookup_insert_ne by done. destruct (_tables db !! t') as [pids'|] eqn:Ht'; [|done].
    f_equal. by eapply Hmap.
Qed.

(** [_getPageToInsert] hands out a page with room, whose queue entry it holds *)
Lemma getPageToInsert_spec db t pids :
  Inv db -> _tables db !! t = Some pids ->
  exists pid s db' pids' p,
    _getPageToInsert t db = (Ok (pid, s), db') /\
    InvH (Some (t, pid)) db' /\
    _tables db' !! t = Some pids' /\ pid ∈ pids' /\
    pages db' !! pid = Some p /\ s = Page_spacesLeft p /\ 1 <= s /\
    _buf db' = _buf db /\ _tableHashes db' = _tableHashes db /\
    _tableCols db' = _tableCols db /\ seed db <= seed db' /\
    (forall t', recordsOf t' db' = recordsOf t' db) /\
    (forall t', t' <> t -> untouched t' db db').
Proof.
  intros HI Ht. pose proof HI as [H1 H2 H3].
  destruct (H1 t pids Ht) as [K1 K2 K3 (q & Hq & Hperm & Hall) K5 K6].
  destruct q as [|[pid0 s0] q].
  { apply Permutation_nil_l in Hperm. done. }
  unfold _getPageToInsert. mred. rewrite Hq. mred. cbn [head]. cbn [snd].
  destruct (Nat.eqb_spec s0 0) as [->|Hs0].
  - (* every page is full *)
    mred. rewrite (addNewPage_run _ _ _ _ Ht Hq).
    pose proof (Inv_newPage _ _ _ _ HI Ht Hq) as HI'.
    set (db1 := newPageState t pids ((pid0, 0) :: q) db) in *.
    assert (Hq1 : _tablePageSpaces db1 !! t =
                  Some ((nano (seed db), maxNoOfRecsPerFile) :: (pid0, 0) :: q)).
    { unfold db1. simpl. rewrite lookup_insert_eq. unfold _pageSpaceComparator. simpl.
      destruct (Nat.ltb_spec 0 maxNoOfRecsPerFile) as [|Hc]; [done|].
      pose proof cap_pos. lia. }
    rewrite Hq1.
    exists (nano (seed db)), maxNoOfRecsPerFile, (set_tablePageSpaces (<[t := (pid0, 0) :: q]>) db1).
    exists (pids ++ [nano (seed db)]), (mkPage []).
    split; [done|]. split; [by apply (InvH_poll db1 t (nano (seed db), maxNoOfRecsPerFile))|].
    simpl. rewrite !lookup_insert_eq. split_and!; try done.
    + apply elem_of_app. right. by apply list_elem_of_singleton.
    + pose proof cap_pos. lia.
    + lia.
    + intros t'. rewrite <- (recordsOf_newPage db t t' pids ((pid0, 0) :: q) HI Ht). done.
    + intros t' Hne. unfold untouched. simpl. rewrite !lookup_insert_ne by done.
      split_and!; try done. intros pids' pid Ht' Hpid.
      rewrite lookup_insert_ne; [done|]. intros E. symmetry in E. revert E. by eapply Inv_fresh.
  - mred. rewrite Hq. rewrite Forall_cons in Hall. destruct Hall as [(p & Hp & Hs) _].
    simpl in Hp, Hs.
    exists pid0, s0, (set_tablePageSpaces (<[t := q]>) db). exists pids, p.
    split; [done|]. split; [by apply (InvH_poll db t (pid0, s0))|].
    simpl. split_and!; try done.
    + rewrite <- Hperm. simpl. apply list_elem_of_here.
    + lia.
    + intros t' Hne. unfold untouched. simpl. rewrite !lookup_insert_ne by done. done.
Qed.
(** *** Writing one record *)

Lemma make_resident db pid :
  exists c, (hasPage pid ≫= fun b => when (negb b) (addPage (Some pid))) db =
            (Ok tt, set_buf (fun _ => c) db) /\ pid ∈ c.
Proof.
  unfold hasPage, addPage. mred. case_bool_decide as Hb; simpl.
  - exists (_buf db). split; [|done]. by destruct db.
  - exists (lru_set pid (_buf db)). split; [done|apply lru_set_in].
Qed.

Lemma buf_insertRecord_ok db pid p r :
  pid ∈ _buf db -> pages db !! pid = Some p ->
  length (_files p) < maxNoOfRecsPerFile ->
  buf_insertRecord pid r db =
    (Ok (length (_files p)),
     set_pages (<[pid := mkPage (_files p ++ [r])]>) (set_buf (lru_touch pid) db)).
Proof.
  intros Hin Hp Hlen. unfold buf_insertRecord. mred.
  rewrite (cache_get_ok _ _ _ Hin Hp). unfold Page_insertRecord.
  destruct (Nat.ltb_spec (length (_files p)) maxNoOfRecsPerFile); [done|lia].
Qed.

Lemma concat_map_update {A} (g g' : string -> list A) (l : list string) x r :
  NoDup l -> x ∈ l -> g' x = g x ++ [r] -> (forall y, y <> x -> g' y = g y) ->
  concat (map g' l) ≡ₚ concat (map g l) ++ [r].
Proof.
  intros Hnd Hx Hgx Hg. induction l as [|y l IH]; [by apply elem_of_nil in Hx|].
  apply NoDup_cons in Hnd as [Hy Hnd]. simpl.
  destruct (decide (y = x)) as [->|Hne].
  - rewrite Hgx. assert (E : map g' l = map g l).
    { apply map_ext_in. intros z Hz%list_elem_of_In. apply Hg. intros ->. done. }
    rewrite E. rewrite <- !app_assoc. apply Permutation_app_head.
    apply Permutation_app_comm.
  - rewrite Hg by done. apply elem_of_cons in Hx as [->|Hx]; [done|].
    rewrite IH by done. by rewrite app_assoc.
Qed.

Lemma recordsOf_insert h db t pids pid p r :
  InvH h db -> _tables db !! t = Some pids -> pid ∈ pids ->
  pages db !! pid = Some p ->
  recordsOf t (set_pages (<[pid := mkPage (_files p ++ [r])]>) db) ≡ₚ
  recordsOf t db ++ [r].
Proof.
  intros [H1 _ _] Ht Hpid Hp. unfold recordsOf. simpl. rewrite Ht.
  destruct (H1 t pids Ht) as [_ Hnd _ _ _ _].
  apply (concat_map_update _ _ pids pid r); try done.
  - unfold filesOf. simpl. by rewrite lookup_insert_eq, Hp.
  - intros y Hy. unfold filesOf. simpl. by rewrite lookup_insert_ne.
Qed.

Lemma untouched_insert h db t pids pid p' t' :
  InvH h db -> _tables db !! t = Some pids -> pid ∈ pids -> t' <> t ->
  untouched t' db (set_pages (<[pid := p']>) db).
Proof.
  intros [_ H2 _] Ht Hpid Hne. unfold untouched. simpl. split_and!; try done.
  intros pids' pid' Ht' Hpid'. rewrite lookup_insert_ne; [done|].
  intros <-. apply Hne. by apply (H2 t' t pids' pids pid).
Qed.

Lemma untouched_recordsOf t db db' :
  untouched t db db' -> recordsOf t db' = recordsOf t db.
Proof.
  intros (Ht & _ & _ & _ & Hp). unfold recordsOf. rewrite Ht.
  destruct (_tables db !! t) as [pids|] eqn:E; [|done]. f_equal.
  apply map_ext_in. intros pid Hpid%list_elem_of_In. unfold filesOf.
  by rewrite (Hp pids pid).
Qed.

Lemma untouched_refl t db : untouched t db db.
Proof. by unfold untouched. Qed.

Lemma untouched_trans t db1 db2 db3 :
  untouched t db1 db2 -> untouched t db2 db3 -> untouched t db1 db3.
Proof.
  intros (A1 & A2 & A3 & A4 & A5) (B1 & B2 & B3 & B4 & B5). unfold untouched.
  split_and!; try congruence.
  intros pids pid Ht Hpid. rewrite (B5 pids pid); [by apply (A5 pids)| congruence | done].
Qed.

Lemma untouched_set_buf t db f : untouched t db (set_buf f db).
Proof. by unfold untouched. Qed.
(** *** Hash indexes *)

Lemma hm_get_set (h : list (Value * list (string * nat))) k ls k' :
  hm_get (hm_set h k ls) k' = if decide (k = k') then Some ls else hm_get h k'.
Proof.
  induction h as [|[k0 l0] h IH]; simpl.
  - destruct (decide (k = k')); done.
  - destruct (decide (k0 = k)) as [->|Hne]; simpl.
    + destruct (decide (k = k')); done.
    + destruct (decide (k0 = k')) as [->|Hne'].
      * by rewrite decide_False.
      * done.
Qed.

Lemma hm_get_index_add (idx : list (Value * list (string * nat))) k loc k' :
  hm_get (index_add idx k loc) k' =
  if decide (k = k') then Some (default [] (hm_get idx k) ++ [loc]) else hm_get idx k'.
Proof.
  unfold index_add. destruct (hm_get idx k) as [ls|] eqn:E; rewrite hm_get_set;
    destruct (decide (k = k')); done.
Qed.

Lemma hm_has_index_add (idx : list (Value * list (string * nat))) k loc k' :
  hm_has (index_add idx k loc) k' = bool_decide (k = k') || hm_has idx k'.
Proof.
  unfold hm_has. rewrite hm_get_index_add. destruct (decide (k = k')).
  - by rewrite bool_decide_eq_true_2.
  - by rewrite bool_decide_eq_false_2.
Qed.

Lemma hm_has_set (h : list (Value * list (string * nat))) k ls k' :
  hm_has (hm_set h k ls) k' = bool_decide (k = k') || hm_has h k'.
Proof.
  unfold hm_has. rewrite hm_get_set. destruct (decide (k = k')).
  - by rewrite bool_decide_eq_true_2.
  - by rewrite bool_decide_eq_false_2.
Qed.

Lemma hm_keys_get (h : list (Value * list (string * nat))) k :
  k ∈ hm_keys h -> is_Some (hm_get h k).
Proof.
  unfold hm_keys. induction h as [|[k0 l0] h IH]; simpl.
  - by intros ?%elem_of_nil.
  - intros [->|Hin]%elem_of_cons.
    + rewrite decide_True by done. eauto.
    + destruct (decide (k0 = k)); eauto.
Qed.

Lemma hash_files_some c pid files (idx : list (Value * list (string * nat))) i db :
  foldM (hashRecord c pid) files (Some idx, i) db =
  (Ok (Some (index_page c pid files idx i), i + length files), db).
Proof.
  revert idx i. induction files as [|r files IH]; intros idx i; simpl.
  - unfold ret. do 2 f_equal. f_equal. lia.
  - mred. fold (@ret (option (list (Value * list (string * nat))) * nat)).
    rewrite IH. do 3 f_equal. lia.
Qed.

Lemma hash_files_none c pid files i db :
  foldM (hashRecord c pid) files (None, i) db =
  match files with
  | [] => (Ok (None, i), db)
  | _ :: _ => (Throw TypeError, db)
  end.
Proof. destruct files; reflexivity. Qed.

Lemma getPageContents_ok db pid p :
  pid ∈ _buf db -> pages db !! pid = Some p ->
  getPageContents pid db = (Ok (_files p), set_buf (lru_touch pid) db).
Proof.
  intros Hin Hp. unfold getPageContents. mred. by rewrite (cache_get_ok _ _ _ Hin Hp).
Qed.

(** a page of the table is read through the buffer *)
Lemma read_page db t pids pid p :
  _tables db !! t = Some pids -> pid ∈ pids -> pages db !! pid = Some p ->
  exists c, (ensurePage t pid ≫= fun _ => getPageContents pid) db =
            (Ok (_files p), set_buf (fun _ => c) db).
Proof.
  intros Ht Hpid Hp. destruct (ensurePage_ok _ _ _ _ Ht Hpid) as (c & E & Hc).
  rewrite (bind_ok _ _ _ _ _ E).
  rewrite (getPageContents_ok (set_buf (fun _ => c) db) pid p); [|done|done].
  by eexists.
Qed.
Lemma index_pages_set_buf c f db pids (idx : list (Value * list (string * nat))) :
  index_pages c (set_buf f db) pids idx = index_pages c db pids idx.
Proof. reflexivity. Qed.

Lemma hash_scan_some db t c pids0 pids (idx : list (Value * list (string * nat))) :
  _tables db !! t = Some pids0 ->
  (forall pid, pid ∈ pids -> pid ∈ pids0 /\ is_Some (pages db !! pid)) ->
  exists b, foldM (hashPage t c) pids (Some idx) db =
            (Ok (Some (index_pages c db pids idx)), set_buf (fun _ => b) db).
Proof.
  intros Ht. revert db idx Ht. induction pids as [|pid pids IH]; intros db idx Ht Hp.
  - exists (_buf db). simpl. unfold ret. by destruct db.
  - destruct (Hp pid) as [Hin [p Hpg]]; [apply list_elem_of_here|].
    destruct (read_page _ _ _ _ _ Ht Hin Hpg) as (b1 & E1).
    simpl.
    assert (E : hashPage t c (Some idx) pid db
                = (Ok (Some (index_page c pid (_files p) idx 0)), set_buf (fun _ => b1) db)).
    { unfold hashPage. revert E1. mred. destruct (ensurePage t pid db) as [[[]|e] db1]; [|done].
      intros ->. by rewrite hash_files_some. }
    rewrite (bind_ok _ _ _ _ _ E).
    destruct (IH (set_buf (fun _ => b1) db) (index_page c pid (_files p) idx 0)) as (b2 & E2).
    + done.
    + intros pid' Hpid'. apply Hp. by apply list_elem_of_further.
    + exists b2. cbn beta. rewrite E2. unfold index_pages. simpl.
      replace (filesOf db pid) with (_files p) by (unfold filesOf; by rewrite Hpg).
      reflexivity.
Qed.

Lemma hash_scan_none db t c pids0 pids :
  _tables db !! t = Some pids0 ->
  (forall pid, pid ∈ pids -> pid ∈ pids0 /\ is_Some (pages db !! pid)) ->
  exists b, foldM (hashPage t c) pids None db =
            (if forallb (fun pid => match filesOf db pid with [] => true | _ => false end) pids
             then Ok None else Throw TypeError, set_buf (fun _ => b) db).
Proof.
  intros Ht. revert db Ht. induction pids as [|pid pids IH]; intros db Ht Hp.
  - exists (_buf db). simpl. unfold ret. by destruct db.
  - destruct (Hp pid) as [Hin [p Hpg]]; [apply list_elem_of_here|].
    destruct (read_page _ _ _ _ _ Ht Hin Hpg) as (b1 & E1).
    simpl. unfold filesOf at 1. rewrite Hpg.
    assert (E : hashPage t c None pid db
                = (match _files p with [] => Ok None | _ => Throw TypeError end,
                   set_buf (fun _ => b1) db)).
    { unfold hashPage. revert E1. mred. destruct (ensurePage t pid db) as [[[]|e] db1]; [|done].
      intros ->. rewrite hash_files_none. by destruct (_files p). }
    destruct (_files p) as [|r rs]; simpl.
    + rewrite (bind_ok _ _ _ _ _ E).
      destruct (IH (set_buf (fun _ => b1) db)) as (b2 & E2); [done| |].
      * intros pid' Hpid'. apply Hp. by apply list_elem_of_further.
      * exists b2. cbn beta. by rewrite E2.
    + rewrite (bind_throw _ _ _ _ _ E). by exists b1.
Qed.
Lemma locs_ok_index_add db pids0 (idx : list (Value * list (string * nat))) k pid i p :
  locs_ok db pids0 idx -> pid ∈ pids0 -> pages db !! pid = Some p ->
  i < length (_files p) -> locs_ok db pids0 (index_add idx k (pid, i)).
Proof.
  intros Hok Hpid Hp Hi k' locs pid' i' Hget Hin.
  rewrite hm_get_index_add in Hget. destruct (decide (k = k')) as [<-|Hne].
  - injection Hget as <-. apply elem_of_app in Hin as [Hin|Hin].
    + destruct (hm_get idx k) as [ls|] eqn:E; [|by apply elem_of_nil in Hin].
      by apply (Hok k ls).
    + apply list_elem_of_singleton in Hin. injection Hin as -> ->. eauto.
  - by apply (Hok k' locs).
Qed.

Lemma locs_ok_index_page db pids0 c pid p files (idx : list (Value * list (string * nat))) i :
  locs_ok db pids0 idx -> pid ∈ pids0 -> pages db !! pid = Some p ->
  i + length files <= length (_files p) ->
  locs_ok db pids0 (index_page c pid files idx i).
Proof.
  revert idx i. induction files as [|r files IH]; intros idx i Hok Hpid Hp Hlen; [done|].
  simpl in *. apply IH; try done; [|lia].
  eapply locs_ok_index_add; eauto. lia.
Qed.

Lemma locs_ok_index_pages db pids0 c pids (idx : list (Value * list (string * nat))) :
  locs_ok db pids0 idx ->
  (forall pid, pid ∈ pids -> pid ∈ pids0 /\ is_Some (pages db !! pid)) ->
  locs_ok db pids0 (index_pages c db pids idx).
Proof.
  unfold index_pages. revert idx. induction pids as [|pid pids IH]; intros idx Hok Hp; [done|].
  simpl. apply IH.
  - destruct (Hp pid) as [Hin [p Hpg]]; [apply list_elem_of_here|].
    unfold filesOf. rewrite Hpg. eapply locs_ok_index_page; eauto.
  - intros pid' Hpid'. apply Hp. by apply list_elem_of_further.
Qed.

Lemma locs_ok_nil db pids0 : locs_ok db pids0 [].
Proof. intros k locs pid i Hget. done. Qed.

Lemma hm_has_index_page c pid files (idx : list (Value * list (string * nat))) i v :
  hm_has (index_page c pid files idx i) v =
  hm_has idx v || bool_decide (v ∈ map (fun r => rget r c) files).
Proof.
  revert idx i. induction files as [|r files IH]; intros idx i.
  - cbn [index_page map]. rewrite bool_decide_eq_false_2; [by rewrite orb_false_r|].
    by intros ?%elem_of_nil.
  - cbn [index_page map]. rewrite IH, hm_has_index_add.
    destruct (hm_has idx v); simpl; [by rewrite orb_true_r|].
    destruct (decide (rget r c = v)) as [E|E].
    + rewrite (bool_decide_eq_true_2 _ E). simpl. symmetry. apply bool_decide_eq_true_2.
      rewrite E. apply list_elem_of_here.
    + rewrite (bool_decide_eq_false_2 _ E). simpl. apply bool_decide_ext.
      rewrite elem_of_cons. split; [by right|intros [->|?]; done].
Qed.

Lemma hm_has_index_pages c db pids (idx : list (Value * list (string * nat))) v :
  hm_has (index_pages c db pids idx) v =
  hm_has idx v || bool_decide (v ∈ map (fun r => rget r c) (concat (map (filesOf db) pids))).
Proof.
  unfold index_pages. revert idx. induction pids as [|pid pids IH]; intros idx.
  - cbn [fold_left map concat]. rewrite bool_decide_eq_false_2; [by rewrite orb_false_r|].
    by intros ?%elem_of_nil.
  - cbn [fold_left map concat]. rewrite IH, hm_has_index_page. rewrite map_app. rewrite <- orb_assoc. f_equal.
    destruct (bool_decide (v ∈ map (fun r => rget r c) (filesOf db pid))) eqn:E1;
      destruct (bool_decide (v ∈ map (fun r => rget r c) (concat (map (filesOf db) pids)))) eqn:E2;
      simpl; symmetry.
    + apply bool_decide_eq_true_2. apply bool_decide_eq_true_1 in E1. apply elem_of_app; by left.
    + apply bool_decide_eq_true_2. apply bool_decide_eq_true_1 in E1. apply elem_of_app; by left.
    + apply bool_decide_eq_true_2. apply bool_decide_eq_true_1 in E2. apply elem_of_app; by right.
    + apply bool_decide_eq_false_2. apply bool_decide_eq_false_1 in E1, E2.
      by intros [?|?]%elem_of_app.
Qed.

Lemma table_pages_exist h db t pids :
  InvH h db -> _tables db !! t = Some pids ->
  forall pid, pid ∈ pids -> pid ∈ pids /\ is_Some (pages db !! pid).
Proof.
  intros [H1 _ _] Ht pid Hpid. split; [done|].
  destruct (H1 t pids Ht) as [_ _ K3 _ _ _].
  destruct (K3 pid Hpid) as (k & p & _ & _ & -> & _). eauto.
Qed.

Lemma table_has_hashes h db t pids :
  InvH h db -> _tables db !! t = Some pids ->
  exists reg, _tableHashes db !! t = Some reg.
Proof.
  intros [H1 _ _] Ht. destruct (H1 t pids Ht) as [_ _ _ _ _ (reg & ? & _)]. eauto.
Qed.

(** a fresh index over a table covers its records with valid locators *)
Lemma hashTable_new_run db t c pids reg :
  Inv db -> _tables db !! t = Some pids -> _tableHashes db !! t = Some reg ->
  exists b, hashTable t c true db =
    (Ok tt, set_tableHashes (<[t := <[c := Some (index_pages c db pids [])]> reg]>)
              (set_buf (fun _ => b) db)).
Proof.
  intros HI Ht Hreg. unfold hashTable.
  destruct (hash_scan_some db t c pids pids [] Ht (table_pages_exist _ _ _ _ HI Ht)) as (b & E).
  exists b. rewrite bind_run. unfold ret at 1. rewrite bind_run, gets_run, Ht.
  rewrite bind_run, defined_some. rewrite (bind_ok _ _ _ _ _ E).
  unfold setIndex. mred. by rewrite Hreg.
Qed.
Lemma index_only_refl t db : index_only t db db.
Proof. by unfold index_only. Qed.

Lemma index_only_set_buf t db f : index_only t db (set_buf f db).
Proof. by unfold index_only. Qed.

Lemma index_only_recordsOf t t' db db' :
  index_only t db db' -> recordsOf t' db' = recordsOf t' db.
Proof.
  intros (Ep & Et & _). unfold recordsOf, filesOf. by rewrite Ep, Et.
Qed.

Lemma index_only_untouched t t' db db' :
  index_only t db db' -> t' <> t -> untouched t' db db'.
Proof.
  intros (Ep & Et & Eq & Ec & Es & Eh) Hne. unfold untouched.
  rewrite Ep, Et, Eq, Ec, (Eh t' Hne). done.
Qed.

Lemma benign_ok {A} (a : A) : benign (Ok a).
Proof. by split. Qed.

Lemma benign_TypeError {A} : benign (@Throw A TypeError).
Proof. by split. Qed.

Global Hint Resolve benign_ok benign_TypeError index_only_refl index_only_set_buf
  untouched_refl untouched_set_buf : core.

Lemma index_pages_covers c db t pids (idx0 : list (Value * list (string * nat))) v :
  _tables db !! t = Some pids -> v ∈ map (fun r => rget r c) (recordsOf t db) ->
  hm_has (index_pages c db pids idx0) v = true.
Proof.
  intros Ht Hv. rewrite hm_has_index_pages. unfold recordsOf in Hv. rewrite Ht in Hv.
  rewrite (bool_decide_eq_true_2 _ Hv). apply orb_true_r.
Qed.

(** [hashTable] keeps the state well formed and touches nothing but the
    buffer and the indexes of its table; an index it leaves on the column
    covers every record of the table, and the other columns keep theirs *)
Lemma hashTable_spec db t c isNew :
  Inv db ->
  exists r db', hashTable t c isNew db = (r, db') /\ Inv db' /\ benign r /\
                index_only t db db' /\
                (forall idx', hasIndex db' t c idx' ->
                   forall v, v ∈ map (fun r => rget r c) (recordsOf t db) ->
                             hm_has idx' v = true) /\
                (forall c' idx', c' <> c -> hasIndex db' t c' idx' -> hasIndex db t c' idx').
Proof.
  intros HI. destruct (_tables db !! t) as [pids|] eqn:Ht.
  - destruct (table_has_hashes _ _ _ _ HI Ht) as (reg & Hreg).
    pose proof HI as [H1 _ _]. destruct (H1 t pids Ht) as [_ _ _ _ _ (reg' & Hreg' & Hlocs)].
    rewrite Hreg in Hreg'. injection Hreg' as <-.
    assert (Hset : forall b hashIndex,
      (forall idx, hashIndex = Some idx -> locs_ok db pids idx) ->
      (forall idx, hashIndex = Some idx -> exists idx0, idx = index_pages c db pids idx0) ->
      let db' := set_tableHashes (<[t := <[c := hashIndex]> reg]>) (set_buf (fun _ => b) db) in
      Inv db' /\ index_only t db db' /\
      (forall idx', hasIndex db' t c idx' ->
         forall v, v ∈ map (fun r => rget r c) (recordsOf t db) -> hm_has idx' v = true) /\
      (forall c' idx', c' <> c -> hasIndex db' t c' idx' -> hasIndex db t c' idx')).
    { intros b hashIndex Hh Hcov db'. split_and!.
      - eapply InvH_set_index; [by apply InvH_set_buf| done | done |].
        intros idx Hidx. specialize (Hh idx Hidx). done.
      - unfold index_only. simpl. split_and!; try done.
        intros t' Hne. by rewrite lookup_insert_ne.
      - intros idx' (reg' & Hr' & Hi') v Hv. simpl in Hr'. rewrite lookup_insert_eq in Hr'.
        injection Hr' as <-. rewrite lookup_insert_eq in Hi'. injection Hi' as ->.
        destruct (Hcov idx' eq_refl) as (idx0 & ->). by eapply index_pages_covers.
      - intros c' idx' Hne (reg' & Hr' & Hi'). simpl in Hr'. rewrite lookup_insert_eq in Hr'.
        injection Hr' as <-. rewrite lookup_insert_ne in Hi' by done. by exists reg. }
    destruct isNew.
    + destruct (hashTable_new_run _ _ c _ _ HI Ht Hreg) as (b & E).
      eexists _, _. split; [exact E|].
      destruct (Hset b (Some (index_pages c db pids []))) as (? & ? & ? & ?).
      * intros idx [= <-]. apply locs_ok_index_pages; [apply locs_ok_nil|].
        by eapply table_pages_exist.
      * intros idx [= <-]. by eexists.
      * split_and!; done.
    + unfold hashTable, getIndex. mred. rewrite Hreg. mred. rewrite Ht. mred.
      destruct (mjoin (reg !! c)) as [idx|] eqn:Ec.
      * assert (Hc : reg !! c = Some (Some idx)).
        { destruct (reg !! c) as [[?|]|]; simpl in Ec; congruence. }
        destruct (hash_scan_some db t c pids pids idx Ht (table_pages_exist _ _ _ _ HI Ht))
          as (b & E).
        rewrite E. unfold setIndex. mred. rewrite Hreg. mred.
        eexists _, _. split; [done|].
        destruct (Hset b (Some (index_pages c db pids idx))) as (? & ? & ? & ?).
        -- intros idx' [= <-]. apply locs_ok_index_pages; [by apply (Hlocs c)|].
           by eapply table_pages_exist.
        -- intros idx' [= <-]. by eexists.
        -- split_and!; done.
      * destruct (hash_scan_none db t c pids pids Ht (table_pages_exist _ _ _ _ HI Ht))
          as (b & E).
        rewrite E.
        destruct (forallb _ pids).
        -- unfold setIndex. mred. rewrite Hreg. mred.
           eexists _, _. split; [done|].
           destruct (Hset b None) as (? & ? & ? & ?); try done.
        -- eexists _, _. split; [done|]. split_and!; auto.
           ++ by apply InvH_set_buf.
           ++ intros idx' (reg' & Hr' & Hi'). simpl in Hr'. rewrite Hreg in Hr'.
              injection Hr' as <-. rewrite Hi' in Ec. done.
  - pose proof HI as [_ _ H3]. destruct (H3 t Ht) as (_ & _ & Hh).
    assert (Hno : forall c' idx', ~ hasIndex db t c' idx').
    { intros c' idx' (reg' & Hr' & _). congruence. }
    destruct isNew.
    + unfold hashTable. mred. rewrite Ht. mred. eexists _, _. split; [done|].
      split_and!; auto. intros idx' Hi. by apply Hno in Hi.
    + unfold hashTable, getIndex. mred. rewrite Hh. mred. eexists _, _. split; [done|].
      split_and!; auto. intros idx' Hi. by apply Hno in Hi.
Qed.
Lemma spacesLeftOf_ok db pid p :
  pages db !! pid = Some p -> spacesLeftOf (Some pid) db = (Ok (Page_spacesLeft p), db).
Proof. intros Hp. unfold spacesLeftOf. mred. by rewrite Hp. Qed.

Lemma queue_add_run db t e (q : list (string * nat)) :
  _tablePageSpaces db !! t = Some q ->
  queue_add t e db = (Ok tt, set_tablePageSpaces (<[t := q_add e q]>) db).
Proof. intros Hq. unfold queue_add. mred. by rewrite Hq. Qed.

Lemma InvH_queue_of h db t pids :
  InvH h db -> _tables db !! t = Some pids ->
  exists q, _tablePageSpaces db !! t = Some q.
Proof.
  intros [H1 _ _] Ht. destruct (H1 t pids Ht) as [_ _ _ (q & ? & _) _ _]. eauto.
Qed.

Lemma idIndex_run db t reg :
  _tableHashes db !! t = Some reg ->
  idIndex t db = (match mjoin (reg !! "_id") with
                  | Some idx => Ok idx
                  | None => Throw TypeError
                  end, db).
Proof.
  intros Hreg. unfold idIndex, getIndex. mred. rewrite Hreg. mred.
  by destruct (mjoin (reg !! "_id")).
Qed.

Lemma InvH_ext h db db' :
  InvH h db -> pages db' = pages db -> _tables db' = _tables db ->
  _tablePageSpaces db' = _tablePageSpaces db -> _tableCols db' = _tableCols db ->
  _tableHashes db' = _tableHashes db -> seed db' = seed db -> InvH h db'.
Proof.
  intros HI Ep Et Eq Ec Eh Es. apply (InvH_set_buf _ (fun _ => _buf db')) in HI.
  replace db' with (set_buf (fun _ => _buf db') db); [done|].
  destruct db, db'; simpl in *; by subst.
Qed.

Lemma idIndex_ok db t reg (idx : list (Value * list (string * nat))) :
  _tableHashes db !! t = Some reg -> reg !! "_id" = Some (Some idx) ->
  idIndex t db = (Ok idx, db).
Proof. intros Hreg Hidx. rewrite (idIndex_run db t reg Hreg). by rewrite Hidx. Qed.

(** a record whose [_id] the index does not know is stored, and its locator
    recorded *)
Lemma insertUnique_each_accepts db t pids reg (idx : list (Value * list (string * nat))) rec :
  Inv db -> _tables db !! t = Some pids -> _tableHashes db !! t = Some reg ->
  reg !! "_id" = Some (Some idx) -> hm_has idx (rget rec "_id") = false ->
  exists db' pid index,
    insertUnique_each t rec db = (Ok tt, db') /\ Inv db' /\
    _tableHashes db' !! t =
      Some (<["_id" := Some (hm_set idx (rget rec "_id") [(pid, index)])]> reg) /\
    filesOf db' pid !! index = Some rec /\
    (exists pids', _tables db' !! t = Some pids' /\ pid ∈ pids') /\
    recordsOf t db' ≡ₚ recordsOf t db ++ [rec] /\
    (forall t', t' <> t -> untouched t' db db').
Proof.
  intros HI Ht Hreg Hidx Hnew.
  destruct (getPageToInsert_spec db t pids HI Ht)
    as (pid & s & db1 & pids1 & p & E1 & HI1 & Ht1 & Hpid1 & Hp1 & Hs & Hs1 &
        Eb & Eh & Ec & Ese & Hrec1 & Hunt1).
  unfold insertUnique_each.
  rewrite (bind_ok _ _ _ _ _ (idIndex_ok db t reg idx Hreg Hidx)).
  rewrite Hnew. rewrite (bind_ok _ _ _ _ _ E1). cbn [fst].
  rewrite (bind_ok _ _ _ _ _ (tableGet_ok _ _ _ _ Ht1 Hpid1)).
  destruct (make_resident db1 pid) as (c & E2 & Hc).
  assert (E2' : (hasPage pid ≫= (fun b =>
            when (negb b) (addPage (Some pid)) ≫= fun _ =>
            buf_insertRecord pid rec ≫= fun index =>
            spacesLeftOf (Some pid) ≫= fun sl =>
            queue_add t (pid, sl) ≫= fun _ =>
            idIndex t ≫= fun hashIndex =>
            setIndex t "_id" (Some (hm_set hashIndex (rget rec "_id") [(pid, index)])))) db1 =
          (buf_insertRecord pid rec ≫= fun index =>
            spacesLeftOf (Some pid) ≫= fun sl =>
            queue_add t (pid, sl) ≫= fun _ =>
            idIndex t ≫= fun hashIndex =>
            setIndex t "_id" (Some (hm_set hashIndex (rget rec "_id") [(pid, index)])))
            (set_buf (fun _ => c) db1)).
  { revert E2. unfold hasPage. mred. destruct (bool_decide (pid ∈ _buf db1)); simpl.
    - by intros [= <-].
    - unfold addPage. mred. by intros [= <-]. }
  rewrite E2'. clear E2 E2'.
  assert (Hlen : length (_files p) < maxNoOfRecsPerFile).
  { unfold Page_spacesLeft in Hs. lia. }
  set (db2 := set_buf (fun _ => c) db1).
  assert (HI2 : InvH (Some (t, pid)) db2) by by apply InvH_set_buf.
  rewrite (bind_ok _ _ _ _ _ (buf_insertRecord_ok db2 pid p rec Hc Hp1 Hlen)).
  set (db3 := set_pages _ _).
  assert (HI3 : InvH (Some (t, pid)) db3).
  { pose proof (InvH_insert_record db2 t pids1 pid p rec HI2 Ht1 Hpid1 Hp1 Hlen) as K.
    by apply (InvH_ext _ _ db3) in K. }
  assert (Hp3 : pages db3 !! pid = Some (mkPage (_files p ++ [rec]))).
  { unfold db3. simpl. by rewrite lookup_insert_eq. }
  rewrite (bind_ok _ _ _ _ _ (spacesLeftOf_ok db3 pid _ Hp3)).
  destruct (InvH_queue_of _ db3 t pids1 HI3 Ht1) as (q3 & Hq3).
  rewrite (bind_ok _ _ _ _ _ (queue_add_run db3 t _ q3 Hq3)).
  set (db4 := set_tablePageSpaces _ db3).
  assert (HI4 : Inv db4) by by apply (InvH_queue_add db3 t pid _ q3 HI3 Hq3 Hp3).
  assert (Hreg4 : _tableHashes db4 !! t = Some reg) by (simpl; by rewrite Eh).
  rewrite (bind_ok _ _ _ _ _ (idIndex_ok db4 t reg idx Hreg4 Hidx)).
  unfold setIndex. mred. rewrite Hreg4. mred.
  eexists _, pid, (length (_files p)). split; [done|]. split_and!.
  - eapply (InvH_set_index _ db4 t pids1 reg); try done.
    intros idx' [= <-] k locs pid' i Hget Hin. rewrite hm_get_set in Hget.
    destruct (decide (rget rec "_id" = k)) as [<-|Hne].
    + injection Hget as <-. apply list_elem_of_singleton in Hin. injection Hin as -> ->.
      split; [done|]. eexists. split; [exact Hp3|]. simpl. rewrite length_app. simpl. lia.
    + destruct HI4 as [H1 _ _]. destruct (H1 t pids1 Ht1) as [_ _ _ _ _ (reg' & Hreg' & Hl)].
      rewrite Hreg4 in Hreg'. injection Hreg' as <-. by apply (Hl "_id" idx Hidx k locs).
  - simpl. by rewrite lookup_insert_eq.
  - unfold filesOf. simpl. rewrite lookup_insert_eq. simpl.
    rewrite lookup_app_r by lia. by rewrite Nat.sub_diag.
  - exists pids1. done.
  - rewrite <- (Hrec1 t).
    pose proof (recordsOf_insert _ db1 t pids1 pid p rec HI1 Ht1 Hpid1 Hp1) as K. exact K.
  - intros t' Hne. eapply untouched_trans; [by apply Hunt1|].
    pose proof (untouched_insert _ db1 t pids1 pid (mkPage (_files p ++ [rec])) t' HI1 Ht1 Hpid1 Hne)
      as (A1 & A2 & A3 & A4 & A5).
    unfold untouched. simpl in *. rewrite lookup_insert_ne by done.
    rewrite lookup_insert_ne by done. split_and!; try done.
Qed.
(** *** Contracts *)

Lemma benign_throw {A B} e : benign (@Throw A e) -> benign (@Throw B e).
Proof. intros [H1 H2]. split; intros [= ->]; [apply H1|apply H2]; done. Qed.

Section Contracts.
Context (P : DB -> Prop) (R : DB -> DB -> Prop).
Context `{!PreOrder R}.

Lemma contract_ret {A} (a : A) : contract P R (ret a).
Proof. intros db HP. simpl. split_and!; [done|reflexivity|apply benign_ok]. Qed.

Lemma contract_throw {A} e : benign (@Throw A e) -> contract P R (@throw A e).
Proof. intros He db HP. simpl. split_and!; [done|reflexivity|done]. Qed.

Lemma contract_gets {A} (f : DB -> A) : contract P R (gets f).
Proof. intros db HP. simpl. split_and!; [done|reflexivity|apply benign_ok]. Qed.

Lemma contract_defined {A} (o : option A) : contract P R (defined o).
Proof.
  destruct o; [apply contract_ret|]. apply contract_throw, benign_TypeError.
Qed.

Lemma contract_bind {A B} (m : M A) (k : A -> M B) :
  contract P R m -> (forall a, contract P R (k a)) -> contract P R (m ≫= k).
Proof.
  intros Hm Hk db HP. rewrite bind_run. destruct (Hm db HP) as (HP1 & HR1 & Hb1).
  destruct (m db) as [[a|e] db1]; simpl in *.
  - destruct (Hk a db1 HP1) as (HP2 & HR2 & Hb2). split_and!; try done.
    by transitivity db1.
  - split_and!; try done. by eapply benign_throw.
Qed.

Lemma contract_foldM {S A} (f : S -> A -> M S) (l : list A) (s : S) :
  (forall s x, x ∈ l -> contract P R (f s x)) -> contract P R (foldM f l s).
Proof.
  revert s. induction l as [|x l IH]; intros s Hf; simpl.
  - apply contract_ret.
  - apply contract_bind.
    + apply Hf. apply list_elem_of_here.
    + intros s'. apply IH. intros s'' y Hy. apply Hf. by apply list_elem_of_further.
Qed.

Lemma contract_forM_ {A} (l : list A) (f : A -> M unit) :
  (forall x, x ∈ l -> contract P R (f x)) -> contract P R (forM_ l f).
Proof. intros Hf. apply contract_foldM. intros _ x Hx. by apply Hf. Qed.

Lemma contract_when (b : bool) (m : M unit) :
  contract P R m -> contract P R (when b m).
Proof. destruct b; [done|]. intros _. apply contract_ret. Qed.

Lemma contract_if {A} (b : bool) (m1 m2 : M A) :
  contract P R m1 -> contract P R m2 -> contract P R (if b then m1 else m2).
Proof. by destruct b. Qed.
End Contracts.

Lemma contract_weaken (P : DB -> Prop) (R R' : DB -> DB -> Prop) {A} (m : M A) :
  (forall db db', P db -> R db db' -> R' db db') -> contract P R m -> contract P R' m.
Proof.
  intros HR Hm db HP. destruct (Hm db HP) as (? & ? & ?). split_and!; auto.
Qed.

Global Instance untouched_preorder t : PreOrder (untouched t).
Proof. split; [intros db; apply untouched_refl|intros ???; apply untouched_trans]. Qed.

Global Instance extends_preorder t : PreOrder (extends t).
Proof.
  split.
  - intros db. unfold extends. split_and!; auto.
  - intros db1 db2 db3 (A1 & A2 & A3) (B1 & B2 & B3). unfold extends. split_and!.
    + intros t' Hne. eapply untouched_trans; [by apply A1|by apply B1].
    + auto.
    + lia.
Qed.

Global Instance keeps_preorder t : PreOrder (keeps t).
Proof.
  split.
  - intros db. unfold keeps. split_and!; auto.
  - intros db1 db2 db3 (A2 & A3) (B2 & B3). unfold keeps. split_and!; [auto|lia].
Qed.

Global Instance buf_only_preorder : PreOrder buf_only.
Proof.
  split.
  - intros db. by unfold buf_only.
  - intros db1 db2 db3 (A1 & A2 & A3 & A4 & A5 & A6) (B1 & B2 & B3 & B4 & B5 & B6).
    unfold buf_only. split_and!; congruence.
Qed.

Global Instance index_only_preorder t : PreOrder (index_only t).
Proof.
  split.
  - intros db. apply index_only_refl.
  - intros db1 db2 db3 (A1 & A2 & A3 & A4 & A5 & A6) (B1 & B2 & B3 & B4 & B5 & B6).
    unfold index_only. split_and!; try congruence.
    intros t' Hne. rewrite B6, A6; done.
Qed.

Lemma buf_only_index_only t db db' : buf_only db db' -> index_only t db db'.
Proof.
  intros (A1 & A2 & A3 & A4 & A5 & A6). unfold index_only. split_and!; try done.
  intros t' _. by rewrite A5.
Qed.

Lemma index_only_extends t db db' : index_only t db db' -> extends t db db'.
Proof.
  intros H. pose proof H as (A1 & A2 & A3 & A4 & A5 & A6). unfold extends. split_and!.
  - intros t' Hne. by eapply index_only_untouched.
  - by rewrite A2.
  - by rewrite (index_only_recordsOf _ _ _ _ H).
Qed.

Lemma untouched_keeps t db db' : untouched t db db' -> keeps t db db'.
Proof.
  intros H. pose proof H as (A1 & _). unfold keeps. rewrite A1.
  by rewrite (untouched_recordsOf _ _ _ H).
Qed.

Lemma extends_keeps t t0 db db' : extends t db db' -> keeps t0 db db'.
Proof.
  intros (A1 & A2 & A3). destruct (decide (t0 = t)) as [->|Hne]; [done|].
  by apply untouched_keeps, A1.
Qed.

Lemma index_only_keeps t t0 db db' : index_only t db db' -> keeps t0 db db'.
Proof.
  intros H. pose proof H as (A1 & A2 & _). unfold keeps. rewrite A2.
  by rewrite (index_only_recordsOf _ _ _ _ H).
Qed.

Lemma buf_only_set_buf db f : buf_only db (set_buf f db).
Proof. by unfold buf_only. Qed.

Lemma Inv_buf_only h db db' : InvH h db -> buf_only db db' -> InvH h db'.
Proof. intros HI (A1 & A2 & A3 & A4 & A5 & A6). by eapply InvH_ext. Qed.
(** *** The buffer and the scans *)

Tactic Notation "capply" uconstr(lem) := apply lem; try exact _.

Section Reads.
Context (P : DB -> Prop) (R : DB -> DB -> Prop).
Context `{!PreOrder R}.
Hypothesis P_buf : forall db db', P db -> buf_only db db' -> P db'.
Hypothesis R_buf : forall db db', buf_only db db' -> R db db'.

Lemma contract_hasPage pid : contract P R (hasPage pid).
Proof. capply contract_gets. Qed.

Lemma contract_addPage page : contract P R (addPage page).
Proof.
  destruct page as [pid|]; unfold addPage.
  - intros db HP. simpl. split_and!; [|apply R_buf|apply benign_ok].
    + eapply P_buf; [done|]. apply buf_only_set_buf.
    + apply buf_only_set_buf.
  - capply contract_throw; apply benign_TypeError.
Qed.

Lemma contract_cache_get pid : contract P R (cache_get pid).
Proof.
  intros db HP. unfold cache_get. case_bool_decide; [|simpl; split_and!; auto; reflexivity].
  destruct (pages db !! pid); simpl; [|split_and!; auto; reflexivity].
  split_and!; [|apply R_buf|apply benign_ok].
  - eapply P_buf; [done|]. apply buf_only_set_buf.
  - apply buf_only_set_buf.
Qed.

Lemma contract_getPageContents pid : contract P R (getPageContents pid).
Proof.
  unfold getPageContents. capply contract_bind; [capply contract_cache_get|].
  intros p. capply contract_ret.
Qed.

Lemma contract_getPageRecord pid index : contract P R (getPageRecord pid index).
Proof.
  unfold getPageRecord. capply contract_bind; [capply contract_cache_get|].
  intros p. destruct (_files p !! index); [capply contract_ret|].
  capply contract_throw. by split.
Qed.

Lemma contract_tableGet t pid : contract P R (tableGet t pid).
Proof.
  unfold tableGet. capply contract_bind; [capply contract_gets|]. intros table.
  capply contract_bind; [capply contract_defined|]. intros pids. capply contract_ret.
Qed.

Lemma contract_ensurePage t pid : contract P R (ensurePage t pid).
Proof.
  unfold ensurePage. capply contract_bind; [capply contract_hasPage|]. intros b.
  destruct b; [capply contract_ret|].
  capply contract_bind; [capply contract_tableGet|]. intros page. capply contract_addPage.
Qed.

Lemma contract_getAllRecords {S} t (f : S -> list (string * Value) -> M S) s :
  (forall s r, contract P R (f s r)) -> contract P R (getAllRecords t f s).
Proof.
  intros Hf. unfold getAllRecords.
  capply contract_bind; [capply contract_gets|]. intros table.
  capply contract_bind; [capply contract_defined|]. intros pids.
  capply contract_foldM. intros s' pid _.
  capply contract_bind; [capply contract_ensurePage|]. intros _.
  capply contract_bind; [capply contract_getPageContents|]. intros files.
  capply contract_foldM. intros s'' r _. apply Hf.
Qed.

Lemma contract_filterRecords {S} t g (f : S -> list (string * Value) -> M S) s :
  (forall s r, contract P R (f s r)) -> contract P R (filterRecords t g f s).
Proof.
  intros Hf. unfold filterRecords. capply contract_getAllRecords.
  intros s' r. destruct (g r); [apply Hf|capply contract_ret].
Qed.

Lemma contract_isTableHashed t c : contract P R (isTableHashed t c).
Proof.
  unfold isTableHashed. capply contract_bind; [capply contract_gets|]. intros h.
  capply contract_bind; [capply contract_defined|]. intros reg. capply contract_ret.
Qed.

Lemma contract_getIndex t c : contract P R (getIndex t c).
Proof.
  unfold getIndex. capply contract_bind; [capply contract_gets|]. intros h.
  capply contract_bind; [capply contract_defined|]. intros reg. capply contract_ret.
Qed.

Lemma contract_hasValue t c v : contract P R (hasValue t c v).
Proof.
  unfold hasValue. capply contract_bind; [capply contract_isTableHashed|]. intros h.
  destruct (negb h); [capply contract_throw; by split|].
  capply contract_bind; [capply contract_getIndex|]. intros hi.
  capply contract_bind; [capply contract_defined|]. intros idx. capply contract_ret.
Qed.

Lemma contract_getTableKeys t : contract P R (getTableKeys t).
Proof.
  unfold getTableKeys. capply contract_bind; [capply contract_gets|]. intros c.
  capply contract_defined.
Qed.

Lemma contract_getNumberOfEntries t : contract P R (getNumberOfEntries t).
Proof.
  unfold getNumberOfEntries. capply contract_bind; [capply contract_gets|]. intros c.
  capply contract_bind; [capply contract_defined|]. intros pids.
  capply contract_bind; [capply contract_gets|]. intros q.
  capply contract_bind; [capply contract_defined|]. intros q'. capply contract_ret.
Qed.
End Reads.
(** *** [insertUniqueRecordsById] *)

Global Instance ext_unique_preorder t : PreOrder (ext_unique t).
Proof.
  split.
  - intros db. split; [reflexivity|done].
  - intros db1 db2 db3 [A1 A2] [B1 B2]. split; [by transitivity db2|auto].
Qed.

Lemma uniqueById_accept db db' t reg (idx : list (Value * list (string * nat))) rec locs :
  _tableHashes db !! t = Some reg -> reg !! "_id" = Some (Some idx) ->
  hm_has idx (rget rec "_id") = false ->
  recordsOf t db' ≡ₚ recordsOf t db ++ [rec] ->
  _tableHashes db' !! t = Some (<["_id" := Some (hm_set idx (rget rec "_id") locs)]> reg) ->
  uniqueById t db -> uniqueById t db'.
Proof.
  intros Hreg Hidx Hnew Hperm Hreg' [Hnd Hcov].
  assert (Hids : idsOf t db' ≡ₚ idsOf t db ++ [rget rec "_id"]).
  { unfold idsOf. rewrite Hperm. by rewrite map_app. }
  assert (Hcov0 : forall v, v ∈ idsOf t db -> hm_has idx v = true).
  { apply Hcov. by exists reg. }
  split.
  - rewrite Hids. apply NoDup_app. split_and!; [done| |apply NoDup_singleton].
    intros v Hv ->%list_elem_of_singleton. rewrite (Hcov0 _ Hv) in Hnew. done.
  - intros idx' (reg' & Hr' & Hi') v Hv. rewrite Hreg' in Hr'. injection Hr' as <-.
    rewrite lookup_insert_eq in Hi'. injection Hi' as <-.
    rewrite hm_has_set. rewrite Hids in Hv.
    apply elem_of_app in Hv as [Hv| ->%list_elem_of_singleton].
    + rewrite (Hcov0 _ Hv). apply orb_true_r.
    + by rewrite bool_decide_eq_true_2.
Qed.

Lemma insertUnique_each_contract t rec :
  contract Inv (ext_unique t) (insertUnique_each t rec).
Proof.
  intros db HI. destruct (_tables db !! t) as [pids|] eqn:Ht.
  - destruct (table_has_hashes _ _ _ _ HI Ht) as (reg & Hreg).
    destruct (reg !! "_id") as [[idx|]|] eqn:Hidx.
    + destruct (hm_has idx (rget rec "_id")) eqn:Hhas.
      * unfold insertUnique_each.
        rewrite (bind_ok _ _ _ _ _ (idIndex_ok db t reg idx Hreg Hidx)). rewrite Hhas.
        simpl. split_and!; [done|reflexivity|apply benign_ok].
      * destruct (insertUnique_each_accepts db t pids reg idx rec HI Ht Hreg Hidx Hhas)
          as (db' & pid & index & E & HI' & Hreg' & Hf & (pids' & Ht' & Hpid') & Hperm & Hunt).
        rewrite E. simpl. split_and!; [done| |apply benign_ok]. split.
        -- unfold extends. split_and!; [done|by rewrite Ht'|].
           rewrite Hperm, length_app. lia.
        -- by eapply uniqueById_accept.
    + unfold insertUnique_each. rewrite bind_run, (idIndex_run db t reg Hreg), Hidx. simpl.
      split_and!; [done|reflexivity|apply benign_TypeError].
    + unfold insertUnique_each. rewrite bind_run, (idIndex_run db t reg Hreg), Hidx. simpl.
      split_and!; [done|reflexivity|apply benign_TypeError].
  - pose proof HI as [_ _ H3]. destruct (H3 t Ht) as (_ & _ & Hh).
    unfold insertUnique_each, idIndex, getIndex. mred. rewrite Hh. simpl.
    split_and!; [done|reflexivity|apply benign_TypeError].
Qed.

Lemma uniqueById_index_pages db db' t pids reg c (idx0 : list (Value * list (string * nat))) b :
  _tables db !! t = Some pids -> _tableHashes db !! t = Some reg ->
  db' = set_tableHashes (<[t := <[c := Some (index_pages c db pids idx0)]> reg]>)
          (set_buf (fun _ => b) db) ->
  (c = "_id" -> forall v, v ∈ idsOf t db -> hm_has (index_pages c db pids idx0) v = true) ->
  uniqueById t db -> uniqueById t db'.
Proof.
  intros Ht Hreg -> Hc [Hnd Hcov]. split; [done|].
  intros idx' (reg' & Hr' & Hi') v Hv. simpl in Hr'. rewrite lookup_insert_eq in Hr'.
  injection Hr' as <-. destruct (decide (c = "_id")) as [->|Hne].
  - rewrite lookup_insert_eq in Hi'. injection Hi' as <-. by apply Hc.
  - rewrite lookup_insert_ne in Hi' by done. apply Hcov; [|done]. by exists reg.
Qed.


(** [insertUniqueRecordsById] keeps the ids of its table pairwise distinct *)
Lemma insertUniqueRecordsById_contract t recs :
  contract Inv (ext_unique t) (insertUniqueRecordsById t recs).
Proof.
  unfold insertUniqueRecordsById.
  assert (Hbuf : forall db db', buf_only db db' -> ext_unique t db db').
  { intros db db' Hb. pose proof (buf_only_index_only t _ _ Hb) as Hi. split.
    - by apply index_only_extends.
    - destruct Hb as (A1 & A2 & A3 & A4 & A5 & A6). unfold uniqueById, idsOf, hasIndex.
      rewrite (index_only_recordsOf _ _ _ _ Hi), A5. done. }
  capply contract_bind.
  { capply contract_isTableHashed; eauto using Inv_buf_only. }
  intros hashed. capply contract_bind.
  { destruct hashed; [capply contract_ret|]. simpl.
    intros db HI. destruct (_tables db !! t) as [pids|] eqn:Ht.
    - destruct (table_has_hashes _ _ _ _ HI Ht) as (reg & Hreg).
      destruct (hashTable_spec db t "_id" true HI) as (r & db' & E & HI' & Hb & Hio & _ & _).
      destruct (hashTable_new_run db t "_id" pids reg HI Ht Hreg) as (b & E').
      rewrite E in E'. injection E' as -> ->. rewrite E. simpl.
      split_and!; [done| |done]. split; [by apply index_only_extends|].
      eapply uniqueById_index_pages; [done|done|done|].
      intros _ v Hv. by eapply index_pages_covers.
    - unfold hashTable. mred. rewrite Ht. simpl.
      split_and!; [done|reflexivity|apply benign_TypeError]. }
  intros _. capply contract_bind.
  { capply contract_getIndex; eauto using Inv_buf_only. }
  intros _. capply contract_forM_. intros rec _. apply insertUnique_each_contract.
Qed.
(** *** [insertRecords] *)

Lemma InvH_seed h db : InvH h db -> InvH h (set_seed S db).
Proof.
  intros [H1 H2 H3]. constructor; simpl; try done.
  intros t pids Ht. eapply table_ok_frame; [by apply H1|..]; simpl; try done. lia.
Qed.

(** the [for] loop fills the page it was given, as far as the page has room *)
Lemma insertRecords_for_spec t pid n : forall recs db pids p,
  InvH (Some (t, pid)) db -> _tables db !! t = Some pids -> pid ∈ pids ->
  pages db !! pid = Some p -> length (_files p) + n <= maxNoOfRecsPerFile ->
  pid ∈ _buf db ->
  exists rest db' p',
    insertRecords_for t pid n recs db = (Ok rest, db') /\
    InvH (Some (t, pid)) db' /\ pages db' !! pid = Some p' /\
    _tables db' = _tables db /\ _tablePageSpaces db' = _tablePageSpaces db /\
    _tableCols db' = _tableCols db /\ _tableHashes db' = _tableHashes db /\
    length rest = length recs - n /\
    length (recordsOf t db) <= length (recordsOf t db') /\
    (forall t', t' <> t -> untouched t' db db').
Proof.
  induction n as [|n IH]; intros recs db pids p HI Ht Hpid Hp Hlen Hbuf.
  - exists recs, db, p. destruct recs; simpl; split_and!; try done; lia.
  - destruct recs as [|r recs].
    { exists [], db, p. simpl. split_and!; done. }
    cbn [insertRecords_for].
    (* the record that gets stored, and the state once its id is drawn *)
    set (stored := if rhas r "_id" then r
                   else ("_id", VStr (t +:+ ":" +:+ nano (seed db))) :: r).
    set (db0 := if rhas r "_id" then db else set_seed S db).
    assert (E0 : (if rhas r "_id" then ret r
                  else nanoid ≫= fun id => ret (("_id", VStr (t +:+ ":" +:+ id)) :: r)) db
                 = (Ok stored, db0)).
    { unfold stored, db0. by destruct (rhas r "_id"). }
    assert (HI0 : InvH (Some (t, pid)) db0).
    { unfold db0. destruct (rhas r "_id"); [done|by apply InvH_seed]. }
    assert (Hf0 : pages db0 = pages db /\ _buf db0 = _buf db /\ _tables db0 = _tables db /\
                  _tablePageSpaces db0 = _tablePageSpaces db /\ _tableCols db0 = _tableCols db /\
                  _tableHashes db0 = _tableHashes db).
    { unfold db0. by destruct (rhas r "_id"). }
    destruct Hf0 as (F1 & F2 & F3 & F4 & F5 & F6).
    rewrite (bind_ok _ _ _ _ _ E0).
    assert (Hp0 : pages db0 !! pid = Some p) by by rewrite F1.
    assert (Ht0 : _tables db0 !! t = Some pids) by by rewrite F3.
    assert (Hb0 : pid ∈ _buf db0) by by rewrite F2.
    assert (Hl0 : length (_files p) < maxNoOfRecsPerFile) by lia.
    rewrite (bind_ok _ _ _ _ _ (buf_insertRecord_ok db0 pid p stored Hb0 Hp0 Hl0)).
    set (db1 := set_pages _ _).
    pose proof (InvH_insert_record db0 t pids pid p stored HI0 Ht0 Hpid Hp0 Hl0) as K.
    assert (HI1 : InvH (Some (t, pid)) db1) by by apply (InvH_ext _ _ db1) in K.
    destruct (IH recs db1 pids (mkPage (_files p ++ [stored]))) as
      (rest & db' & p' & E & HI' & Hp' & G1 & G2 & G3 & G4 & G5 & G6 & G7); try done.
    + unfold db1. simpl. by rewrite lookup_insert_eq.
    + simpl. rewrite length_app. simpl. lia.
    + unfold db1. simpl. apply lru_touch_in.
    + exists rest, db', p'. split; [done|].
      assert (D1 : _tables db1 = _tables db) by (unfold db1; simpl; congruence).
      assert (D2 : _tablePageSpaces db1 = _tablePageSpaces db) by (unfold db1; simpl; congruence).
      assert (D3 : _tableCols db1 = _tableCols db) by (unfold db1; simpl; congruence).
      assert (D4 : _tableHashes db1 = _tableHashes db) by (unfold db1; simpl; congruence).
      split_and!; try done; try congruence.
      * etransitivity; [|exact G6].
        pose proof (recordsOf_insert _ db0 t pids pid p stored HI0 Ht0 Hpid Hp0) as Hperm.
        assert (E1 : recordsOf t db1 = recordsOf t
                       (set_pages (<[pid := mkPage (_files p ++ [stored])]>) db0)) by done.
        assert (E2 : recordsOf t db0 = recordsOf t db).
        { unfold recordsOf, filesOf. by rewrite F1, F3. }
        rewrite E1, Hperm, length_app, E2. lia.
      * intros t' Hne. eapply untouched_trans; [|by apply G7].
        pose proof (untouched_insert _ db0 t pids pid (mkPage (_files p ++ [stored])) t'
                      HI0 Ht0 Hpid Hne) as (A1 & A2 & A3 & A4 & A5).
        unfold untouched. simpl in *. rewrite <- F1, <- F3, <- F4, <- F5, <- F6.
        split_and!; try done.
Qed.
Lemma make_resident_bind {B} db pid (k : M B) :
  (hasPage pid ≫= fun b => when (negb b) (addPage (Some pid)) ≫= fun _ => k) db =
  k (set_buf (fun c => if bool_decide (pid ∈ c) then c else lru_set pid c) db).
Proof.
  unfold hasPage, addPage. mred. case_bool_decide as Hb; simpl.
  - f_equal. destruct db; simpl in *. unfold set_buf. simpl.
    by rewrite bool_decide_eq_true_2.
  - f_equal. unfold set_buf. simpl. by rewrite bool_decide_eq_false_2.
Qed.

Lemma resident_after pid (c : list string) :
  pid ∈ (if bool_decide (pid ∈ c) then c else lru_set pid c).
Proof. case_bool_decide; [done|apply lru_set_in]. Qed.

Lemma insertRecords_while_spec t : forall fuel recs db,
  Inv db -> length recs <= fuel ->
  Inv (snd (insertRecords_while fuel t recs db)) /\
  extends t db (snd (insertRecords_while fuel t recs db)) /\
  benign (fst (insertRecords_while fuel t recs db)) /\
  (is_Some (_tables db !! t) -> fst (insertRecords_while fuel t recs db) = Ok tt).
Proof.
  induction fuel as [|fuel IH]; intros recs db HI Hfuel.
  { destruct recs; [|simpl in Hfuel; lia]. simpl. split_and!; auto. reflexivity. }
  destruct recs as [|r0 recs0]; [simpl; split_and!; auto; reflexivity|].
  set (recs := r0 :: recs0) in *.
  destruct (_tables db !! t) as [pids|] eqn:Ht.
  - destruct (getPageToInsert_spec db t pids HI Ht)
      as (pid & s & db1 & pids1 & p & E1 & HI1 & Ht1 & Hpid1 & Hp1 & Hs & Hs1 &
          Eb & Eh & Ec & Ese & Hrec1 & Hunt1).
    set (db2 := set_buf (fun c => if bool_decide (pid ∈ c) then c else lru_set pid c) db1).
    assert (HI2 : InvH (Some (t, pid)) db2) by by apply InvH_set_buf.
    assert (Hlen : length (_files p) + s <= maxNoOfRecsPerFile).
    { pose proof HI1 as [K1 _ _]. destruct (K1 t pids1 Ht1) as [_ _ K3 _ _ _].
      destruct (K3 pid Hpid1) as (k & p0 & _ & _ & Hp0 & Hl). rewrite Hp1 in Hp0.
      injection Hp0 as <-. unfold Page_spacesLeft in Hs. lia. }
    destruct (insertRecords_for_spec t pid s recs db2 pids1 p HI2 Ht1 Hpid1 Hp1 Hlen)
      as (rest & db3 & p3 & E3 & HI3 & Hp3 & G1 & G2 & G3 & G4 & G5 & G6 & G7).
    { unfold db2. simpl. apply resident_after. }
    assert (Ht3 : _tables db3 !! t = Some pids1) by (rewrite G1; done).
    destruct (InvH_queue_of _ db3 t pids1 HI3 Ht3) as (q3 & Hq3).
    set (db4 := set_tablePageSpaces (<[t := q_add (pid, Page_spacesLeft p3) q3]>) db3).
    assert (E : insertRecords_while (S fuel) t recs db = insertRecords_while fuel t rest db4).
    { unfold recs at 1. cbn [insertRecords_while].
      rewrite (bind_ok _ _ _ _ _ E1).
      rewrite (bind_ok _ _ _ _ _ (tableGet_ok _ _ _ _ Ht1 Hpid1)).
      rewrite make_resident_bind. fold db2. fold recs.
      rewrite (bind_ok _ _ _ _ _ E3).
      rewrite (bind_ok _ _ _ _ _ (spacesLeftOf_ok db3 pid p3 Hp3)).
      by rewrite (bind_ok _ _ _ _ _ (queue_add_run db3 t _ q3 Hq3)). }
    rewrite E.
    assert (HI4 : Inv db4) by by apply (InvH_queue_add db3 t pid _ q3 HI3 Hq3 Hp3).
    assert (Hrest : length rest <= fuel).
    { rewrite G5. unfold recs in *. simpl in *. lia. }
    destruct (IH rest db4 HI4 Hrest) as (J1 & J2 & J3 & J4).
    assert (Ht4 : _tables db4 !! t = Some pids1) by done.
    split_and!; try done.
    + transitivity db4; [|done]. unfold extends. split_and!.
      * intros t' Hne. eapply untouched_trans; [by apply Hunt1|].
        eapply untouched_trans; [apply (untouched_set_buf t' db1)|].
        eapply untouched_trans; [by apply G7|].
        unfold untouched, db4. simpl. rewrite lookup_insert_ne by done. done.
      * intros _. by rewrite Ht4.
      * assert (E4 : recordsOf t db4 = recordsOf t db3) by done.
        assert (E2 : recordsOf t db2 = recordsOf t db1) by done.
        rewrite E4, <- (Hrec1 t), <- E2. done.
    + intros _. apply J4. by rewrite Ht4.
  - pose proof HI as [_ _ H3]. destruct (H3 t Ht) as (Hq & _ & _).
    assert (E : insertRecords_while (S fuel) t recs db = (Throw TypeError, db)).
    { unfold recs. cbn [insertRecords_while]. unfold _getPageToInsert. mred. by rewrite Hq. }
    rewrite E. simpl. split_and!; auto; [reflexivity|]. by intros [? ?].
Qed.

Lemma insertRecords_contract t recs : contract Inv (extends t) (insertRecords t recs).
Proof.
  intros db HI. unfold insertRecords.
  destruct (insertRecords_while_spec t (length recs) recs db HI) as (? & ? & ? & ?); done.
Qed.

Lemma insertRecords_ok t recs db :
  Inv db -> is_Some (_tables db !! t) -> fst (insertRecords t recs db) = Ok tt.
Proof.
  intros HI Ht. unfold insertRecords.
  destruct (insertRecords_while_spec t (length recs) recs db HI) as (? & ? & ? & ?); auto.
Qed.
(** *** [clearTable], [drop] and [addTable] *)

Lemma clearedPages_lookup pids (pg : gmap string Page) pid :
  clearedPages pids pg !! pid = if decide (pid ∈ pids) then Some (mkPage []) else pg !! pid.
Proof.
  unfold clearedPages. revert pg. induction pids as [|x pids IH]; intros pg; cbn [fold_left].
  - rewrite decide_False; [done|]. by intros ?%elem_of_nil.
  - rewrite IH. destruct (decide (pid ∈ pids)) as [Hin|Hni].
    + rewrite decide_True; [done|]. by apply list_elem_of_further.
    + destruct (decide (x = pid)) as [->|Hne].
      * rewrite lookup_insert_eq. rewrite decide_True; [done|]. apply list_elem_of_here.
      * rewrite lookup_insert_ne by done. rewrite decide_False; [done|].
        intros [?|?]%elem_of_cons; congruence.
Qed.

Lemma clearPage_ok db pid p :
  pid ∈ _buf db -> pages db !! pid = Some p ->
  clearPage pid db = (Ok tt, set_pages (<[pid := mkPage []]>) (set_buf (lru_touch pid) db)).
Proof.
  intros Hin Hp. unfold clearPage. mred. by rewrite (cache_get_ok _ _ _ Hin Hp).
Qed.

Lemma clearTable_each_run acc pid db p :
  pages db !! pid = Some p ->
  exists c, clearTable_each acc pid db =
    (Ok (acc ++ [(pid, maxNoOfRecsPerFile)]),
     set_pages (<[pid := mkPage []]>) (set_buf (fun _ => c) db)).
Proof.
  intros Hpg. unfold clearTable_each. rewrite make_resident_bind.
  set (db1 := set_buf _ db).
  assert (Hr : pid ∈ _buf db1) by (unfold db1; simpl; apply resident_after).
  rewrite (bind_ok _ _ _ _ _ (clearPage_ok db1 pid p Hr Hpg)).
  set (db2 := set_pages _ _).
  assert (Hp2 : pages db2 !! pid = Some (mkPage [])).
  { unfold db2. simpl. by rewrite lookup_insert_eq. }
  rewrite (bind_ok _ _ _ _ _ (spacesLeftOf_ok db2 pid _ Hp2)).
  eexists. reflexivity.
Qed.

Lemma clear_loop pids : forall acc db,
  (forall pid, pid ∈ pids -> is_Some (pages db !! pid)) ->
  exists c, foldM clearTable_each pids acc db =
    (Ok (acc ++ map (fun pid => (pid, maxNoOfRecsPerFile)) pids),
     set_pages (clearedPages pids) (set_buf (fun _ => c) db)).
Proof.
  induction pids as [|pid pids IH]; intros acc db Hp.
  - exists (_buf db). simpl. rewrite app_nil_r. unfold ret. by destruct db.
  - destruct (Hp pid) as [p Hpg]; [apply list_elem_of_here|].
    destruct (clearTable_each_run acc pid db p Hpg) as (c1 & E1).
    cbn [foldM]. rewrite (bind_ok _ _ _ _ _ E1).
    destruct (IH (acc ++ [(pid, maxNoOfRecsPerFile)])
                 (set_pages (<[pid := mkPage []]>) (set_buf (fun _ => c1) db))) as (c & E).
    { intros pid' Hpid'. simpl. destruct (decide (pid = pid')) as [<-|Hne].
      - rewrite lookup_insert_eq. eauto.
      - rewrite lookup_insert_ne by done. apply Hp. by apply list_elem_of_further. }
    exists c. rewrite E. f_equal. rewrite <- app_assoc. f_equal.
Qed.
Lemma clearTable_run db t pids :
  Inv db -> _tables db !! t = Some pids ->
  exists c, clearTable t db = (Ok tt, clearedState t pids c db).
Proof.
  intros HI Ht. unfold clearTable. rewrite bind_run, gets_run, Ht. rewrite bind_run, defined_some.
  destruct (clear_loop pids [] db) as (c & E).
  { intros pid Hpid. by destruct (table_pages_exist _ _ _ _ HI Ht pid Hpid). }
  rewrite (bind_ok _ _ _ _ _ E).
  destruct (InvH_queue_of _ db t pids HI Ht) as (q & Hq).
  mred. rewrite Hq. mred. by exists c.
Qed.

Lemma Inv_cleared db t pids c :
  Inv db -> _tables db !! t = Some pids -> Inv (clearedState t pids c db).
Proof.
  intros HI Ht. pose proof HI as [H1 H2 H3]. constructor; simpl; try done.
  - intros t' pids' Ht'. destruct (decide (t = t')) as [<-|Hne].
    + rewrite Ht in Ht'. injection Ht' as <-.
      destruct (H1 t pids Ht) as [K1 K2 K3 K4 K5 K6]. constructor; simpl; try done.
      * intros pid Hpid. destruct (K3 pid Hpid) as (k & p & -> & Hk & _ & _).
        exists k, (mkPage []). rewrite clearedPages_lookup, decide_True by done.
        split_and!; try done. simpl. lia.
      * eexists. rewrite lookup_insert_eq. split; [done|]. split.
        -- rewrite q_heapify_perm. rewrite map_map. simpl. by rewrite map_id.
        -- assert (G : Forall (spaces_ok (clearedState t pids c db))
                          (map (fun pid => (pid, maxNoOfRecsPerFile)) pids)).
           { apply Forall_forall. intros e (pid & -> & Hpid)%list_elem_of_fmap.
             exists (mkPage []). simpl. rewrite clearedPages_lookup, decide_True by done.
             split; [done|]. unfold Page_spacesLeft. cbn [snd _files length]. lia. }
           revert G. generalize (map (fun pid : string => (pid, maxNoOfRecsPerFile)) pids).
           intros l Hl. unfold q_heapify.
           assert (G : forall acc, Forall (spaces_ok (clearedState t pids c db)) acc ->
                       Forall (spaces_ok (clearedState t pids c db))
                              (fold_left (fun q e => q_add e q) l acc)).
           { induction Hl as [|e l He Hl IH]; intros acc Hacc; simpl; [done|].
             apply IH. by apply Forall_q_add. }
           by apply G.
      * exists ∅. rewrite lookup_insert_eq. split; [done|]. intros c' idx Hc'.
        by rewrite lookup_empty in Hc'.
    + eapply table_ok_frame; [by apply H1|..]; simpl; try done.
      * intros pid Hpid. rewrite clearedPages_lookup, decide_False; [done|].
        intros Hin. apply Hne. by apply (H2 t t' pids pids' pid).
      * by rewrite lookup_insert_ne.
      * by rewrite lookup_insert_ne.
  - intros t' Ht'. destruct (H3 t' Ht') as (? & ? & ?).
    assert (t <> t') by congruence. rewrite !lookup_insert_ne by done. done.
Qed.

Lemma untouched_cleared db t pids c t' :
  Inv db -> _tables db !! t = Some pids -> t' <> t ->
  untouched t' db (clearedState t pids c db).
Proof.
  intros [_ H2 _] Ht Hne. unfold untouched. simpl. rewrite !lookup_insert_ne by done.
  split_and!; try done. intros pids' pid Ht' Hpid.
  rewrite clearedPages_lookup, decide_False; [done|].
  intros Hin. apply Hne. by apply (H2 t' t pids' pids pid).
Qed.

Lemma recordsOf_cleared db t pids c :
  _tables db !! t = Some pids -> recordsOf t (clearedState t pids c db) = [].
Proof.
  intros Ht. unfold recordsOf. simpl. rewrite Ht.
  assert (G : forall l, (forall pid, pid ∈ l -> pid ∈ pids) ->
    concat (map (filesOf (clearedState t pids c db)) l) = []).
  { induction l as [|pid l IH]; intros Hl; simpl; [done|].
    rewrite IH by (intros; apply Hl; by apply list_elem_of_further).
    unfold filesOf. simpl. rewrite clearedPages_lookup, decide_True; [done|].
    apply Hl, list_elem_of_here. }
  by apply G.
Qed.

Lemma clearTable_contract t : contract Inv (wiped t) (clearTable t).
Proof.
  intros db HI. destruct (_tables db !! t) as [pids|] eqn:Ht.
  - destruct (clearTable_run db t pids HI Ht) as (c & E). rewrite E. simpl.
    split_and!; [by apply Inv_cleared| |apply benign_ok]. split.
    + intros t' Hne. by apply untouched_cleared.
    + by apply recordsOf_cleared.
  - unfold clearTable. rewrite bind_run, gets_run, Ht. simpl.
    split_and!; [done| |apply benign_TypeError]. split; [auto|].
    unfold recordsOf. by rewrite Ht.
Qed.

Lemma clearTable_ok t db :
  Inv db -> is_Some (_tables db !! t) -> fst (clearTable t db) = Ok tt.
Proof.
  intros HI [pids Ht]. destruct (clearTable_run db t pids HI Ht) as (c & E). by rewrite E.
Qed.

Lemma Inv_dropped db t : Inv db -> Inv (droppedState t db).
Proof.
  intros [H1 H2 H3]. constructor; simpl.
  - intros t' pids' Ht'. apply lookup_delete_Some in Ht' as [Hne Ht'].
    eapply table_ok_frame; [by apply H1|..]; simpl; try done; by rewrite lookup_delete_ne.
  - intros t1 t2 pids1 pids2 pid [_ Ht1]%lookup_delete_Some [_ Ht2]%lookup_delete_Some.
    by apply H2.
  - intros t' Ht'. destruct (decide (t = t')) as [<-|Hne].
    + by rewrite !lookup_delete_eq.
    + rewrite lookup_delete_ne in Ht' by done. rewrite !lookup_delete_ne by done. by apply H3.
Qed.

Lemma drop_contract t : contract Inv (wiped t) (drop t).
Proof.
  intros db HI. unfold drop. rewrite bind_run, gets_run. cbn beta iota.
  destruct (_tables db !! t) as [pids|] eqn:Ht.
  - rewrite bool_decide_eq_true_2 by eauto.
    destruct (clearTable_run db t pids HI Ht) as (c & E). rewrite (bind_ok _ _ _ _ _ E).
    mred. change (Inv (droppedState t (clearedState t pids c db)) /\
                  wiped t db (droppedState t (clearedState t pids c db)) /\ benign (Ok ())).
    split_and!; [by apply Inv_dropped, Inv_cleared| |apply benign_ok]. split.
    + intros t' Hne. eapply untouched_trans; [by apply (untouched_cleared db t pids c)|].
      unfold untouched. simpl. rewrite !lookup_delete_ne by done. done.
    + unfold recordsOf. simpl. by rewrite lookup_delete_eq.
  - rewrite bool_decide_eq_false_2 by (by intros [? ?]). simpl.
    split_and!; [done| |apply benign_ok]. split; [auto|].
    unfold recordsOf. by rewrite Ht.
Qed.
Lemma addTable_run_new db t cols :
  _tables db !! t = None ->
  addTable t cols db = (Ok true, newPageState t [] [] (declaredState t cols db)).
Proof.
  intros Ht. unfold addTable. rewrite bind_run, gets_run. cbn beta iota.
  rewrite bool_decide_eq_false_2 by (rewrite Ht; by intros [? ?]).
  mred. change (set_tableCols _ _) with (declaredState t cols db).
  rewrite (addNewPage_run (declaredState t cols db) t [] []); [done| |];
    simpl; by rewrite lookup_insert_eq.
Qed.

Lemma addTable_run_known db t cols :
  is_Some (_tables db !! t) -> addTable t cols db = (Ok false, db).
Proof.
  intros Ht. unfold addTable. rewrite bind_run, gets_run. cbn beta iota.
  by rewrite bool_decide_eq_true_2.
Qed.

Lemma Inv_added db t cols :
  Inv db -> _tables db !! t = None -> Inv (newPageState t [] [] (declaredState t cols db)).
Proof.
  intros HI Ht. pose proof HI as [H1 H2 H3].
  assert (Hfresh : forall t' pids' pid, _tables db !! t' = Some pids' -> pid ∈ pids' ->
                                        pid <> nano (seed db)).
  { intros. eapply Inv_fresh; eauto. }
  constructor; simpl.
  - intros t' pids' Ht'. destruct (decide (t = t')) as [<-|Hne].
    + rewrite lookup_insert_eq in Ht'. injection Ht' as <-. constructor; simpl; try done.
      * apply NoDup_singleton.
      * intros pid ->%list_elem_of_singleton. exists (seed db), (mkPage []).
        rewrite lookup_insert_eq. simpl. split_and!; try done; lia.
      * eexists. rewrite lookup_insert_eq. split; [done|]. simpl. split; [done|].
        constructor; [|done]. exists (mkPage []). simpl. by rewrite lookup_insert_eq.
      * by rewrite lookup_insert_eq.
      * exists ∅. rewrite lookup_insert_eq. split; [done|]. intros c idx Hc.
        by rewrite lookup_empty in Hc.
    + rewrite lookup_insert_ne in Ht' by done. rewrite lookup_insert_ne in Ht' by done.
      eapply table_ok_frame; [by apply H1|..]; simpl; try done.
      * intros pid Hpid. rewrite lookup_insert_ne; [done|]. intros E.
        symmetry in E. revert E. by eapply Hfresh.
      * lia.
      * by rewrite !lookup_insert_ne.
      * by rewrite lookup_insert_ne.
      * by rewrite lookup_insert_ne.
  - intros t1 t2 pids1 pids2 pid Ht1 Ht2 Hp1 Hp2.
    destruct (decide (t = t1)) as [<-|Hn1]; destruct (decide (t = t2)) as [<-|Hn2]; try done.
    + rewrite lookup_insert_eq in Ht1. injection Ht1 as <-.
      rewrite !lookup_insert_ne in Ht2 by done.
      apply list_elem_of_singleton in Hp1 as ->. exfalso. by eapply Hfresh.
    + rewrite lookup_insert_eq in Ht2. injection Ht2 as <-.
      rewrite !lookup_insert_ne in Ht1 by done.
      apply list_elem_of_singleton in Hp2 as ->. exfalso. by eapply Hfresh.
    + rewrite !lookup_insert_ne in Ht1, Ht2 by done. by eapply H2.
  - intros t' Ht'. destruct (decide (t = t')) as [<-|Hne].
    + by rewrite lookup_insert_eq in Ht'.
    + rewrite !lookup_insert_ne in Ht' by done. rewrite !lookup_insert_ne by done.
      by apply H3.
Qed.

Lemma uniqueById_empty t db : recordsOf t db = [] -> uniqueById t db.
Proof.
  intros E. unfold uniqueById, idsOf. rewrite E. simpl. split; [apply NoDup_nil_2|].
  intros idx _ v Hv. by apply elem_of_nil in Hv.
Qed.

Lemma addTable_contract t cols : contract Inv (ext_unique t) (addTable t cols).
Proof.
  intros db HI. destruct (_tables db !! t) as [pids|] eqn:Ht.
  - rewrite addTable_run_known by (rewrite Ht; eauto). simpl.
    split_and!; [done|reflexivity|apply benign_ok].
  - rewrite (addTable_run_new _ _ _ Ht). simpl.
    split_and!; [by apply Inv_added| |apply benign_ok].
    assert (Hrec : recordsOf t (newPageState t [] [] (declaredState t cols db)) = []).
    { unfold recordsOf, filesOf. simpl. rewrite !lookup_insert_eq. simpl.
      by rewrite lookup_insert_eq. }
    split.
    + unfold extends. split_and!.
      * intros t' Hne. unfold untouched. simpl. rewrite !lookup_insert_ne by done.
        split_and!; try done. intros pids pid Ht' Hpid.
        rewrite lookup_insert_ne; [done|]. intros E. symmetry in E. revert E.
        by eapply Inv_fresh.
      * rewrite Ht. by intros [? ?].
      * unfold recordsOf at 1. rewrite Ht. simpl. lia.
    + intros _. by apply uniqueById_empty.
Qed.
(** *** Sequences of calls *)

Lemma Inv_empty : Inv emptyDB.
Proof.
  constructor; simpl; intros; try done.
Qed.

Lemma hashTable_contract t c isNew : contract Inv (index_only t) (hashTable t c isNew).
Proof.
  intros db HI. destruct (hashTable_spec db t c isNew HI) as (r & db' & E & ? & ? & ? & _).
  by rewrite E.
Qed.




Lemma runOp_Inv op db :
  Inv db -> Inv (snd (runOp op db)) /\ benign (fst (runOp op db)).
Proof.
  intros HI. destruct op as [t cols|t recs|t recs|t|t|t c isNew]; simpl.
  - assert (K : contract Inv (ext_unique t) (addTable t cols ≫= fun _ => ret tt)).
    { capply contract_bind; [apply addTable_contract|]. intros _. capply contract_ret. }
    by destruct (K db HI) as (? & ? & ?).
  - by destruct (insertRecords_contract t recs db HI) as (? & ? & ?).
  - by destruct (insertUniqueRecordsById_contract t recs db HI) as (? & ? & ?).
  - by destruct (clearTable_contract t db HI) as (? & ? & ?).
  - by destruct (drop_contract t db HI) as (? & ? & ?).
  - by destruct (hashTable_contract t c isNew db HI) as (? & ? & ?).
Qed.

Lemma after_app ops1 ops2 db : after (ops1 ++ ops2) db = after ops2 (after ops1 db).
Proof. unfold after. by rewrite fold_left_app. Qed.

Lemma after_Inv ops : forall db, Inv db -> Inv (after ops db).
Proof.
  induction ops as [|op ops IH]; intros db HI; [done|].
  simpl. apply IH. by apply runOp_Inv.
Qed.

Lemma hasIndex_table h db t c (idx : list (Value * list (string * nat))) :
  InvH h db -> hasIndex db t c idx -> exists pids, _tables db !! t = Some pids.
Proof.
  intros [_ _ H3] (reg & Hreg & _). destruct (_tables db !! t) as [pids|] eqn:Ht; [eauto|].
  destruct (H3 t Ht) as (_ & _ & ?). congruence.
Qed.



(** *** Computations that only read *)

Section Runs.
Context (db0 : DB).

Lemma runs_ret {A} (a : A) : runs db0 (ret a) (Ok a).
Proof. intros c. by exists c. Qed.

Lemma runs_throw {A} e : runs db0 (@throw A e) (Throw e).
Proof. intros c. by exists c. Qed.

Lemma runs_defined {A} (o : option A) :
  runs db0 (defined o) (match o with Some a => Ok a | None => Throw TypeError end).
Proof. destruct o; [apply runs_ret|apply runs_throw]. Qed.

Lemma runs_gets {A} (f : DB -> A) :
  (forall c, f (set_buf (fun _ => c) db0) = f db0) -> runs db0 (gets f) (Ok (f db0)).
Proof. intros Hf c. exists c. by rewrite gets_run, Hf. Qed.

Lemma runs_bind {A B} (m : M A) (k : A -> M B) a r :
  runs db0 m (Ok a) -> runs db0 (k a) r -> runs db0 (m ≫= k) r.
Proof.
  intros Hm Hk c. destruct (Hm c) as (c1 & E1). destruct (Hk c1) as (c2 & E2).
  exists c2. by rewrite (bind_ok _ _ _ _ _ E1).
Qed.

Lemma runs_bind_throw {A B} (m : M A) (k : A -> M B) e :
  runs db0 m (Throw e) -> runs db0 (m ≫= k) (Throw e).
Proof.
  intros Hm c. destruct (Hm c) as (c1 & E1). exists c1.
  by rewrite (bind_throw _ _ _ _ _ E1).
Qed.

Lemma runs_bind_res {A B} (m : M A) (k : A -> M B) (ra : Res A) (g : A -> Res B) :
  runs db0 m ra -> (forall a, ra = Ok a -> runs db0 (k a) (g a)) ->
  runs db0 (m ≫= k) (match ra with Ok a => g a | Throw e => Throw e end).
Proof.
  intros Hm Hk. destruct ra as [a|e].
  - eapply runs_bind; [done|by apply Hk].
  - by apply runs_bind_throw.
Qed.

Lemma runs_foldM {S A} (f : S -> A -> M S) (g : S -> A -> Res S) (l : list A) :
  (forall s x, x ∈ l -> runs db0 (f s x) (g s x)) ->
  forall s, runs db0 (foldM f l s) (foldR g l s).
Proof.
  induction l as [|x l IH]; intros Hf s; simpl.
  - apply runs_ret.
  - pose proof (Hf s x (list_elem_of_here _ _)) as Hx.
    destruct (g s x) as [s'|e].
    + eapply runs_bind; [done|]. apply IH. intros s'' y Hy. apply Hf.
      by apply list_elem_of_further.
    + by apply runs_bind_throw.
Qed.

Lemma runs_here {A} (m : M A) r db :
  runs db0 m r -> buf_only db0 db -> exists c', m db = (r, set_buf (fun _ => c') db0).
Proof.
  intros Hm (A1 & A2 & A3 & A4 & A5 & A6).
  replace db with (set_buf (fun _ => _buf db) db0); [apply Hm|].
  destruct db, db0; simpl in *; by subst.
Qed.

(** a record of a table is read through the buffer *)
Lemma runs_read t pids pid i r :
  _tables db0 !! t = Some pids -> pid ∈ pids -> filesOf db0 pid !! i = Some r ->
  runs db0 (ensurePage t pid ≫= fun _ => getPageRecord pid i) (Ok r).
Proof.
  intros Ht Hpid Hr c.
  assert (Hp : exists p, pages db0 !! pid = Some p /\ _files p !! i = Some r).
  { unfold filesOf in Hr. destruct (pages db0 !! pid) as [p|]; [eauto|done]. }
  destruct Hp as (p & Hp & Hi).
  destruct (ensurePage_ok t pid (set_buf (fun _ => c) db0) pids Ht Hpid) as (c1 & E1 & Hc1).
  rewrite (bind_ok _ _ _ _ _ E1). unfold getPageRecord.
  rewrite (bind_ok _ _ _ _ _ (cache_get_ok pid
    (set_buf (fun _ => c1) (set_buf (fun _ => c) db0)) p Hc1 Hp)). rewrite Hi.
  eexists. reflexivity.
Qed.

Lemma runs_isTableHashed t c reg :
  _tableHashes db0 !! t = Some reg ->
  runs db0 (isTableHashed t c) (Ok (bool_decide (is_Some (reg !! c)))).
Proof.
  intros Hreg b. exists b. unfold isTableHashed. mred. by rewrite Hreg.
Qed.

Lemma runs_getIndex t c reg :
  _tableHashes db0 !! t = Some reg ->
  runs db0 (getIndex t c) (Ok (mjoin (reg !! c))).
Proof.
  intros Hreg b. exists b. unfold getIndex. mred. by rewrite Hreg.
Qed.

Lemma runs_no_hashes {A} t (k : gmap string (option (list (Value * list (string * nat)))) -> M A) :
  _tableHashes db0 !! t = None ->
  runs db0 (gets (fun db => _tableHashes db !! t) ≫= fun h => defined h ≫= k)
    (Throw TypeError).
Proof. intros Hreg b. exists b. mred. by rewrite Hreg. Qed.
End Runs.

Lemma foldR_app {A} (h : A -> list (list (string * Value))) (l : list A) :
  forall s, foldR (fun acc x => Ok (acc ++ h x)) l s = Ok (s ++ flat_map h l).
Proof.
  induction l as [|x l IH]; intros s; simpl.
  - by rewrite app_nil_r.
  - by rewrite IH, app_assoc.
Qed.

(** the locators of a well-formed index point at records *)
Lemma locs_ok_recordAt db pids (idx : list (Value * list (string * nat))) k locs loc :
  locs_ok db pids idx -> hm_get idx k = Some locs -> loc ∈ locs ->
  fst loc ∈ pids /\ filesOf db (fst loc) !! snd loc = Some (recordAt db loc).
Proof.
  intros Hok Hget Hin. destruct loc as [pid i].
  destruct (Hok k locs pid i Hget Hin) as (Hpid & p & Hp & Hi). split; [done|].
  unfold recordAt, filesOf. simpl. rewrite Hp.
  destruct (lookup_lt_is_Some_2 (_files p) i Hi) as [r ->]. done.
Qed.

Lemma runs_materialize db0 t pids (idx : list (Value * list (string * nat))) k locs :
  _tables db0 !! t = Some pids -> locs_ok db0 pids idx -> hm_get idx k = Some locs ->
  runs db0 (materialize t locs) (Ok (map (recordAt db0) locs)).
Proof.
  intros Ht Hok Hget. unfold materialize.
  assert (K : runs db0
    (foldM (fun acc (loc : string * nat) => ensurePage t (fst loc) ≫= fun _ =>
       getPageRecord (fst loc) (snd loc) ≫= fun r => ret (acc ++ [r])) locs [])
    (foldR (fun acc loc => Ok (acc ++ [recordAt db0 loc])) locs [])).
  { apply runs_foldM. intros s loc Hloc.
    destruct (locs_ok_recordAt _ _ _ _ _ loc Hok Hget Hloc) as [Hpid Hr].
    intros c. destruct (runs_read db0 t pids (fst loc) (snd loc) _ Ht Hpid Hr c) as (c1 & E1).
    exists c1. revert E1. mred.
    destruct (ensurePage t loc.1 (set_buf (fun _ => c) db0)) as [[[]|e] db1]; [|done].
    destruct (getPageRecord loc.1 loc.2 db1) as [[r|e] db2]; [|done]. by intros [= -> ->]. }
  rewrite (foldR_app (fun loc => [recordAt db0 loc])) in K.
  replace (flat_map (fun loc => [recordAt db0 loc]) locs) with (map (recordAt db0) locs) in K;
    [done|].
  clear. induction locs as [|loc locs' IH]; simpl; [done|]. by rewrite IH.
Qed.

Lemma map_as_flat_map {A B} (h : A -> B) (l : list A) :
  flat_map (fun x => [h x]) l = map h l.
Proof. induction l as [|x l IH]; simpl; [done|]. by rewrite IH. Qed.

Lemma runs_fetch_all db0 t pids (idx : list (Value * list (string * nat))) k locs s :
  _tables db0 !! t = Some pids -> locs_ok db0 pids idx -> hm_get idx k = Some locs ->
  runs db0 (foldM (fetch t (fun acc r => ret (acc ++ [r]))) locs s)
       (Ok (s ++ map (recordAt db0) locs)).
Proof.
  intros Ht Hok Hget.
  rewrite <- map_as_flat_map, <- (foldR_app (fun loc => [recordAt db0 loc])).
  apply runs_foldM. intros s' loc Hloc.
  destruct (locs_ok_recordAt _ _ _ _ _ loc Hok Hget Hloc) as [Hpid Hr].
  intros c. destruct (runs_read db0 t pids (fst loc) (snd loc) _ Ht Hpid Hr c) as (c1 & E1).
  exists c1. revert E1. unfold fetch. mred.
  destruct (ensurePage t loc.1 (set_buf (fun _ => c) db0)) as [[[]|e] db1]; [|done].
  destruct (getPageRecord loc.1 loc.2 db1) as [[r|e] db2]; [|done]. by intros [= -> ->].
Qed.

Lemma hasIndex_locs_ok db t c (idx : list (Value * list (string * nat))) :
  Inv db -> hasIndex db t c idx ->
  exists pids, _tables db !! t = Some pids /\ locs_ok db pids idx.
Proof.
  intros HI Hidx. destruct (hasIndex_table _ _ _ _ _ HI Hidx) as (pids & Ht).
  exists pids. split; [done|]. destruct HI as [H1 _ _].
  destruct (H1 t pids Ht) as [_ _ _ _ _ (reg & Hreg & Hl)].
  destruct Hidx as (reg' & Hreg' & Hc). rewrite Hreg in Hreg'. injection Hreg' as <-.
  by apply (Hl c).
Qed.

Lemma runs_fst {A} db (m : M A) r : runs db m r -> fst (m db) = r.
Proof.
  intros Hm. destruct (runs_here db m r db Hm) as (c & E); [reflexivity|]. by rewrite E.
Qed.

Section HashLookupFacts.
Context `{JsBuiltins}.

Lemma getRecsFromHash_runs db t c (idx : list (Value * list (string * nat))) op rhs :
  Inv db -> hasIndex db t c idx ->
  runs db (collect (getRecsFromHash t c op rhs)) (lookupResult db idx op rhs).
Proof.
  intros HI Hidx. destruct (hasIndex_locs_ok _ _ _ _ HI Hidx) as (pids & Ht & Hok).
  destruct Hidx as (reg & Hreg & Hc).
  unfold collect, getRecsFromHash, lookupResult.
  eapply runs_bind; [by apply runs_isTableHashed|].
  rewrite Hc, bool_decide_true by eauto. cbn [negb].
  eapply runs_bind; [by apply runs_getIndex|]. rewrite Hc. cbn [mjoin option_join].
  destruct (String.eqb op "=").
  { eapply runs_bind; [apply (runs_defined db (Some idx))|].
    destruct (hm_get idx rhs) as [locs|] eqn:Hget; cbn [default map].
    - by apply (runs_fetch_all db t pids idx rhs locs []).
    - apply runs_ret. }
  destruct (String.eqb op ">"); [|apply runs_throw].
  eapply runs_bind; [apply (runs_defined db (Some idx))|].
  rewrite <- (app_nil_l (flat_map _ _)), <- foldR_app.
  apply runs_foldM. intros s k Hk.
  apply list_elem_of_In, filter_In in Hk as [Hk%list_elem_of_In _].
  destruct (hm_keys_get _ _ Hk) as (locs & Hget). rewrite Hget. cbn [default].
  eapply runs_bind; [apply (runs_defined db (Some locs))|].
  by apply (runs_fetch_all db t pids idx k locs s).
Qed.

Lemma hasValue_runs db t c (idx : list (Value * list (string * nat))) v :
  hasIndex db t c idx -> runs db (hasValue t c v) (Ok (hm_has idx v)).
Proof.
  intros (reg & Hreg & Hc). unfold hasValue.
  eapply runs_bind; [by apply runs_isTableHashed|].
  rewrite Hc, bool_decide_true by eauto. cbn [negb].
  eapply runs_bind; [by apply runs_getIndex|]. rewrite Hc. cbn [mjoin option_join].
  eapply runs_bind; [apply (runs_defined db (Some idx))|]. apply runs_ret.
Qed.

Lemma getRecsFromHash_no_index db t c op rhs :
  (~ exists idx, hasIndex db t c idx) ->
  isThrow (fst (collect (getRecsFromHash t c op rhs) db)).
Proof.
  intros Hno. unfold collect, getRecsFromHash, isTableHashed, getIndex. mred.
  destruct (_tableHashes db !! t) as [reg|] eqn:Hreg; [|done]. mred.
  destruct (reg !! c) as [[idx|]|] eqn:Hc.
  - destruct Hno. exists idx, reg. done.
  - rewrite bool_decide_true by eauto. cbn [negb]. mred. rewrite Hreg. mred.
    rewrite Hc. by destruct (String.eqb op "="), (String.eqb op ">").
  - rewrite bool_decide_false by (by intros [? ?]). done.
Qed.

Lemma hasValue_no_index db t c v :
  (~ exists idx, hasIndex db t c idx) -> isThrow (fst (hasValue t c v db)).
Proof.
  intros Hno. unfold hasValue, isTableHashed, getIndex. mred.
  destruct (_tableHashes db !! t) as [reg|] eqn:Hreg; [|done]. mred.
  destruct (reg !! c) as [[idx|]|] eqn:Hc.
  - destruct Hno. exists idx, reg. done.
  - rewrite bool_decide_true by eauto. cbn [negb]. mred. rewrite Hreg. mred. by rewrite Hc.
  - rewrite bool_decide_false by (by intros [? ?]). done.
Qed.

End HashLookupFacts.

Lemma reg_cases db t c :
  (exists idx, hasIndex db t c idx) \/ ~ exists idx, hasIndex db t c idx.
Proof.
  unfold hasIndex. destruct (_tableHashes db !! t) as [reg|] eqn:Hreg.
  - destruct (reg !! c) as [[idx|]|] eqn:Hc.
    + left. by exists idx, reg.
    + right. intros (idx & reg' & [= <-] & ?). congruence.
    + right. intros (idx & reg' & [= <-] & ?). congruence.
  - right. by intros (idx & reg' & ? & _).
Qed.

Lemma hm_has_false (idx : list (Value * list (string * nat))) k :
  hm_has idx k = false -> hm_get idx k = None.
Proof. unfold hm_has. by destruct (hm_get idx k). Qed.

Lemma filter_none {A} (p : A -> bool) (l : list A) :
  Forall (fun x => p x = false) l -> List.filter p l = [].
Proof. induction 1 as [|x l Hx _ IH]; simpl; [done|]. by rewrite Hx. Qed.
Section JoinFacts.
Context `{JsBuiltins}.

Lemma projectRec_ok t1 t2 projection r1 r2 :
  projOK t1 t2 projection = true ->
  forall res, exists res', projectRec t1 t2 projection (Some r1) r2 res = Ok res'.
Proof.
  induction projection as [|[dst [srcT srcC]] ps IH]; intros Hok res; simpl in *.
  - eauto.
  - apply andb_prop in Hok as [Hp Hps].
    destruct (String.eqb srcT t1); [by apply IH|].
    destruct (String.eqb srcT t2); [by apply IH|done].
Qed.

Lemma projectRec_fails t1 t2 projection r1 r2 :
  projOK t1 t2 projection = false ->
  forall res, projectRec t1 t2 projection (Some r1) r2 res = Throw E_PROJECTION.
Proof.
  induction projection as [|[dst [srcT srcC]] ps IH]; intros Hok res; simpl in *.
  - done.
  - destruct (String.eqb srcT t1); [by apply IH|].
    destruct (String.eqb srcT t2); [by apply IH|done].
Qed.

Lemma projectRec_emitR t1 t2 projection r1 r2 s :
  match projectRec t1 t2 projection (Some r1) r2 [] with
  | Ok res => Ok (s ++ [res])
  | Throw e => Throw e
  end = emitR (projOK t1 t2 projection) [projected t1 t2 projection (r1, r2)] s.
Proof.
  unfold emitR, projected. cbn [fst snd].
  destruct (projOK t1 t2 projection) eqn:Hok.
  - by destruct (projectRec_ok t1 t2 projection r1 r2 Hok []) as (res & ->).
  - by rewrite (projectRec_fails t1 t2 projection r1 r2 Hok).
Qed.

Lemma foldR_emitR {A} ok (h : A -> list (list (string * Value))) (l : list A) :
  forall s, foldR (fun s x => emitR ok (h x) s) l s = emitR ok (flat_map h l) s.
Proof.
  induction l as [|x l IH]; intros s; simpl.
  - unfold emitR. destruct ok; [by rewrite app_nil_r|done].
  - unfold emitR at 1. destruct ok.
    + rewrite IH. unfold emitR. by rewrite app_assoc.
    + destruct (h x) as [|y ys]; [apply IH|done].
Qed.

Lemma runs_project db t1 t2 projection r1 r2 (s : list (list (string * Value))) :
  runs db (project t1 t2 projection (Some r1) r2 ≫= fun res => ret (s ++ [res]))
       (emitR (projOK t1 t2 projection) [projected t1 t2 projection (r1, r2)] s).
Proof.
  intros b. exists b. rewrite <- projectRec_emitR. unfold project. mred.
  by destruct (projectRec t1 t2 projection (Some r1) r2 []).
Qed.

Lemma map_flat_map {A B C} (f : B -> C) (g : A -> list B) (l : list A) :
  map f (flat_map g l) = flat_map (fun a => map f (g a)) l.
Proof. induction l as [|a l IH]; simpl; [done|]. by rewrite map_app, IH. Qed.

Lemma list_prod_flat_map {A B} (l1 : list A) (l2 : list B) :
  list_prod l1 l2 = flat_map (fun a => map (fun b => (a, b)) l2) l1.
Proof. induction l1 as [|a l1 IH]; simpl; [done|]. by rewrite IH. Qed.

Lemma runs_hashJoin_emit db t1 t2 projection recs1 recs2 s :
  runs db (hashJoin_emit t1 t2 projection false (fun acc r => ret (acc ++ [r])) recs1 recs2 s)
       (emitR (projOK t1 t2 projection)
              (map (projected t1 t2 projection) (list_prod recs1 recs2)) s).
Proof.
  unfold hashJoin_emit.
  rewrite list_prod_flat_map, map_flat_map.
  rewrite <- (foldR_emitR _ (fun a => map (projected t1 t2 projection)
                                  (map (fun b => (a, b)) recs2))).
  apply runs_foldM. intros s1 rec1 _.
  rewrite map_map, <- map_as_flat_map.
  rewrite <- (foldR_emitR _ (fun b => [projected t1 t2 projection (rec1, b)])).
  apply runs_foldM. intros s2 rec2 _. apply runs_project.
Qed.

Lemma runs_hashJoin_recs2 db t2 pids op (idx2 : list (Value * list (string * nat))) val1 :
  _tables db !! t2 = Some pids -> locs_ok db pids idx2 ->
  runs db (hashJoin_recs2 t2 op idx2 val1)
       (Ok (flat_map (recsAt db idx2)
              (List.filter (keepVal2 op val1) (hm_keys idx2)))).
Proof.
  intros Ht Hok. unfold hashJoin_recs2.
  rewrite <- (app_nil_l (flat_map _ _)), <- foldR_app.
  apply runs_foldM. intros s k Hk.
  apply list_elem_of_In, filter_In in Hk as [Hk%list_elem_of_In _].
  destruct (hm_keys_get _ _ Hk) as (locs & Hget). unfold recsAt. rewrite Hget. cbn [default].
  eapply runs_bind; [apply (runs_defined db (Some locs))|].
  eapply runs_bind; [by eapply runs_materialize|]. apply runs_ret.
Qed.

Lemma runs_hashJoin_loop db t1 c1 t2 c2 projection op
    (idx1 idx2 : list (Value * list (string * nat))) :
  Inv db -> hasIndex db t1 c1 idx1 -> hasIndex db t2 c2 idx2 ->
  runs db (index1 ← getIndex t1 c1;
           index2 ← getIndex t2 c2;
           idx1 ← defined index1;
           foldM (hashJoin_val1 t1 t2 projection op false
                    (fun acc r => ret (acc ++ [r])) idx1 index2)
                 (hm_keys idx1) [])
       (joinResult db t1 t2 projection idx1 idx2 op).
Proof.
  intros HI Hidx1 Hidx2.
  destruct (hasIndex_locs_ok _ _ _ _ HI Hidx1) as (pids1 & Ht1 & Hok1).
  destruct (hasIndex_locs_ok _ _ _ _ HI Hidx2) as (pids2 & Ht2 & Hok2).
  destruct Hidx1 as (reg1 & Hreg1 & Hc1). destruct Hidx2 as (reg2 & Hreg2 & Hc2).
  eapply runs_bind; [by apply runs_getIndex|]. rewrite Hc1. cbn [mjoin option_join].
  eapply runs_bind; [by apply runs_getIndex|]. rewrite Hc2. cbn [mjoin option_join].
  eapply runs_bind; [apply (runs_defined db (Some idx1))|].
  assert (K : joinResult db t1 t2 projection idx1 idx2 op =
              emitR (projOK t1 t2 projection)
                (flat_map (fun val1 => map (projected t1 t2 projection)
                    (list_prod (recsAt db idx1 val1)
                       (flat_map (recsAt db idx2)
                          (List.filter (keepVal2 op val1) (hm_keys idx2)))))
                   (hm_keys idx1)) []).
  { unfold joinResult, emitR, joinPairs. rewrite map_flat_map.
    destruct (projOK t1 t2 projection); [done|].
    induction (hm_keys idx1) as [|k ks IH]; simpl; [done|].
    destruct (list_prod _ _); simpl; [apply IH|done]. }
  rewrite K, <- foldR_emitR. apply runs_foldM. intros s val1 Hk.
  destruct (hm_keys_get _ _ Hk) as (locs1 & Hget1).
  unfold hashJoin_val1. rewrite Hget1.
  eapply runs_bind; [apply (runs_defined db (Some locs1))|].
  eapply runs_bind; [by eapply runs_materialize|].
  eapply runs_bind; [apply (runs_defined db (Some idx2))|].
  eapply runs_bind; [by eapply runs_hashJoin_recs2|].
  unfold recsAt at 2. rewrite Hget1. cbn [default]. apply runs_hashJoin_emit.
Qed.
End JoinFacts.
Lemma withIndex_set_buf t c f db :
  withIndex t c (set_buf f db) = set_buf f (withIndex t c db).
Proof.
  unfold withIndex. cbn [set_buf _tables _tableHashes].
  destruct (_tables db !! t) as [pids|]; [|done].
  destruct (_tableHashes db !! t) as [reg|]; [|done].
  by destruct (reg !! c).
Qed.

Lemma ensureIndex_bind {B} t c (k : M B) db :
  Inv db -> is_Some (_tables db !! t) ->
  exists b, (isTableHashed t c ≫= fun h => when (negb h) (hashTable t c true) ≫= fun _ => k) db
            = k (set_buf (fun _ => b) (withIndex t c db)).
Proof.
  intros HI [pids Ht]. destruct (table_has_hashes _ _ _ _ HI Ht) as (reg & Hreg).
  unfold withIndex. rewrite Ht, Hreg. unfold isTableHashed. mred. rewrite Hreg. mred.
  destruct (reg !! c) as [oi|] eqn:Hc.
  - rewrite bool_decide_true by eauto. cbn [negb when]. mred. exists (_buf db). by destruct db.
  - rewrite bool_decide_false by (by intros [? ?]). cbn [negb when].
    destruct (hashTable_new_run db t c pids reg HI Ht Hreg) as (b & E).
    exists b. rewrite E. done.
Qed.

Lemma Inv_withIndex t c db : Inv db -> Inv (withIndex t c db).
Proof.
  intros HI. unfold withIndex.
  destruct (_tables db !! t) as [pids|] eqn:Ht; [|done].
  destruct (_tableHashes db !! t) as [reg|] eqn:Hreg; [|done].
  destruct (reg !! c) as [oi|] eqn:Hc; [done|].
  destruct (hashTable_new_run db t c pids reg HI Ht Hreg) as (b & E).
  destruct (hashTable_spec db t c true HI) as (r & db' & E' & HI' & _).
  rewrite E in E'. injection E' as <- <-.
  by apply (InvH_set_buf_inv None (fun _ => b)
    (set_tableHashes (<[t := <[c := Some (index_pages c db pids [])]> reg]>) db)).
Qed.

Lemma withIndex_tables t c db : _tables (withIndex t c db) = _tables db.
Proof.
  unfold withIndex. destruct (_tables db !! t); [|done].
  destruct (_tableHashes db !! t) as [reg|]; [|done]. by destruct (reg !! c).
Qed.

Lemma withIndex_pages t c db : pages (withIndex t c db) = pages db.
Proof.
  unfold withIndex. destruct (_tables db !! t); [|done].
  destruct (_tableHashes db !! t) as [reg|]; [|done]. by destruct (reg !! c).
Qed.

Lemma recordAt_pages db db' loc : pages db' = pages db -> recordAt db' loc = recordAt db loc.
Proof. intros E. unfold recordAt, filesOf. by rewrite E. Qed.

Lemma hasIndex_withIndex t' c' db t c (idx : list (Value * list (string * nat))) :
  hasIndex db t c idx -> hasIndex (withIndex t' c' db) t c idx.
Proof.
  intros (reg & Hreg & Hc). unfold withIndex.
  destruct (_tables db !! t') as [pids|]; [|by exists reg].
  destruct (_tableHashes db !! t') as [reg'|] eqn:Hreg'; [|by exists reg].
  destruct (reg' !! c') as [oi|] eqn:Hc'; [by exists reg|].
  unfold hasIndex. cbn [set_tableHashes _tableHashes].
  destruct (decide (t = t')) as [->|Hne].
  - rewrite Hreg in Hreg'. injection Hreg' as <-.
    rewrite lookup_insert_eq. eexists. split; [done|].
    rewrite lookup_insert_ne; [done|]. intros ->. congruence.
  - rewrite lookup_insert_ne by done. by exists reg.
Qed.

Lemma withIndex_hasIndex t c db :
  Inv db -> is_Some (_tables db !! t) -> definedIndex db t c ->
  exists idx, hasIndex (withIndex t c db) t c idx.
Proof.
  intros HI [pids Ht] Hdef. destruct (table_has_hashes _ _ _ _ HI Ht) as (reg & Hreg).
  unfold withIndex. rewrite Ht, Hreg.
  destruct (reg !! c) as [[idx|]|] eqn:Hc.
  - exists idx, reg. done.
  - by destruct (Hdef reg Hreg).
  - eexists. unfold hasIndex. cbn [set_tableHashes _tableHashes].
    rewrite lookup_insert_eq. eexists. split; [done|]. by rewrite lookup_insert_eq.
Qed.

Lemma withIndex_comm t1 c1 t2 c2 db :
  t1 <> t2 ->
  withIndex t2 c2 (withIndex t1 c1 db) = withIndex t1 c1 (withIndex t2 c2 db).
Proof.
  intros Hne.
  assert (K : forall t c db0, (_tables db0 !! t = None \/ _tableHashes db0 !! t = None \/
                      exists reg o, _tableHashes db0 !! t = Some reg /\ reg !! c = Some o) ->
                   withIndex t c db0 = db0).
  { intros t c db0 Hcase. unfold withIndex.
    destruct (_tables db0 !! t); [|done].
    destruct (_tableHashes db0 !! t) as [reg|]; [|done].
    destruct (reg !! c) eqn:Hc; [done|].
    destruct Hcase as [?|[?|(reg' & o & [= <-] & ?)]]; congruence. }
  assert (Kh : forall (t c t' c' : string), t <> t' ->
                 _tableHashes (withIndex t' c' db) !! t = _tableHashes db !! t).
  { intros t c t' c' Hn. unfold withIndex.
    destruct (_tables db !! t'); [|done].
    destruct (_tableHashes db !! t') as [reg|]; [|done].
    destruct (reg !! c'); [done|].
    cbn [set_tableHashes _tableHashes]. by rewrite lookup_insert_ne. }
  destruct (_tables db !! t1) as [pids1|] eqn:Ht1.
  2:{ rewrite (K t1 c1 db) by auto. apply eq_sym, K. left. by rewrite withIndex_tables. }
  destruct (_tables db !! t2) as [pids2|] eqn:Ht2.
  2:{ rewrite (K t2 c2 db) by auto. apply K. left. by rewrite withIndex_tables. }
  destruct (_tableHashes db !! t1) as [reg1|] eqn:Hr1.
  2:{ rewrite (K t1 c1 db) by auto. apply eq_sym, K. right. left. by rewrite (Kh t1 c1 t2 c2). }
  destruct (_tableHashes db !! t2) as [reg2|] eqn:Hr2.
  2:{ rewrite (K t2 c2 db) by auto. apply K. right. left. by rewrite (Kh t2 c2 t1 c1). }
  destruct (reg1 !! c1) as [o1|] eqn:Hc1.
  { rewrite (K t1 c1 db) by eauto 10. apply eq_sym, K. right. right.
    exists reg1, o1. by rewrite (Kh t1 c1 t2 c2). }
  destruct (reg2 !! c2) as [o2|] eqn:Hc2.
  { rewrite (K t2 c2 db) by eauto 10. apply K. right. right.
    exists reg2, o2. by rewrite (Kh t2 c2 t1 c1). }
  unfold withIndex at 1 3.
  rewrite !withIndex_tables, Ht1, Ht2, (Kh t2 c2 t1 c1), (Kh t1 c1 t2 c2), Hr1, Hr2, Hc1, Hc2
    by done.
  unfold withIndex. rewrite Ht1, Ht2, Hr1, Hr2, Hc1, Hc2.
  unfold set_tableHashes. cbn [pages _buf _tables _tablePageSpaces _tableCols _tableHashes seed].
  f_equal. apply insert_insert_ne. done.
Qed.

Section JoinRuns.
Context `{JsBuiltins}.

Lemma hashJoin_run db t1 c1 t2 c2 projection op
    (idx1 idx2 : list (Value * list (string * nat))) :
  Inv db -> is_Some (_tables db !! t1) -> is_Some (_tables db !! t2) ->
  hasIndex (withIndex t2 c2 (withIndex t1 c1 db)) t1 c1 idx1 ->
  hasIndex (withIndex t2 c2 (withIndex t1 c1 db)) t2 c2 idx2 ->
  fst (collect (hashJoin t1 c1 t2 c2 projection op false) db) =
  joinResult (withIndex t2 c2 (withIndex t1 c1 db)) t1 t2 projection idx1 idx2 op.
Proof.
  intros HI Ht1 Ht2 Hidx1 Hidx2. unfold collect, hashJoin.
  destruct (ensureIndex_bind t1 c1
    (isTableHashed t2 c2 ≫= fun h2 => when (negb h2) (hashTable t2 c2 true) ≫= fun _ =>
       index1 ← getIndex t1 c1;
       index2 ← getIndex t2 c2;
       idx1 ← defined index1;
       foldM (hashJoin_val1 t1 t2 projection op false
                (fun acc r => ret (acc ++ [r])) idx1 index2)
             (hm_keys idx1) []) db HI Ht1) as (b1 & E1).
  rewrite E1. clear E1.
  pose proof (Inv_withIndex t1 c1 db HI) as HI1.
  destruct (ensureIndex_bind t2 c2
    (index1 ← getIndex t1 c1;
     index2 ← getIndex t2 c2;
     idx1 ← defined index1;
     foldM (hashJoin_val1 t1 t2 projection op false
              (fun acc r => ret (acc ++ [r])) idx1 index2)
           (hm_keys idx1) []) (set_buf (fun _ => b1) (withIndex t1 c1 db)))
    as (b2 & E2).
  { by apply InvH_set_buf. }
  { cbn [set_buf _tables]. by rewrite withIndex_tables. }
  rewrite E2. clear E2. rewrite withIndex_set_buf.
  pose proof (Inv_withIndex t2 c2 _ HI1) as HI2.
  destruct (runs_hashJoin_loop _ t1 c1 t2 c2 projection op idx1 idx2 HI2 Hidx1 Hidx2 b2)
    as (b3 & E3).
  replace (set_buf (fun _ => b2) (set_buf (fun _ => b1) (withIndex t2 c2 (withIndex t1 c1 db))))
    with (set_buf (fun _ => b2) (withIndex t2 c2 (withIndex t1 c1 db))) by done.
  by rewrite E3.
Qed.

End JoinRuns.

Section ListPermutations.
Context {A B K : Type}.

Lemma flat_map_perm_ext {C D} (f g : C -> list D) (l : list C) :
  (forall x, f x ≡ₚ g x) -> flat_map f l ≡ₚ flat_map g l.
Proof.
  intros Hfg. induction l as [|x l IH]; simpl; [done|]. by rewrite (Hfg x), IH.
Qed.

Lemma flat_map_app_perm {C D} (f g : C -> list D) (l : list C) :
  flat_map (fun x => f x ++ g x) l ≡ₚ flat_map f l ++ flat_map g l.
Proof.
  induction l as [|x l IH]; simpl; [done|]. rewrite IH.
  rewrite <- !app_assoc. f_equiv. rewrite !app_assoc. f_equiv. apply Permutation_app_comm.
Qed.

Lemma flat_map_nil {C D} (l : list C) : flat_map (fun _ => @nil D) l = [].
Proof. by induction l. Qed.

Lemma flat_map_swap {C D E} (f : C -> D -> list E) (lc : list C) (ld : list D) :
  flat_map (fun c => flat_map (f c) ld) lc ≡ₚ
  flat_map (fun d => flat_map (fun c => f c d) lc) ld.
Proof.
  induction lc as [|c lc IH]; simpl.
  - by rewrite flat_map_nil.
  - by rewrite IH, <- flat_map_app_perm.
Qed.

Lemma flat_map_filter {C D} (q : C -> bool) (g : C -> list D) (l : list C) :
  flat_map g (List.filter q l) = flat_map (fun x => if q x then g x else []) l.
Proof.
  induction l as [|x l IH]; simpl; [done|]. destruct (q x); simpl; by rewrite IH.
Qed.

Lemma list_prod_nil_r {C D} (l : list C) : list_prod l (@nil D) = [].
Proof. by induction l. Qed.

Lemma list_prod_app_r {C D} (l : list C) (x y : list D) :
  list_prod l (x ++ y) ≡ₚ list_prod l x ++ list_prod l y.
Proof.
  induction l as [|c l IH]; simpl; [done|]. rewrite IH, map_app.
  rewrite <- !app_assoc. f_equiv. rewrite !app_assoc. f_equiv. apply Permutation_app_comm.
Qed.

Lemma list_prod_flat_map_r {C D E} (l : list C) (g : E -> list D) (le : list E) :
  list_prod l (flat_map g le) ≡ₚ flat_map (fun e => list_prod l (g e)) le.
Proof.
  induction le as [|e le IH]; simpl.
  - by rewrite list_prod_nil_r.
  - by rewrite list_prod_app_r, IH.
Qed.

Lemma list_prod_swap (l : list A) (l' : list B) :
  map swap (list_prod l l') ≡ₚ list_prod l' l.
Proof.
  rewrite !list_prod_flat_map, map_flat_map.
  rewrite (flat_map_ext _ (fun a => flat_map (fun b => [(b, a)]) l')).
  2:{ intros a. by rewrite map_map, map_as_flat_map. }
  rewrite flat_map_swap. apply flat_map_perm_ext. intros b. by rewrite map_as_flat_map.
Qed.

Lemma join_pairs_normal (F : K -> list A) (G : K -> list B) (p : K -> K -> bool)
    (la lb : list K) :
  flat_map (fun a => list_prod (F a) (flat_map G (List.filter (p a) lb))) la ≡ₚ
  flat_map (fun a => flat_map (fun b => if p a b then list_prod (F a) (G b) else []) lb) la.
Proof.
  apply flat_map_perm_ext. intros a.
  rewrite flat_map_filter, list_prod_flat_map_r.
  apply flat_map_perm_ext. intros b. destruct (p a b); [done|]. by rewrite list_prod_nil_r.
Qed.

End ListPermutations.

Lemma join_pairs_swap {A B K} (F : K -> list A) (G : K -> list B) (p : K -> K -> bool)
    (la lb : list K) :
  (forall a b, p a b = p b a) ->
  flat_map (fun a => list_prod (F a) (flat_map G (List.filter (p a) lb))) la ≡ₚ
  map swap (flat_map (fun b => list_prod (G b) (flat_map F (List.filter (p b) la))) lb).
Proof.
  intros Hsym. rewrite join_pairs_normal, (join_pairs_normal G F p lb la).
  rewrite flat_map_swap, map_flat_map.
  apply flat_map_perm_ext. intros b. rewrite map_flat_map.
  apply flat_map_perm_ext. intros a. rewrite (Hsym a b).
  destruct (p b a); [|done]. by rewrite list_prod_swap.
Qed.

Section JoinMirror.
Context `{JsBuiltins}.

Lemma looseEq_sym a b : looseEq a b = looseEq b a.
Proof.
  destruct a as [x|s|], b as [y|t|]; simpl; try done.
  - apply Z.eqb_sym.
  - apply String.eqb_sym.
Qed.

Lemma joinPairs_swap db (idx1 idx2 : list (Value * list (string * nat))) :
  joinPairs db idx1 idx2 "=" ≡ₚ map swap (joinPairs db idx2 idx1 "=").
Proof.
  unfold joinPairs. apply (join_pairs_swap _ _ (keepVal2 "=")).
  intros a b. apply looseEq_sym.
Qed.

Lemma projectRec_mirror t1 t2 projection r1 r2 :
  t1 <> t2 ->
  forall res, projectRec t1 t2 projection (Some r1) r2 res =
              projectRec t2 t1 projection (Some r2) r1 res.
Proof.
  intros Hne. induction projection as [|[dst [srcT srcC]] ps IH]; intros res; simpl; [done|].
  destruct (String.eqb_spec srcT t1) as [E1|H1], (String.eqb_spec srcT t2) as [E2|H2];
    try done; [congruence|by rewrite IH..].
Qed.

Lemma projOK_comm t1 t2 projection : projOK t1 t2 projection = projOK t2 t1 projection.
Proof.
  unfold projOK. induction projection as [|p ps IH]; simpl; [done|].
  by rewrite IH, orb_comm.
Qed.

Lemma joinResult_mirror db t1 t2 projection (idx1 idx2 : list (Value * list (string * nat))) :
  t1 <> t2 ->
  sameOutcome (joinResult db t1 t2 projection idx1 idx2 "=")
              (joinResult db t2 t1 projection idx2 idx1 "=").
Proof.
  intros Hne. unfold joinResult. rewrite (projOK_comm t2 t1).
  pose proof (joinPairs_swap db idx1 idx2) as HP.
  destruct (projOK t1 t2 projection).
  - simpl. rewrite HP, map_map.
    erewrite map_ext; [done|].
    intros [r2 r1]. unfold projected, swap. cbn [fst snd]. by rewrite (projectRec_mirror t1 t2).
  - destruct (joinPairs db idx1 idx2 "=") as [|p ps], (joinPairs db idx2 idx1 "=") as [|q qs];
      simpl in *; try done.
    + by apply Permutation_nil_cons in HP.
    + by apply Permutation_sym, Permutation_nil_cons in HP.
Qed.

End JoinMirror.


Section JoinExt.
Context `{JsBuiltins}.

End JoinExt.


(** ** The evaluator keeps the result table *)

Lemma buf_only_keeps t db db' : buf_only db db' -> keeps t db db'.
Proof.
  intros (A1 & A2 & _). unfold keeps, recordsOf, filesOf. by rewrite A1, A2.
Qed.

Lemma wiped_keeps t t0 db db' : t0 <> t -> wiped t db db' -> keeps t0 db db'.
Proof. intros Hne [Hu _]. by apply untouched_keeps, Hu. Qed.

Lemma foldR_benign {S A} (g : S -> A -> Res S) (l : list A) :
  (forall s x, benign (g s x)) -> forall s, benign (foldR g l s).
Proof.
  intros Hg. induction l as [|x l IH]; intros s; simpl; [apply benign_ok|].
  pose proof (Hg s x) as Hx. destruct (g s x) as [s'|e]; [apply IH|].
  done.
Qed.

Section Generic.
Context (P : DB -> Prop) (R : DB -> DB -> Prop).
Context `{!PreOrder R}.

Lemma contract_liftR {A} (r : Res A) : benign r -> contract P R (liftR r).
Proof. intros Hr db HP. simpl. split_and!; [done|reflexivity|done]. Qed.

Lemma contract_every {A} (l : list A) (p : A -> M bool) :
  (forall x, contract P R (p x)) -> contract P R (every l p).
Proof.
  intros Hp. induction l as [|x l IH]; simpl; [capply contract_ret|].
  capply contract_bind; [apply Hp|]. intros b. destruct b; [apply IH|capply contract_ret].
Qed.

Lemma contract_match_option {A B} (o : option A) (f : A -> M B) (m : M B) :
  (forall a, contract P R (f a)) -> contract P R m ->
  contract P R (match o with Some a => f a | None => m end).
Proof. by destruct o. Qed.
End Generic.

Section Lookups.
Context `{JsBuiltins}.
Context (P : DB -> Prop) (R : DB -> DB -> Prop).
Context `{!PreOrder R}.
Hypothesis P_buf : forall db db', P db -> buf_only db db' -> P db'.
Hypothesis R_buf : forall db db', buf_only db db' -> R db db'.
Hypothesis hashTable_ok : forall t c, contract P R (hashTable t c true).

Lemma contract_fetch {S} t (f : S -> list (string * Value) -> M S) s loc :
  (forall s r, contract P R (f s r)) -> contract P R (fetch t f s loc).
Proof.
  intros Hf. unfold fetch.
  capply contract_bind; [by capply contract_ensurePage|]. intros _.
  capply contract_bind; [by capply contract_getPageRecord|]. intros r. apply Hf.
Qed.

Lemma contract_getRecsFromHash {S} t c op rhs (f : S -> list (string * Value) -> M S) s :
  (forall s r, contract P R (f s r)) -> contract P R (getRecsFromHash t c op rhs f s).
Proof.
  intros Hf. unfold getRecsFromHash.
  capply contract_bind; [by capply contract_isTableHashed|]. intros h.
  destruct (negb h); [capply contract_throw; by split|].
  capply contract_bind; [by capply contract_getIndex|]. intros hi.
  destruct (String.eqb op "=").
  { capply contract_bind; [capply contract_defined|]. intros idx.
    destruct (hm_get idx rhs); [|capply contract_ret].
    capply contract_foldM. intros s' loc _. by apply contract_fetch. }
  destruct (String.eqb op ">"); [|capply contract_throw; by split].
  capply contract_bind; [capply contract_defined|]. intros idx.
  capply contract_foldM. intros s' val _.
  capply contract_bind; [capply contract_defined|]. intros locs.
  capply contract_foldM. intros s'' loc _. by apply contract_fetch.
Qed.

Lemma contract_materialize t locs : contract P R (materialize t locs).
Proof.
  unfold materialize. capply contract_foldM. intros s loc _.
  capply contract_bind; [by capply contract_ensurePage|]. intros _.
  capply contract_bind; [by capply contract_getPageRecord|]. intros r. capply contract_ret.
Qed.

Lemma contract_project t1 t2 projection rec1 rec2 :
  contract P R (project t1 t2 projection rec1 rec2).
Proof.
  unfold project. apply (contract_liftR P R).
  generalize (@nil (string * Value)).
  induction projection as [|[dst [srcT srcC]] ps IH]; intros res; simpl; [apply benign_ok|].
  destruct (String.eqb srcT t1).
  - destruct rec1; [apply IH|apply benign_TypeError].
  - destruct (String.eqb srcT t2); [apply IH|by split].
Qed.

Lemma contract_hashJoin {S} t1 c1 t2 c2 projection op b
    (f : S -> list (string * Value) -> M S) s :
  (forall s r, contract P R (f s r)) ->
  contract P R (hashJoin t1 c1 t2 c2 projection op b f s).
Proof.
  intros Hf. unfold hashJoin.
  capply contract_bind; [by capply contract_isTableHashed|]. intros h1.
  capply contract_bind; [capply contract_when; apply hashTable_ok|]. intros _.
  capply contract_bind; [by capply contract_isTableHashed|]. intros h2.
  capply contract_bind; [capply contract_when; apply hashTable_ok|]. intros _.
  capply contract_bind; [by capply contract_getIndex|]. intros index1.
  capply contract_bind; [by capply contract_getIndex|]. intros index2.
  capply contract_bind; [capply contract_defined|]. intros idx1.
  capply contract_foldM. intros s' val1 _. unfold hashJoin_val1.
  capply contract_bind; [capply contract_defined|]. intros locs1.
  capply contract_bind; [apply contract_materialize|]. intros recs1.
  capply contract_bind; [capply contract_defined|]. intros idx2.
  capply contract_bind.
  { unfold hashJoin_recs2. capply contract_foldM. intros acc val2 _.
    capply contract_bind; [capply contract_defined|]. intros locs2.
    capply contract_bind; [apply contract_materialize|]. intros rs. capply contract_ret. }
  intros recs2. unfold hashJoin_emit.
  capply contract_foldM. intros s1 rec1 _. capply contract_foldM. intros s2 rec2 _.
  capply contract_bind; [apply contract_project|]. intros res. apply Hf.
Qed.
End Lookups.
Lemma nano_not_empty k : nano k <> EmptyString.
Proof. unfold nano. simpl. discriminate. Qed.

Lemma pairKey_not_empty id : pairKey id <> EmptyString.
Proof. unfold pairKey. simpl. discriminate. Qed.

Lemma constructJoinTableTree_fuel fuel joinMap :
  forall ids id, length ids < fuel ->
    benign (constructJoinTableTree fuel joinMap ids id) /\
    forall t ids', constructJoinTableTree fuel joinMap ids id = Ok (t, ids') ->
                   length ids' <= length ids.
Proof.
  induction fuel as [|fuel IH]; intros ids id Hlen; [lia|].
  cbn [constructJoinTableTree].
  destruct (bool_decide (id ∈ ids)) eqn:Hin; cbn [negb].
  2:{ split; [apply benign_ok|]. by intros t ids' [= <- <-]. }
  apply bool_decide_eq_true in Hin.
  set (ids1 := List.filter (fun x => negb (bool_decide (x = id))) ids).
  assert (Hlt : length ids1 < length ids).
  { unfold ids1. clear -Hin. induction ids as [|x ids IHl]; [by apply elem_of_nil in Hin|].
    simpl. destruct (bool_decide (x = id)) eqn:E; simpl.
    - pose proof (filter_length_le (fun x0 => negb (bool_decide (x0 = id))) ids). lia.
    - apply bool_decide_eq_false in E. apply elem_of_cons in Hin as [->|Hin]; [done|].
      specialize (IHl Hin). lia. }
  set (visit := fun (st : list Tree * list (string * string)) cId =>
          match constructJoinTableTree fuel joinMap (snd st) cId with
          | Ok (Some childNode, ids) => Ok (fst st ++ [childNode], ids)
          | Ok (None, ids) => Ok (fst st, ids)
          | Throw e => Throw e
          end).
  assert (Hvisit : forall adj st, length (snd st) <= length ids1 ->
            benign (foldR visit adj st) /\
            forall st', foldR visit adj st = Ok st' -> length (snd st') <= length ids1).
  { induction adj as [|cId adj IHa]; intros st Hst; simpl.
    - split; [apply benign_ok|]. by intros st' [= <-].
    - destruct (IH (snd st) cId) as [Hb Hl]; [lia|]. unfold visit at 1 3.
      destruct (constructJoinTableTree fuel joinMap (snd st) cId) as [[[child|] ids2]|e].
      + apply IHa. simpl. specialize (Hl _ _ eq_refl). lia.
      + apply IHa. simpl. specialize (Hl _ _ eq_refl). lia.
      + split; [eapply benign_throw, Hb|]. by intros st'. }
  destruct (al_get joinMap (fst id)) as [adj1|]; [|split; [apply benign_TypeError|done]].
  destruct (Hvisit adj1 ([], ids1)) as [Hb1 Hl1]; [done|].
  destruct (foldR visit adj1 ([], ids1)) as [st1|e]; [|split; [eapply benign_throw, Hb1|done]].
  destruct (al_get joinMap (snd id)) as [adj2|]; [|split; [apply benign_TypeError|done]].
  destruct (Hvisit adj2 st1) as [Hb2 Hl2]; [by apply Hl1|].
  destruct (foldR visit adj2 st1) as [st2|e]; [|split; [eapply benign_throw, Hb2|done]].
  split; [apply benign_ok|]. intros t ids' [= <- <-]. specialize (Hl2 _ eq_refl). lia.
Qed.

Lemma joinTrees_benign joinMap order : forall ids trees, benign (joinTrees joinMap order ids trees).
Proof.
  induction order as [|id order IH]; intros ids trees; cbn [joinTrees]; [apply benign_ok|].
  destruct (bool_decide (id ∈ ids)); [|apply IH].
  destruct (constructJoinTableTree_fuel (S (length ids)) joinMap ids id) as [Hb _]; [lia|].
  destruct (constructJoinTableTree (S (length ids)) joinMap ids id) as [[[tree|] ids']|e];
    [apply IH|apply IH|eapply benign_throw, Hb].
Qed.

Lemma joinMapOf_benign tables compositeIds : benign (joinMapOf tables compositeIds).
Proof.
  unfold joinMapOf. apply foldR_benign. intros m cid. unfold joinMap_add.
  destruct (al_get m (fst cid)); [|apply benign_TypeError].
  destruct (al_get _ (snd cid)); [apply benign_ok|apply benign_TypeError].
Qed.

Lemma projectionOf_benign keys : forall columns, benign (projectionOf keys columns).
Proof.
  induction keys as [|k keys IH]; intros columns; simpl; [apply benign_ok|].
  destruct columns as [|c columns]; [apply benign_TypeError|].
  specialize (IH columns). destruct (projectionOf keys columns); [apply benign_ok|done].
Qed.

Lemma groupCols_benign `{JsBuiltins} columns s : benign (foldR groupCols_each columns s).
Proof.
  apply foldR_benign. intros g col. unfold groupCols_each.
  destruct (al_get _ (parentTable col)); [apply benign_ok|apply benign_TypeError].
Qed.

(** induction on join trees *)
Lemma Tree_induction (Q : Tree -> Prop) :
  (forall id children, Forall Q children -> Q (Node id children)) -> forall t, Q t.
Proof.
  intros HQ. fix IH 1. intros [id children]. apply HQ.
  induction children as [|c children IHc]; constructor; [apply IH|apply IHc].
Qed.
Section MapM.
Context (P : DB -> Prop) (R : DB -> DB -> Prop).
Context `{!PreOrder R}.

Lemma contract_mapM {A B} (f : A -> M B) (l : list A) :
  (forall x, x ∈ l -> contract P R (f x)) -> contract P R (mapM f l).
Proof.
  induction l as [|x l IH]; intros Hf; simpl; [capply contract_ret|].
  capply contract_bind; [apply Hf, list_elem_of_here|]. intros y.
  capply contract_bind; [apply IH; intros x' Hx'; by apply Hf, list_elem_of_further|].
  intros ys. capply contract_ret.
Qed.
End MapM.

Section ContractsQ.
Context (P : DB -> Prop) (R : DB -> DB -> Prop).
Context `{!PreOrder R}.

Lemma contractQ_contract {A} (Q : A -> Prop) (m : M A) :
  contractQ P R Q m -> contract P R m.
Proof. intros Hm db HP. destruct (Hm db HP) as (? & ? & ? & _). done. Qed.

Lemma contract_contractQ {A} (m : M A) : contract P R m -> contractQ P R (fun _ => True) m.
Proof. intros Hm db HP. destruct (Hm db HP) as (? & ? & ?). done. Qed.

Lemma contractQ_ret {A} (Q : A -> Prop) (a : A) : Q a -> contractQ P R Q (ret a).
Proof.
  intros HQ db HP. simpl. split_and!; [done|reflexivity|apply benign_ok|].
  by intros a' [= <-].
Qed.

Lemma contractQ_throw {A} (Q : A -> Prop) e : benign (@Throw A e) -> contractQ P R Q (throw e).
Proof. intros He db HP. simpl. split_and!; [done|reflexivity|done|done]. Qed.

Lemma contractQ_bind {A B} (Q : A -> Prop) (Q' : B -> Prop) (m : M A) (k : A -> M B) :
  contractQ P R Q m -> (forall a, Q a -> contractQ P R Q' (k a)) ->
  contractQ P R Q' (m ≫= k).
Proof.
  intros Hm Hk db HP. rewrite bind_run. destruct (Hm db HP) as (HP1 & HR1 & Hb1 & HQ1).
  destruct (m db) as [[a|e] db1]; simpl in *.
  - destruct (Hk a (HQ1 a eq_refl) db1 HP1) as (HP2 & HR2 & Hb2 & HQ2).
    split_and!; [done|by etransitivity|done|done].
  - split_and!; [done|done|by eapply benign_throw|done].
Qed.

Lemma contract_bindQ {A B} (Q : A -> Prop) (m : M A) (k : A -> M B) :
  contractQ P R Q m -> (forall a, Q a -> contract P R (k a)) -> contract P R (m ≫= k).
Proof.
  intros Hm Hk. apply (contractQ_contract (fun _ => True)).
  eapply contractQ_bind; [exact Hm|]. intros a Ha. by apply contract_contractQ, Hk.
Qed.

Lemma contractQ_foldM {S A} (I : S -> Prop) (f : S -> A -> M S) (l : list A) (s : S) :
  (forall s x, I s -> contractQ P R I (f s x)) -> I s -> contractQ P R I (foldM f l s).
Proof.
  revert s. induction l as [|x l IH]; intros s Hf Hs; simpl.
  - by apply contractQ_ret.
  - eapply contractQ_bind; [by apply Hf|]. intros s' Hs'. by apply IH.
Qed.
End ContractsQ.

Section KeepsResult.
Context `{JsBuiltins}.
Context (R0 : string).
Hypothesis R0_nano : forall k, R0 <> nano k.
Hypothesis R0_pair : forall id, R0 <> pairKey id.

Local Abbreviation K := (contract Inv (keeps R0)).

Lemma K_buf db db' : buf_only db db' -> keeps R0 db db'.
Proof. apply buf_only_keeps. Qed.

Lemma K_Inv_buf db db' : Inv db -> buf_only db db' -> Inv db'.
Proof. apply Inv_buf_only. Qed.

Lemma K_insertUnique t recs : K (insertUniqueRecordsById t recs).
Proof.
  eapply contract_weaken; [|apply insertUniqueRecordsById_contract].
  intros db db' _ [He _]. by eapply extends_keeps.
Qed.

Lemma K_insertRecords t recs : K (insertRecords t recs).
Proof.
  eapply contract_weaken; [|apply insertRecords_contract].
  intros db db' _ He. by eapply extends_keeps.
Qed.

Lemma K_addTable t cols : K (addTable t cols).
Proof.
  eapply contract_weaken; [|apply addTable_contract].
  intros db db' _ [He _]. by eapply extends_keeps.
Qed.

Lemma K_hashTable t c b : K (hashTable t c b).
Proof.
  eapply contract_weaken; [|apply hashTable_contract].
  intros db db' _ He. by eapply index_only_keeps.
Qed.

Lemma K_clearTable t : R0 <> t -> K (clearTable t).
Proof.
  intros Hne. eapply contract_weaken; [|apply clearTable_contract].
  intros db db' _ He. by eapply wiped_keeps.
Qed.

Lemma K_drop t : R0 <> t -> K (drop t).
Proof.
  intros Hne. eapply contract_weaken; [|apply drop_contract].
  intros db db' _ He. by eapply wiped_keeps.
Qed.

Lemma K_nanoid {A} (k : string -> M A) :
  (forall n, K (k (nano n))) -> K (nanoid ≫= k).
Proof.
  intros Hk db HI. unfold nanoid, nanoid_seed. mred.
  destruct (Hk (seed db) (set_seed S db)) as (HI' & HK & Hb); [by apply InvH_seed|].
  split_and!; [done| |done].
  etransitivity; [|exact HK]. unfold keeps, recordsOf, filesOf. simpl. split; [done|lia].
Qed.

Lemma K_getAllRecords {S} t (f : S -> list (string * Value) -> M S) s :
  (forall s r, K (f s r)) -> K (getAllRecords t f s).
Proof. apply (contract_getAllRecords Inv (keeps R0) K_Inv_buf K_buf). Qed.

Lemma K_filterRecords {S} t g (f : S -> list (string * Value) -> M S) s :
  (forall s r, K (f s r)) -> K (filterRecords t g f s).
Proof. apply (contract_filterRecords Inv (keeps R0) K_Inv_buf K_buf). Qed.

Lemma K_hasValue t c v : K (hasValue t c v).
Proof. apply (contract_hasValue Inv (keeps R0)). Qed.

Lemma K_getTableKeys t : K (getTableKeys t).
Proof. apply (contract_getTableKeys Inv (keeps R0)). Qed.

Lemma K_isTableHashed t c : K (isTableHashed t c).
Proof. apply (contract_isTableHashed Inv (keeps R0)). Qed.

Lemma K_getNumberOfEntries t : K (getNumberOfEntries t).
Proof. apply (contract_getNumberOfEntries Inv (keeps R0)). Qed.

Lemma K_getRecsFromHash {S} t c op rhs (f : S -> list (string * Value) -> M S) s :
  (forall s r, K (f s r)) -> K (getRecsFromHash t c op rhs f s).
Proof. apply (contract_getRecsFromHash Inv (keeps R0) K_Inv_buf K_buf). Qed.

Lemma K_hashJoin {S} t1 c1 t2 c2 projection op b
    (f : S -> list (string * Value) -> M S) s :
  (forall s r, K (f s r)) -> K (hashJoin t1 c1 t2 c2 projection op b f s).
Proof.
  apply (contract_hashJoin Inv (keeps R0) K_Inv_buf K_buf).
  intros t c. apply K_hashTable.
Qed.

Lemma K_blockJoin t1 t2 projection b : K (blockJoin t1 t2 projection b).
Proof. capply contract_throw. apply benign_TypeError. Qed.

Lemma K_getNonIdCols t : K (getNonIdCols t).
Proof.
  unfold getNonIdCols. capply contract_bind; [apply K_getTableKeys|]. intros keys.
  destruct (forallb _ keys); [capply contract_ret|capply contract_throw; apply benign_TypeError].
Qed.

Lemma K_constructFilter ops t : K (constructFilter ops t).
Proof.
  unfold constructFilter. capply contract_bind; [|intros fs; capply contract_ret].
  capply contract_foldM. intros fs op _. unfold constructFilter_each.
  capply contract_bind; [apply K_getTableKeys|]. intros tableCols.
  destruct (_ && _); [|capply contract_ret].
  destruct (String.eqb (operator op) "="); [capply contract_ret|].
  destruct (String.eqb (operator op) ">"); [capply contract_ret|].
  capply contract_throw. by split.
Qed.

Lemma K_selectAll term W R : R0 <> W -> K (selectAll term W R).
Proof.
  intros HW. unfold selectAll. destruct (head (tables term)) as [tableName|].
  - capply contract_bind.
    { destruct (ops term); [apply K_constructFilter|capply contract_ret]. }
    intros g. capply contract_bind; [by apply K_clearTable|]. intros _.
    apply K_filterRecords. intros _ r.
    capply contract_bind; [apply K_insertUnique|]. intros _. apply K_insertUnique.
  - destruct (ops term) as [[|op l]|].
    + capply contract_bind; [by apply K_clearTable|]. intros _.
      capply contract_throw. apply benign_TypeError.
    + capply contract_throw. apply benign_TypeError.
    + capply contract_bind; [by apply K_clearTable|]. intros _.
      capply contract_throw. apply benign_TypeError.
Qed.

Lemma K_keepCommon temps dst : K (keepCommon temps dst).
Proof.
  unfold keepCommon. destruct temps as [|t0 rest]; [capply contract_throw; apply benign_TypeError|].
  apply K_getAllRecords. intros _ r.
  capply contract_bind; [capply contract_every; intros rt; apply K_hasValue|].
  intros ok. capply contract_when. apply K_insertUnique.
Qed.

Lemma K_copyFirst temps dst : K (copyFirst temps dst).
Proof.
  unfold copyFirst. destruct (head temps); [|capply contract_throw; apply benign_TypeError].
  apply K_getAllRecords. intros _ r. apply K_insertUnique.
Qed.

Lemma K_drop_all (l : list string) : Forall (fun t => R0 <> t) l -> K (forM_ l drop).
Proof.
  intros Hl. capply contract_forM_. intros t Ht. apply K_drop.
  by apply (proj1 (Forall_forall _ _) Hl).
Qed.

Local Abbreviation KQ := (contractQ Inv (keeps R0)).
Local Abbreviation notResult := (Forall (fun t : string => R0 <> t)).

Lemma KQ_nanoid {A} (Q : A -> Prop) (k : string -> M A) :
  (forall n, KQ Q (k (nano n))) -> KQ Q (nanoid ≫= k).
Proof.
  intros Hk db HI. unfold nanoid, nanoid_seed. mred.
  destruct (Hk (seed db) (set_seed S db)) as (HI' & HK & Hb & HQ); [by apply InvH_seed|].
  split_and!; [done| |done|done].
  etransitivity; [|exact HK]. unfold keeps, recordsOf, filesOf. simpl. split; [done|lia].
Qed.

Lemma KQ_seq {A B} (Q : B -> Prop) (m : M A) (k : A -> M B) :
  K m -> (forall a, KQ Q (k a)) -> KQ Q (m ≫= k).
Proof.
  intros Hm Hk.
  apply (contractQ_bind Inv (keeps R0) (fun _ => True)); [by apply contract_contractQ|].
  intros a _. apply Hk.
Qed.

Lemma KQ_simpleTemp tName temps op :
  notResult temps -> KQ notResult (simpleTemp tName temps op).
Proof.
  intros Ht. unfold simpleTemp. apply KQ_nanoid. intros n.
  capply KQ_seq; [apply K_getTableKeys|]. intros keys.
  capply KQ_seq; [apply K_addTable|]. intros _.
  capply KQ_seq; [apply K_isTableHashed|]. intros h.
  capply KQ_seq; [capply contract_when; apply K_hashTable|]. intros _.
  capply KQ_seq.
  { apply K_getRecsFromHash. intros _ r. apply K_insertUnique. }
  intros _. capply contractQ_ret. apply Forall_app. split; [done|]. by constructor.
Qed.

Lemma K_simplifyTable m entry : K (simplifyTable m entry).
Proof.
  unfold simplifyTable. destruct entry as [tName ops]. apply K_nanoid. intros n.
  capply contract_bind; [apply K_getTableKeys|]. intros keys.
  capply contract_bind; [apply K_addTable|]. intros _.
  capply (contract_bindQ Inv (keeps R0) notResult).
  { capply contractQ_foldM; [|by constructor]. intros s x Hs. by apply KQ_simpleTemp. }
  intros temps Htemps.
  capply contract_bind.
  { destruct (2 <=? length temps); [apply K_keepCommon|apply K_copyFirst]. }
  intros _. capply contract_bind; [by apply K_drop_all|]. intros _. capply contract_ret.
Qed.

Lemma K_joinedInsert src1 src2 t u r : K (joinedInsert src1 src2 t u r).
Proof.
  unfold joinedInsert. destruct (_ && _); [capply contract_ret|apply K_insertRecords].
Qed.

Lemma K_hashJoinInto src1 c1 src2 c2 tProj op t : K (hashJoinInto src1 c1 src2 c2 tProj op t).
Proof.
  unfold hashJoinInto. destruct src1 as [s1|]; [|capply contract_throw; apply benign_TypeError].
  destruct src2 as [s2|].
  - apply K_hashJoin. intros u r. apply K_joinedInsert.
  - capply contract_bind; [apply K_isTableHashed|]. intros h.
    capply contract_bind; [capply contract_when; apply K_hashTable|]. intros _.
    capply contract_throw. apply benign_TypeError.
Qed.

Lemma KQ_pairTemp g proj m temps op :
  notResult temps -> KQ notResult (pairTemp g proj m temps op).
Proof.
  intros Ht. unfold pairTemp. destruct (p_lhs op) as [lhsT lhsN], (p_rhs op) as [rhsT rhsN].
  apply KQ_nanoid. intros n.
  capply KQ_seq; [capply contract_defined|]. intros g1.
  capply KQ_seq; [capply contract_defined|]. intros g2.
  capply KQ_seq; [apply K_addTable|]. intros _.
  capply KQ_seq; [apply K_hashJoinInto|]. intros _.
  capply KQ_seq; [apply K_hashTable|]. intros _.
  capply contractQ_ret. apply Forall_app. split; [done|]. by constructor.
Qed.

Lemma K_compositeTable g proj m entry : K (compositeTable g proj m entry).
Proof.
  unfold compositeTable. destruct entry as [compositeId pairOps].
  capply (contract_bindQ Inv (keeps R0) notResult).
  { capply contractQ_foldM; [|by constructor]. intros s x Hs. by apply KQ_pairTemp. }
  intros temps Htemps.
  capply contract_bind; [capply contract_defined|]. intros first.
  capply contract_bind; [capply contract_defined|]. intros g1.
  capply contract_bind; [capply contract_defined|]. intros g2.
  capply contract_bind; [apply K_addTable|]. intros _.
  capply contract_bind.
  { destruct (length pairOps =? 1); [apply K_copyFirst|apply K_keepCommon]. }
  intros _.
  capply contract_bind; [apply K_hashTable|]. intros _.
  capply contract_bind; [apply K_hashTable|]. intros _.
  by apply K_drop_all.
Qed.

Lemma K_hasCommon parentTables parentRec cName : K (hasCommon parentTables parentRec cName).
Proof.
  unfold hasCommon. capply contract_bind; [apply K_hasValue|]. intros _. capply contract_ret.
Qed.

Lemma K_commonRow columns parentTables childrenTables results parentRec :
  K (commonRow columns parentTables childrenTables results parentRec).
Proof.
  unfold commonRow. capply contract_bind; [capply contract_every; intros c; apply K_hasCommon|].
  intros ok. destruct ok; [|capply contract_ret].
  capply contract_bind; [|intros recs; capply contract_ret].
  capply contract_foldM. intros recs cName _. unfold composeWith.
  apply K_getRecsFromHash. intros temp r. capply contract_ret.
Qed.

Lemma K_getCommonTreeVals columns tree : K (getCommonTreeVals columns tree).
Proof.
  induction tree as [parentId children IH] using Tree_induction.
  destruct children as [|child children]; [capply contract_ret|].
  cbn [getCommonTreeVals].
  capply contract_bind.
  { capply contract_mapM. intros c Hc. by apply (proj1 (Forall_forall _ _) IH). }
  intros childrenTables.
  capply contract_bind; [apply K_getAllRecords; intros s r; apply K_commonRow|].
  intros results.
  capply contract_bind; [apply K_clearTable, R0_pair|]. intros _.
  capply contract_bind; [apply K_insertRecords|]. intros _.
  capply contract_bind; [|intros _; capply contract_ret].
  capply contract_forM_. intros t _. apply K_hashTable.
Qed.

Lemma KQ_getNonIdCols t : KQ (fun o => o = None) (getNonIdCols t).
Proof.
  unfold getNonIdCols. capply KQ_seq; [apply K_getTableKeys|]. intros keys.
  destruct (forallb _ keys); [by capply contractQ_ret|].
  capply contractQ_throw. apply benign_TypeError.
Qed.

Lemma K_blockJoin_loop t1 l : K (blockJoin_loop t1 l).
Proof.
  destruct l as [|t2 l]; cbn [blockJoin_loop].
  - capply contract_bind; [eapply contractQ_contract; apply KQ_getNonIdCols|]. intros _.
    capply contract_throw. apply benign_TypeError.
  - capply (contract_bindQ Inv (keeps R0) (fun o => o = None)); [apply KQ_getNonIdCols|].
    intros o1 ->.
    capply contract_bind; [eapply contractQ_contract; apply KQ_getNonIdCols|]. intros o2.
    intros db HI. split_and!; [done|reflexivity|apply benign_TypeError].
Qed.

Lemma KQ_blockJoinIndependentTables columns l :
  KQ (fun t => R0 <> t) (blockJoinIndependentTables columns l).
Proof.
  unfold blockJoinIndependentTables. destruct l as [|t1 [|t2 l]].
  - capply contractQ_throw. apply benign_TypeError.
  - apply KQ_nanoid. intros n.
    capply KQ_seq; [apply K_addTable|]. intros _.
    capply KQ_seq; [apply K_getAllRecords; intros u r; apply K_insertUnique|]. intros _.
    capply contractQ_ret. apply R0_nano.
  - intros db HI. destruct (K_blockJoin_loop t1 (t2 :: l) db HI) as (? & ? & ?).
    split_and!; [done..|].
    intros a Ha. revert Ha. cbn [blockJoin_loop]. rewrite bind_run.
    destruct (KQ_getNonIdCols t1 db HI) as (HI1 & _ & _ & HQ1).
    destruct (getNonIdCols t1 db) as [[o1|e] db1]; [|done].
    rewrite (HQ1 o1 eq_refl). rewrite bind_run.
    destruct (getNonIdCols t2 db1) as [[o2|e] db2]; done.
Qed.

Lemma K_execute term columns g sorted W R :
  R0 <> W -> K (execute term columns g sorted W R).
Proof.
  intros HW. unfold execute.
  capply contract_bind; [capply contract_foldM; intros m e _; apply K_simplifyTable|].
  intros tableNameMap.
  capply contract_bind; [apply K_getTableKeys|]. intros keys.
  capply contract_bind; [capply contract_liftR; apply projectionOf_benign|]. intros proj.
  capply contract_bind; [capply contract_forM_; intros e _; apply K_compositeTable|].
  intros _.
  capply contract_bind; [capply contract_liftR; apply joinMapOf_benign|]. intros joinMap.
  capply contract_bind; [capply contract_liftR; apply joinTrees_benign|]. intros trees.
  capply contract_bind.
  { capply contract_foldM. intros l tree _.
    capply contract_bind; [apply K_getCommonTreeVals|]. intros pid. capply contract_ret. }
  intros independentTables.
  capply (contract_bindQ Inv (keeps R0) (fun t => R0 <> t));
    [apply KQ_blockJoinIndependentTables|].
  intros finalTempTable Hfinal.
  capply contract_bind; [by apply K_clearTable|]. intros _.
  capply contract_bind.
  { apply K_getAllRecords. intros u r.
    capply contract_bind; [apply K_insertUnique|]. intros _. apply K_insertUnique. }
  intros _.
  capply contract_bind; [by apply K_drop|]. intros _.
  capply contract_forM_. intros cid _. apply K_drop, R0_pair.
Qed.

Lemma K_executeTerm_body term W R :
  R0 <> W ->
  K (if length (cols term) =? 1 then selectAll term W R
     else groupedCols ← liftR (foldR groupCols_each (cols term) []);
          execute term (cols term) groupedCols (sortOps term) W R).
Proof.
  intros HW. destruct (length (cols term) =? 1); [by apply K_selectAll|].
  capply contract_bind; [capply contract_liftR; apply groupCols_benign|]. intros g.
  by apply K_execute.
Qed.

Lemma K_executeTerm term W R : R0 <> W -> K (executeTerm term W R).
Proof.
  intros HW. unfold executeTerm.
  capply contract_bind; [apply K_getNumberOfEntries|]. intros n0.
  capply contract_bind; [by apply K_executeTerm_body|]. intros _.
  capply contract_bind; [apply K_getNumberOfEntries|]. intros n1. capply contract_ret.
Qed.
End KeepsResult.
(** ** Counting the records of a table *)

Lemma fold_left_spaces (q : list (string * nat)) : forall z,
  fold_left (fun recordsInTable e => (recordsInTable - Z.of_nat (snd e))%Z) q z =
  (z - Z.of_nat (sum_list (map snd q)))%Z.
Proof.
  induction q as [|e q IH]; intros z; simpl; [lia|]. rewrite IH. lia.
Qed.

Lemma sum_list_perm (l l' : list nat) : l ≡ₚ l' -> sum_list l = sum_list l'.
Proof. induction 1; simpl; lia. Qed.

Lemma getNumberOfEntries_run db t pids :
  Inv db -> _tables db !! t = Some pids ->
  getNumberOfEntries t db = (Ok (Z.of_nat (length (recordsOf t db))), db).
Proof.
  intros [H1 _ _] Ht. destruct (H1 t pids Ht) as [_ _ Hpages (q & Hq & Hperm & Hsp) _ _].
  unfold getNumberOfEntries. mred. rewrite Ht. mred. rewrite Hq. mred.
  f_equal. f_equal. rewrite fold_left_spaces. unfold recordsOf. rewrite Ht.
  simpl in Hperm.
  assert (E1 : map snd q = map (fun pid => maxNoOfRecsPerFile - length (filesOf db pid))
                               (map fst q)).
  { clear Hperm Hq. induction Hsp as [|e q (p & Hp & He) _ IH]; simpl; [done|].
    rewrite IH. f_equal. unfold filesOf. rewrite Hp. exact He. }
  rewrite E1, (sum_list_perm _ _ (Permutation_map _ Hperm)).
  clear -Hpages. induction pids as [|pid pids IH]; simpl; [lia|].
  destruct (Hpages pid) as (k & p & _ & _ & Hp & Hlen); [apply list_elem_of_here|].
  rewrite length_app. unfold filesOf at 1 3. rewrite Hp.
  assert (IH' := IH (fun pid' Hin => Hpages pid' (list_elem_of_further _ _ _ Hin))).
  lia.
Qed.

Lemma getNumberOfEntries_unknown db t :
  _tables db !! t = None -> getNumberOfEntries t db = (Throw TypeError, db).
Proof. intros Ht. unfold getNumberOfEntries. mred. by rewrite Ht. Qed.
Section Passes.
Context `{JsBuiltins}.

Lemma executeTerm_spec term W R db :
  R <> W -> (forall k, R <> nano k) -> (forall id, R <> pairKey id) -> Inv db ->
  Inv (snd (executeTerm term W R db)) /\
  keeps R db (snd (executeTerm term W R db)) /\
  benign (fst (executeTerm term W R db)) /\
  forall delta, fst (executeTerm term W R db) = Ok delta ->
    delta = (Z.of_nat (length (recordsOf R (snd (executeTerm term W R db)))) -
             Z.of_nat (length (recordsOf R db)))%Z /\
    (0 <= delta)%Z.
Proof.
  intros HW Hn Hp HI.
  destruct (K_executeTerm R Hn Hp term W R HW db HI) as (HI' & HK & Hb).
  split_and!; [done..|].
  intros delta. unfold executeTerm. rewrite bind_run.
  destruct (_tables db !! R) as [pids|] eqn:Ht.
  2:{ by rewrite getNumberOfEntries_unknown. }
  rewrite (getNumberOfEntries_run db R pids HI Ht). rewrite bind_run.
  destruct (K_executeTerm_body R Hn Hp term W R HW db HI) as (HI1 & [HK1 HK2] & _).
  match type of HI1 with Inv (snd (?m db)) => destruct (m db) as [[[]|e] db1] end; [|done].
  simpl in HI1, HK1, HK2.
  destruct HK1 as [pids1 Ht1]; [by rewrite Ht|].
  rewrite bind_run, (getNumberOfEntries_run db1 R pids1 HI1 Ht1). simpl.
  intros [= <-]. lia.
Qed.

Lemma afterPasses_Inv n term W R db :
  R <> W -> (forall k, R <> nano k) -> (forall id, R <> pairKey id) -> Inv db ->
  Inv (afterPasses n term W R db).
Proof.
  intros HW Hn Hp HI. induction n as [|n IH]; [done|].
  unfold afterPasses. simpl. by apply executeTerm_spec.
Qed.

Lemma beforeLoop_Inv query db :
  resultTableName query <> wd_name (withDecl query) ->
  (forall k, resultTableName query <> nano k) ->
  (forall id, resultTableName query <> pairKey id) ->
  Inv db -> Inv (snd (beforeLoop query db)).
Proof.
  intros HW Hn Hp HI.
  assert (K : contract Inv (keeps (resultTableName query)) (beforeLoop query)).
  { unfold beforeLoop, createRecursiveTable.
    capply (contract_bindQ Inv (keeps (resultTableName query))
              (fun a => a = wd_name (withDecl query))).
    { apply KQ_seq; [by apply K_addTable|]. intros _. by capply contractQ_ret. }
    intros recTableName ->.
    capply contract_bind; [by apply K_getTableKeys|]. intros keys.
    capply contract_bind; [by apply K_addTable|]. intros _.
    by apply K_executeTerm. }
  by destruct (K db HI) as (? & _).
Qed.
End Passes.
(** ** A join tree with children *)

Lemma foldM_const {S A} (f : S -> A -> M S) (l : list A) :
  (forall s x db s', fst (f s x db) = Ok s' -> s' = s) ->
  forall s db s', fst (foldM f l s db) = Ok s' -> s' = s.
Proof.
  intros Hf. induction l as [|x l IH]; intros s db s'; simpl.
  - by intros [= <-].
  - rewrite bind_run. pose proof (Hf s x db) as Hx.
    destruct (f s x db) as [[s1|e] db1]; [|done]. simpl in Hx.
    rewrite (Hx s1 eq_refl). apply IH.
Qed.

Lemma getAllRecords_const {S} t (f : S -> list (string * Value) -> M S) :
  (forall s r db s', fst (f s r db) = Ok s' -> s' = s) ->
  forall s db s', fst (getAllRecords t f s db) = Ok s' -> s' = s.
Proof.
  intros Hf s db s'. unfold getAllRecords. rewrite bind_run, gets_run.
  destruct (_tables db !! t) as [pids|]; [|done]. rewrite bind_run, defined_some.
  apply foldM_const. clear s db s'. intros s pid db s'.
  rewrite bind_run. destruct (ensurePage t pid db) as [[[]|e] db1]; [|done].
  rewrite bind_run. destruct (getPageContents pid db1) as [[files|e] db2]; [|done].
  by apply foldM_const.
Qed.

Section TreeFacts.
Context `{JsBuiltins}.

Lemma commonRow_keeps_nothing columns parentTables cName cNames results parentRec db results' :
  fst (commonRow columns parentTables (cName :: cNames) results parentRec db) = Ok results' ->
  results' = results.
Proof.
  unfold commonRow. cbn [every]. unfold hasCommon. rewrite !bind_run.
  destruct (hasValue _ _ _ db) as [[b|e] db1]; [|done]. simpl. by intros [= <-].
Qed.

Lemma getCommonTreeVals_Inv columns tree db :
  Inv db -> Inv (snd (getCommonTreeVals columns tree db)).
Proof.
  intros HI.
  by destruct (K_getCommonTreeVals EmptyString (fun id E => pairKey_not_empty id (eq_sym E))
                 columns tree db HI) as (? & _).
Qed.

Lemma compositeTables_Inv g proj m l db :
  Inv db -> Inv (snd (forM_ l (compositeTable g proj m) db)).
Proof.
  intros HI.
  assert (K : contract Inv (keeps EmptyString) (forM_ l (compositeTable g proj m))).
  { capply contract_forM_. intros e _. apply K_compositeTable.
    intros k E. by apply (nano_not_empty k). }
  by destruct (K db HI) as (? & _).
Qed.

Lemma mapM_cons_ok {A B} (f : A -> M B) x l db ys :
  fst (mapM f (x :: l) db) = Ok ys -> exists y ys', ys = y :: ys'.
Proof.
  cbn [mapM]. rewrite bind_run. destruct (f x db) as [[y|e] db1]; [|done].
  rewrite bind_run. fold (mapM f).
  destruct (mapM f l db1) as [[ys'|e] db2]; [|done]. simpl.
  intros [= <-]. eauto.
Qed.

Lemma getCommonTreeVals_empties columns parentId child children db id :
  Inv db ->
  fst (getCommonTreeVals columns (Node parentId (child :: children)) db) = Ok id ->
  recordsOf (pairKey parentId)
    (snd (getCommonTreeVals columns (Node parentId (child :: children)) db)) = [].
Proof.
  intros HI. cbn [getCommonTreeVals]. rewrite bind_run.
  assert (K1 : contract Inv (keeps EmptyString)
                 (mapM (getCommonTreeVals columns) (child :: children))).
  { capply contract_mapM. intros c _. apply K_getCommonTreeVals.
    intros pid E. by apply (pairKey_not_empty pid). }
  destruct (K1 db HI) as (HI1 & _).
  pose proof (mapM_cons_ok (getCommonTreeVals columns) child children db) as Hne.
  destruct (mapM (getCommonTreeVals columns) (child :: children) db) as [[cts|e] db1];
    [|done].
  destruct (Hne cts eq_refl) as (cName & cNames & ->). clear Hne. simpl in HI1.
  rewrite bind_run.
  assert (K2 : contract Inv (keeps EmptyString)
                 (getAllRecords (pairKey parentId)
                    (commonRow columns [fst parentId; snd parentId] (cName :: cNames)) [])).
  { apply K_getAllRecords. intros s r. apply K_commonRow. }
  destruct (K2 db1 HI1) as (HI2 & _).
  pose proof (getAllRecords_const (pairKey parentId)
                (commonRow columns [fst parentId; snd parentId] (cName :: cNames))
                (fun s r db0 s' => commonRow_keeps_nothing columns _ cName cNames s r db0 s')
                [] db1) as Hres.
  destruct (getAllRecords _ _ _ db1) as [[results|e] db2]; [|done].
  rewrite (Hres results eq_refl). clear Hres. simpl in HI2.
  rewrite bind_run.
  destruct (clearTable_contract (pairKey parentId) db2 HI2) as (HI3 & [_ Hw] & _).
  destruct (clearTable (pairKey parentId) db2) as [[[]|e] db3]; [|done]. simpl in HI3, Hw.
  rewrite bind_run. change (insertRecords (pairKey parentId) [] db3) with (Ok tt, db3).
  cbn beta iota. rewrite bind_run.
  assert (K4 : contract Inv (index_only (pairKey parentId))
                 (forM_ [fst parentId; snd parentId]
                    (fun t => hashTable (pairKey parentId) ("_id" +:+ t) true))).
  { capply contract_forM_. intros t _. apply hashTable_contract. }
  destruct (K4 db3 HI3) as (_ & Hio & _).
  destruct (forM_ _ _ db3) as [[[]|e] db4]; [|done]. simpl in *.
  intros _. by rewrite (index_only_recordsOf _ _ _ _ Hio).
Qed.
End TreeFacts.

(** ** Objects shared between a table and its callers *)

Section AliasingFacts.
Import Aliasing.

Lemma fieldsOf_assign_eq o k v st :
  o < length (objects st) -> fieldsOf (assignField o k v st) o = rset (fieldsOf st o) k v.
Proof.
  intros Ho. unfold fieldsOf, assignField. simpl.
  rewrite list_lookup_alter_eq.
  destruct (lookup_lt_is_Some_2 _ _ Ho) as [r Hr]. by rewrite Hr.
Qed.

Lemma fieldsOf_assign_ne o o' k v st :
  o <> o' -> fieldsOf (assignField o k v st) o' = fieldsOf st o'.
Proof.
  intros Hne. unfold fieldsOf, assignField. simpl. by rewrite list_lookup_alter_ne.
Qed.

Lemma fieldsOf_new fields st o :
  o < length (objects st) -> fieldsOf (snd (new_object fields st)) o = fieldsOf st o.
Proof. intros Ho. unfold fieldsOf, new_object. simpl. by rewrite lookup_app_l. Qed.

Lemma fieldsOf_new_eq fields st :
  fieldsOf (snd (new_object fields st)) (length (objects st)) = fields.
Proof.
  unfold fieldsOf, new_object. simpl. rewrite lookup_app_r by lia.
  by rewrite Nat.sub_diag.
Qed.

Lemma contents_assign_other o k v st pageId :
  (forall fs, files st !! pageId = Some fs -> o ∉ fs) ->
  contents pageId (assignField o k v st) = contents pageId st.
Proof.
  intros Ho. unfold contents. simpl. destruct (files st !! pageId) as [fs|] eqn:Hfs; [|done].
  simpl. apply map_ext_in. intros o' Hin%list_elem_of_In. apply fieldsOf_assign_ne.
  intros ->. by apply (Ho fs).
Qed.
End AliasingFacts.

(** * The claims *)

(** C1: for a tree node with at least one child, the test that decides
    whether a parent row is kept never succeeds, because its callback
    returns nothing: [commonRow] leaves [results] as it was for every parent
    row, and when [getCommonTreeVals] returns, the parent table holds no
    row, whatever the indexes of the children contain. *)
Theorem commonTreeVals_keeps_no_row `{JsBuiltins} (columns : list Column)
    (parentId : string * string) (child : Tree) (children : list Tree) (db : DB) :
  Inv db ->
  (forall parentTables cName cNames results parentRec db1 results',
     fst (commonRow columns parentTables (cName :: cNames) results parentRec db1) = Ok results' ->
     results' = results) /\
  (forall id,
     fst (getCommonTreeVals columns (Node parentId (child :: children)) db) = Ok id ->
     recordsOf (pairKey parentId)
       (snd (getCommonTreeVals columns (Node parentId (child :: children)) db)) = []).
Proof.
  intros HI. split.
  - intros parentTables cName cNames results parentRec db1 results'.
    apply commonRow_keeps_nothing.
  - intros id. by apply getCommonTreeVals_empties.
Qed.

Lemma commonTreeVals_keeps_no_row_witness :
  let db := snd (pairs_abc (H:=sampleHost) db_abc) in
  let run := getCommonTreeVals (H:=sampleHost) (cols term_abc) tree_abc db in
  Inv db /\
  recordsOf (pairKey ("a", "b")) db =
    [[("x", VNum 1); ("y", VNum 1); ("_id", VStr "a:nanoid#1|b:nanoid#3");
      ("_ida", VStr "a:nanoid#1"); ("_idb", VStr "b:nanoid#3")]] /\
  fst (hasValue (pairKey ("b", "c")) "_idb" (VStr "b:nanoid#3") db) = Ok true /\
  fst run = Ok ("a", "b") /\
  recordsOf (pairKey ("a", "b")) (snd run) = [].
Proof.
  intros db run.
  assert (HI : Inv db).
  { apply (compositeTables_Inv (H:=sampleHost)). apply after_Inv, Inv_empty. }
  assert (Hrun : fst run = Ok ("a", "b")) by (by vm_compute).
  split_and!; [done|by vm_compute|by vm_compute|done|].
  destruct (commonTreeVals_keeps_no_row (H:=sampleHost) (cols term_abc) ("a", "b")
              (Node ("b", "c") []) [] db HI) as [_ Hempty].
  exact (Hempty _ Hrun).
Defined.


(** C3 (amended): when the result table [R] is not the working table and
    is not one of the evaluator's temporary tables, every pass of the
    recursive term, from the state the driver enters its loop in and from
    the state after any number of passes, leaves a well-formed state in
    which [R] has at least as many records as before; the number the pass
    returns is [|R_after| - |R_before|] as [getNumberOfEntries] measures it,
    it is not negative, and the driver's loop stops after this pass exactly
    when it is [0]. *)
Theorem fixpoint_monotone `{JsBuiltins} (query : Query) (db : DB) (n : nat) :
  let W := wd_name (withDecl query) in
  let R := resultTableName query in
  R <> W -> (forall k, R <> nano k) -> (forall id, R <> pairKey id) -> Inv db ->
  let dbn := afterPasses n (recTerm query) W R (snd (beforeLoop query db)) in
  let pass := executeTerm (recTerm query) W R dbn in
  Inv dbn /\
  length (recordsOf R dbn) <= length (recordsOf R (snd pass)) /\
  (forall delta, fst pass = Ok delta ->
     delta = (Z.of_nat (length (recordsOf R (snd pass))) -
              Z.of_nat (length (recordsOf R dbn)))%Z /\
     (0 <= delta)%Z /\
     forall fuel,
       recursion (S fuel) (recTerm query) W R dbn =
       if (delta =? 0)%Z then (Ok tt, snd pass)
       else recursion fuel (recTerm query) W R (snd pass)) /\
  (forall e, fst pass = Throw e ->
     forall fuel, recursion (S fuel) (recTerm query) W R dbn = (Throw e, snd pass)).
Proof.
  intros W R HW Hn Hp HI dbn pass.
  assert (HIn : Inv dbn).
  { apply afterPasses_Inv; try done. by apply beforeLoop_Inv. }
  destruct (executeTerm_spec (recTerm query) W R dbn HW Hn Hp HIn) as (HI' & [_ HK] & _ & Hd).
  fold pass in HI', HK, Hd. split_and!; [done|done| |].
  - intros delta Hdelta. destruct (Hd delta Hdelta) as [E Hpos]. split_and!; [done|done|].
    intros fuel. cbn [recursion]. rewrite bind_run. fold pass.
    destruct pass as [[d|e] db']; simpl in *; [|done]. injection Hdelta as ->.
    destruct (Z.eqb_spec delta 0) as [->|Hne]; [done|].
    by rewrite (proj2 (Z.ltb_lt 0 delta)) by lia.
  - intros e He fuel. cbn [recursion]. rewrite bind_run. fold pass.
    destruct pass as [[d|e'] db']; simpl in *; [done|]. by injection He as ->.
Qed.

Lemma fixpoint_monotone_witness :
  let W := "t" in
  let R := "n" in
  let dbn := afterPasses (H:=sampleHost) 1 (recTerm query_closure) W R
               (snd (beforeLoop (H:=sampleHost) query_closure db_edges)) in
  let pass := executeTerm (H:=sampleHost) (recTerm query_closure) W R dbn in
  R <> W /\ Inv db_edges /\
  length (recordsOf R dbn) = 3 /\ fst pass = Ok 0%Z /\
  length (recordsOf R dbn) <= length (recordsOf R (snd pass)) /\
  recursion (H:=sampleHost) 1 (recTerm query_closure) W R dbn = (Ok tt, snd pass).
Proof.
  intros W R dbn pass.
  assert (HI : Inv db_edges) by apply after_Inv, Inv_empty.
  assert (HW : R <> W) by done.
  assert (Hn : forall k, R <> nano k).
  { intros k E. unfold R, nano in E. simpl in E. discriminate E. }
  assert (Hp : forall id, R <> pairKey id).
  { intros id E. unfold R, pairKey in E. simpl in E. discriminate E. }
  destruct (fixpoint_monotone (H:=sampleHost) query_closure db_edges 1 HW Hn Hp HI)
    as (_ & Hle & Hok & _).
  assert (Hpass : fst pass = Ok 0%Z) by (by vm_compute).
  split_and!; [done|done|by vm_compute|done|exact Hle|].
  destruct (Hok 0%Z Hpass) as (_ & _ & Hloop). exact (Hloop 0).
Defined.

(** C3, as claimed: with the working table as result table, a pass of the
    recursive term shrinks the table from two records to one and returns
    [-1], on which the loop stops. *)
Lemma fixpoint_shrinks_counterexample :
  let db1 := snd (beforeLoop (H:=sampleHost) query_shrink db_shrink) in
  let pass := executeTerm (H:=sampleHost) (recTerm query_shrink) "t" "t" db1 in
  Inv db_shrink /\
  resultTableName query_shrink = wd_name (withDecl query_shrink) /\
  length (recordsOf "t" db1) = 2 /\
  length (recordsOf "t" (snd pass)) = 1 /\
  fst pass = Ok (-1)%Z /\
  recursion (H:=sampleHost) 1 (recTerm query_shrink) "t" "t" db1 = (Ok tt, snd pass).
Proof.
  cbv zeta. split_and!; [apply after_Inv, Inv_empty|done|by vm_compute..].
Qed.

(** C4: as written, [blockJoin] looks its scans up on the class object and
    fails with a [TypeError] before it yields anything, whatever the tables
    hold; and with the scans taken from the instance, the inner scan is
    shared by the records of a block, so that only the first record of a
    block is joined: two records against two give two results, not four. *)
Theorem blockJoin_not_product :
  (forall t1 t2 projection shouldGenPairId db,
     blockJoin t1 t2 projection shouldGenPairId db = (Throw TypeError, db)) /\
  length (recordsOf "a" db_ab) * length (recordsOf "b" db_ab) = 4 /\
  fst (blockJoin_with true "a" "b" proj_ab false db_ab) =
    Ok [[("l", VStr "a1"); ("r", VStr "b1")]; [("l", VStr "a1"); ("r", VStr "b2")]].
Proof.
  split_and!.
  - reflexivity.
  - by vm_compute.
  - by vm_compute.
Qed.




(** C6.  Whatever sequence of catalog calls has been made since start-up,
    the next call never ends with the page-full error of the buffer's
    [insertRecord]; the page that [_getPageToInsert] then selects through the
    free-space queue of an existing table has a free slot. *)
Theorem page_full_unreachable (ops : list Op) (op : Op) :
  fst (runOp op (after ops emptyDB)) <> Throw E_PAGE_FULL /\
  forall t, is_Some (_tables (after ops emptyDB) !! t) ->
    exists pid s db' p,
      _getPageToInsert t (after ops emptyDB) = (Ok (pid, s), db') /\
      pages db' !! pid = Some p /\ length (_files p) < maxNoOfRecsPerFile.
Proof.
  pose proof (after_Inv ops emptyDB Inv_empty) as HI. split.
  - by destruct (runOp_Inv op _ HI) as (_ & ? & _).
  - intros t [pids Ht].
    destruct (getPageToInsert_spec _ t pids HI Ht)
      as (pid & s & db1 & pids1 & p & E1 & HI1 & Ht1 & Hpid1 & Hp1 & Hs & Hs1 & _).
    exists pid, s, db1, p. split_and!; try done.
    pose proof HI1 as [K1 _ _]. destruct (K1 t pids1 Ht1) as [_ _ K3 _ _ _].
    destruct (K3 pid Hpid1) as (k & p0 & _ & _ & Hp0 & Hl). rewrite Hp1 in Hp0.
    injection Hp0 as <-. unfold Page_spacesLeft in Hs. lia.
Qed.

(** C7: on a well-formed database, [getRecsFromHash] throws exactly when the
    table has no hash index on the column or the operator is neither [=] nor
    [>], and [hasValue] throws exactly when there is no such index; with an
    index, a right-hand side that is not a key ([=]) or that no key exceeds
    ([>]) gives the empty stream, and [hasValue] of a missing value gives
    [false]. *)
Theorem hash_lookup_errors `{JsBuiltins} (db : DB) (t c op : string) (rhs v : Value) :
  Inv db ->
  (isThrow (fst (collect (getRecsFromHash t c op rhs) db)) <->
     (~ exists idx, hasIndex db t c idx) \/ (op <> "=" /\ op <> ">")) /\
  (isThrow (fst (hasValue t c v db)) <-> ~ exists idx, hasIndex db t c idx) /\
  (forall idx, hasIndex db t c idx ->
     (hm_has idx rhs = false ->
        fst (collect (getRecsFromHash t c "=" rhs) db) = Ok []) /\
     (Forall (fun key => jsGt key rhs = false) (hm_keys idx) ->
        fst (collect (getRecsFromHash t c ">" rhs) db) = Ok []) /\
     (hm_has idx v = false -> fst (hasValue t c v db) = Ok false)).
Proof.
  intros HI. split_and!.
  - split.
    + intros Hthrow.
      destruct (reg_cases db t c) as [(idx & Hidx)|Hno]; [|by left].
      right. rewrite (runs_fst _ _ _ (getRecsFromHash_runs db t c idx op rhs HI Hidx)) in Hthrow.
      unfold lookupResult in Hthrow.
      destruct (String.eqb_spec op "="); [done|].
      destruct (String.eqb_spec op ">"); done.
    + intros [Hno|[H1 H2]]; [by apply getRecsFromHash_no_index|].
      destruct (reg_cases db t c) as [(idx & Hidx)|Hno];
        [|by apply getRecsFromHash_no_index].
      rewrite (runs_fst _ _ _ (getRecsFromHash_runs db t c idx op rhs HI Hidx)).
      unfold lookupResult.
      destruct (String.eqb_spec op "="); [done|].
      destruct (String.eqb_spec op ">"); done.
  - split.
    + intros Hthrow (idx & Hidx).
      by rewrite (runs_fst _ _ _ (hasValue_runs db t c idx v Hidx)) in Hthrow.
    + apply hasValue_no_index.
  - intros idx Hidx. split_and!.
    + intros Hhas.
      rewrite (runs_fst _ _ _ (getRecsFromHash_runs db t c idx "=" rhs HI Hidx)).
      unfold lookupResult. cbn [String.eqb Ascii.eqb Bool.eqb].
      by rewrite (hm_has_false _ _ Hhas).
    + intros Hall.
      rewrite (runs_fst _ _ _ (getRecsFromHash_runs db t c idx ">" rhs HI Hidx)).
      unfold lookupResult. cbn [String.eqb Ascii.eqb Bool.eqb].
      by rewrite (filter_none _ _ Hall).
    + intros Hhas. by rewrite (runs_fst _ _ _ (hasValue_runs db t c idx v Hidx)), Hhas.
Qed.

Lemma hash_lookup_errors_witness :
  Inv db_t /\
  hasIndex db_t "t" "_id" [(VStr "a", [(nano 0, 0)]); (VStr "b", [(nano 0, 1)])] /\
  fst (collect (getRecsFromHash (H:=sampleHost) "t" "_id" "=" (VStr "c")) db_t) = Ok [] /\
  fst (collect (getRecsFromHash (H:=sampleHost) "t" "_id" ">" (VStr "c")) db_t) = Ok [] /\
  fst (hasValue "t" "_id" (VStr "c") db_t) = Ok false.
Proof.
  assert (HI : Inv db_t) by apply after_Inv, Inv_empty.
  assert (Hidx : hasIndex db_t "t" "_id"
                   [(VStr "a", [(nano 0, 0)]); (VStr "b", [(nano 0, 1)])]).
  { eexists. split; vm_compute; reflexivity. }
  destruct (hash_lookup_errors (H:=sampleHost) db_t "t" "_id" "=" (VStr "c") (VStr "c") HI)
    as (_ & _ & K).
  destruct (K _ Hidx) as (K1 & K2 & K3).
  split_and!; [done|done|apply K1; reflexivity| |apply K3; reflexivity].
  apply K2. repeat constructor.
Defined.

(** C8: a scan hands out the stored objects themselves, and
    [insertUniqueRecordsById] stores the caller's object: an assignment
    through such a reference shows in what the page holds.  Only the direct
    access of [getRecsFromHash] and the insertion of [insertRecords] make a
    copy. *)
Theorem scans_and_unique_inserts_share_objects (st : Aliasing.Store) (pageId : string)
    (fs : list nat) (i o rec : nat) (k : string) (v : Value) :
  Aliasing.files st !! pageId = Some fs -> fs !! i = Some o ->
  Forall (fun o' => o' < length (Aliasing.objects st)) fs ->
  rec < length (Aliasing.objects st) ->
  length fs < maxNoOfRecsPerFile ->
  (fst (Aliasing.getAllRecords_page pageId st) = Ok fs /\
   Aliasing.contents pageId (Aliasing.assignField o k v st) !! i =
     Some (rset (Aliasing.fieldsOf st o) k v)) /\
  (let st' := snd (Aliasing.insertUnique_one pageId rec st) in
   Aliasing.files st' !! pageId = Some (fs ++ [rec]) /\
   Aliasing.contents pageId (Aliasing.assignField rec k v st') !! length fs =
     Some (rset (Aliasing.fieldsOf st rec) k v)) /\
  (let o' := length (Aliasing.objects st) in
   let st' := snd (Aliasing.getRecsFromHash_loc (pageId, i) st) in
   fst (Aliasing.getRecsFromHash_loc (pageId, i) st) = Ok o' /\
   Aliasing.fieldsOf st' o' = Aliasing.fieldsOf st o /\
   Aliasing.contents pageId (Aliasing.assignField o' k v st') = Aliasing.contents pageId st) /\
  (forall tableName id,
     let st' := snd (Aliasing.insertRecords_one tableName pageId id rec st) in
     length (Aliasing.contents pageId st') = S (length fs) /\
     Aliasing.contents pageId (Aliasing.assignField rec k v st') !! length fs =
     Aliasing.contents pageId st' !! length fs).
Proof.
  intros Hfs Hi Hall Hrec Hroom.
  assert (Hlt : forall o', o' ∈ fs -> o' < length (Aliasing.objects st)).
  { apply Forall_forall, Hall. }
  split; [split|split; [|split]].
  - unfold Aliasing.getAllRecords_page, Aliasing.getPageContents, Aliasing.cached.
    by rewrite Hfs.
  - unfold Aliasing.contents. cbn [Aliasing.assignField Aliasing.files]. rewrite Hfs.
    cbn [default from_option id]. rewrite list_lookup_fmap, Hi.
    cbn [fmap option_fmap option_map].
    f_equal. apply fieldsOf_assign_eq. apply Hlt. by eapply list_elem_of_lookup_2.
  - cbv zeta.
    unfold Aliasing.insertUnique_one, Aliasing.insertRecord, Aliasing.cached,
      Aliasing.Page_insertRecord.
    rewrite Hfs. rewrite (proj2 (Nat.ltb_lt _ _) Hroom). cbn [snd]. split.
    + cbn [Aliasing.files]. by rewrite lookup_insert_eq.
    + unfold Aliasing.contents. cbn [Aliasing.assignField Aliasing.files].
      rewrite lookup_insert_eq. cbn [default from_option id].
      rewrite list_lookup_fmap, lookup_app_r, Nat.sub_diag by lia.
      cbn [lookup list_lookup fmap option_fmap option_map]. f_equal.
      by rewrite fieldsOf_assign_eq.
  - cbv zeta.
    unfold Aliasing.getRecsFromHash_loc, Aliasing.getPageRecord, Aliasing.cached,
      Aliasing.Page_directAccess. cbn [fst snd]. rewrite Hfs, Hi. split_and!.
    + done.
    + apply (fieldsOf_new_eq (Aliasing.fieldsOf st o) st).
    + rewrite contents_assign_other.
      * unfold Aliasing.contents. cbn [Aliasing.new_object snd Aliasing.files]. rewrite Hfs.
        cbn [default from_option id]. apply map_ext_in. intros o' Hin%list_elem_of_In.
        apply (fieldsOf_new _ st). by apply Hlt.
      * cbn [Aliasing.new_object snd Aliasing.files]. intros fs' Hfs' Hin.
        rewrite Hfs in Hfs'. injection Hfs' as <-. specialize (Hlt _ Hin). lia.
  - intros tableName nid. cbv zeta.
    assert (K : exists o' st1,
      Aliasing.insertRecords_one tableName pageId nid rec st =
        Aliasing.insertRecord pageId o' st1 /\
      Aliasing.files st1 = Aliasing.files st /\ length (Aliasing.objects st) <= o').
    { unfold Aliasing.insertRecords_one. cbn [Aliasing.new_object].
      destruct (rhas _ "_id").
      - eexists _, _. split; [reflexivity|]. split; [done|]. simpl. lia.
      - eexists _, _. split; [reflexivity|]. split; [done|]. simpl. rewrite length_app. lia. }
    destruct K as (o' & st1 & -> & Hf1 & Ho').
    unfold Aliasing.insertRecord, Aliasing.cached, Aliasing.Page_insertRecord.
    rewrite Hf1, Hfs, (proj2 (Nat.ltb_lt _ _) Hroom). cbn [snd]. split.
    + unfold Aliasing.contents. cbn [Aliasing.files]. rewrite lookup_insert_eq.
      cbn [default from_option id]. by rewrite length_map, length_app, Nat.add_1_r.
    + unfold Aliasing.contents. cbn [Aliasing.assignField Aliasing.files].
      rewrite lookup_insert_eq. cbn [default from_option id].
      rewrite !list_lookup_fmap, lookup_app_r, Nat.sub_diag by lia.
      cbn [lookup list_lookup fmap option_fmap option_map]. f_equal.
      apply fieldsOf_assign_ne. lia.
Qed.

Lemma scans_and_unique_inserts_share_objects_witness :
  Aliasing.files Aliasing.st0 !! "p" = Some [0] /\
  Aliasing.contents "p" Aliasing.st0 = [[("_id", VStr "a"); ("c1", VNum 1)]] /\
  fst (Aliasing.getAllRecords_page "p" Aliasing.st0) = Ok [0] /\
  Aliasing.contents "p" (Aliasing.assignField 0 "c1" (VNum 9) Aliasing.st0) !! 0 =
    Some [("_id", VStr "a"); ("c1", VNum 9)] /\
  Aliasing.contents "p"
    (Aliasing.assignField 1 "c1" (VNum 9) (snd (Aliasing.insertUnique_one "p" 1 Aliasing.st0)))
    !! 1 = Some [("_id", VStr "b"); ("c1", VNum 9)].
Proof.
  assert (Hfs : Aliasing.files Aliasing.st0 !! "p" = Some [0]) by (by vm_compute).
  destruct (scans_and_unique_inserts_share_objects Aliasing.st0 "p" [0] 0 0 1 "c1" (VNum 9) Hfs)
    as ((H1 & H2) & (_ & H3) & _).
  - reflexivity.
  - repeat constructor.
  - simpl. lia.
  - unfold maxNoOfRecsPerFile. simpl. lia.
  - split_and!; [done|by vm_compute|exact H1|exact H2|exact H3].
Defined.

(** C9 (amended): for two different tables [A] and [B] of a well-formed
    database whose registries hold no [undefined] for the join columns,
    [hashJoin A x B y] and [hashJoin B y A x] with the same projection and
    [=] give the same records up to their order, or fail with the same
    error. *)
Theorem hashJoin_mirror `{JsBuiltins} (db : DB) (A x B y : string) (projection : list Proj) :
  Inv db -> A <> B ->
  is_Some (_tables db !! A) -> is_Some (_tables db !! B) ->
  definedIndex db A x -> definedIndex db B y ->
  sameOutcome (fst (collect (hashJoin A x B y projection "=" false) db))
              (fst (collect (hashJoin B y A x projection "=" false) db)).
Proof.
  intros HI Hne HA HB HdA HdB.
  destruct (withIndex_hasIndex A x db HI HA HdA) as (idxA & HidxA).
  destruct (withIndex_hasIndex B y db HI HB HdB) as (idxB & HidxB).
  pose proof (hasIndex_withIndex B y _ _ _ _ HidxA) as HidxA2.
  pose proof (hasIndex_withIndex A x _ _ _ _ HidxB) as HidxB2.
  rewrite (hashJoin_run db B y A x projection "=" idxB idxA HI HB HA HidxB2)
    by (by rewrite <- withIndex_comm).
  rewrite <- (withIndex_comm A x B y db Hne) in HidxB2 |- *.
  rewrite (hashJoin_run db A x B y projection "=" idxA idxB HI HA HB HidxA2 HidxB2).
  by apply joinResult_mirror.
Qed.

Lemma hashJoin_mirror_witness :
  Inv db_ab /\ "a" <> "b" /\
  sameOutcome
    (fst (collect (hashJoin (H:=sampleHost) "a" "x" "b" "y" proj_ab "=" false) db_ab))
    (fst (collect (hashJoin (H:=sampleHost) "b" "y" "a" "x" proj_ab "=" false) db_ab)) /\
  fst (collect (hashJoin (H:=sampleHost) "a" "x" "b" "y" proj_ab "=" false) db_ab) =
    Ok [[("l", VStr "a2"); ("r", VStr "b1")]; [("l", VStr "a2"); ("r", VStr "b2")]].
Proof.
  assert (HI : Inv db_ab) by apply after_Inv, Inv_empty.
  split_and!; [done|done| |by vm_compute].
  apply (hashJoin_mirror (H:=sampleHost) db_ab "a" "x" "b" "y" proj_ab HI); [done|..].
  - eexists. vm_compute. reflexivity.
  - eexists. vm_compute. reflexivity.
  - intros reg Hreg. vm_compute in Hreg. injection Hreg as <-. done.
  - intros reg Hreg. vm_compute in Hreg. injection Hreg as <-. done.
Defined.

(** C9, as claimed: joining [s] with itself on [x] and [y], and then on [y]
    and [x], gives two different records, since both joins project the
    record of their first argument. *)
Lemma hashJoin_mirror_self_counterexample :
  Inv db_s /\ is_Some (_tables db_s !! "s") /\
  definedIndex db_s "s" "x" /\ definedIndex db_s "s" "y" /\
  fst (collect (hashJoin (H:=sampleHost) "s" "x" "s" "y" proj_id "=" false) db_s) =
    Ok [[("id", VStr "b")]] /\
  fst (collect (hashJoin (H:=sampleHost) "s" "y" "s" "x" proj_id "=" false) db_s) =
    Ok [[("id", VStr "a")]] /\
  ~ sameOutcome
      (fst (collect (hashJoin (H:=sampleHost) "s" "x" "s" "y" proj_id "=" false) db_s))
      (fst (collect (hashJoin (H:=sampleHost) "s" "y" "s" "x" proj_id "=" false) db_s)).
Proof.
  split_and!.
  - apply after_Inv, Inv_empty.
  - eexists. vm_compute. reflexivity.
  - intros reg Hreg. vm_compute in Hreg. injection Hreg as <-. done.
  - intros reg Hreg. vm_compute in Hreg. injection Hreg as <-. done.
  - by vm_compute.
  - by vm_compute.
  - vm_compute. intros HP. apply Permutation_singleton_inj in HP. discriminate HP.
Qed.

(** C10.  [drop] of a name that is not in the catalog returns normally and
    leaves the whole state (tables, free-space queues, column lists, hash
    indexes, pages and buffer) as it was. *)
Theorem drop_unknown_is_noop (t : string) (db : DB) :
  _tables db !! t = None -> drop t db = (Ok tt, db).
Proof.
  intros Ht. unfold drop. rewrite bind_run, gets_run. cbn beta iota.
  rewrite bool_decide_eq_false_2; [done|]. rewrite Ht. by intros [? ?].
Qed.

Lemma drop_unknown_is_noop_witness :
  _tables db_t !! "ghost" = None /\ drop "ghost" db_t = (Ok tt, db_t).
Proof.
  split; [by vm_compute|]. apply (drop_unknown_is_noop "ghost" db_t). by vm_compute.
Defined.


(** * Further properties *)

(** ** The catalog after any sequence of calls *)

(** X1.  After any sequence of catalog calls since start-up, every table has
    at least one page and no page twice, no page belongs to two tables,
    every page of a table exists and holds at most [maxNoOfRecsPerFile]
    records, and the free-space queue of the table has exactly one entry per
    page, with the number of free slots the page really has. *)
Theorem catalog_consistent (ops : list Op) (t : string) (pids : list string) :
  let db := after ops emptyDB in
  _tables db !! t = Some pids ->
  pids <> [] /\ NoDup pids /\
  (forall t' pids' pid, _tables db !! t' = Some pids' -> pid ∈ pids -> pid ∈ pids' -> t' = t) /\
  (forall pid, pid ∈ pids ->
     exists p, pages db !! pid = Some p /\ length (_files p) <= maxNoOfRecsPerFile) /\
  exists q, _tablePageSpaces db !! t = Some q /\ map fst q ≡ₚ pids /\
            Forall (fun e => exists p, pages db !! fst e = Some p /\
                                       snd e = maxNoOfRecsPerFile - length (_files p)) q.
Proof.
  intros db Ht. assert (HI : Inv db) by apply after_Inv, Inv_empty.
  destruct HI as [H1 H2 _]. destruct (H1 t pids Ht) as [K1 K2 K3 (q & Hq & Hperm & Hsp) _ _].
  split_and!; [done|done| | |].
  - intros t' pids' pid Ht' Hin Hin'. by apply (H2 t' t pids' pids pid).
  - intros pid Hin. destruct (K3 pid Hin) as (k & p & _ & _ & Hp & Hl). eauto.
  - exists q. split_and!; [done|done|done].
Qed.

Lemma catalog_consistent_witness :
  _tables db_t !! "t" = Some [nano 0] /\
  exists q, _tablePageSpaces db_t !! "t" = Some q /\ map fst q ≡ₚ [nano 0].
Proof.
  assert (Ht : _tables db_t !! "t" = Some [nano 0]) by (by vm_compute).
  split; [done|].
  destruct (catalog_consistent ops_t "t" [nano 0] Ht) as (_ & _ & _ & _ & q & Hq & Hp & _).
  eauto.
Defined.

(** ** What [insertRecords] stores *)

Lemma insertRecords_for_exact t pid n : forall recs db pids p,
  InvH (Some (t, pid)) db -> _tables db !! t = Some pids -> pid ∈ pids ->
  pages db !! pid = Some p -> length (_files p) + n <= maxNoOfRecsPerFile ->
  pid ∈ _buf db ->
  exists db' p' stored,
    insertRecords_for t pid n recs db = (Ok (List.skipn n recs), db') /\
    InvH (Some (t, pid)) db' /\ pages db' !! pid = Some p' /\
    _tables db' = _tables db /\ _tablePageSpaces db' = _tablePageSpaces db /\
    _tableCols db' = _tableCols db /\ _tableHashes db' = _tableHashes db /\
    recordsOf t db' ≡ₚ recordsOf t db ++ stored /\
    Forall2 (storedAs t) (List.firstn n recs) stored /\
    (forall t', t' <> t -> untouched t' db db').
Proof.
  induction n as [|n IH]; intros recs db pids p HI Ht Hpid Hp Hlen Hbuf.
  - exists db, p, []. rewrite app_nil_r. destruct recs; simpl; split_and!; try done.
  - destruct recs as [|r recs].
    { exists db, p, []. rewrite app_nil_r. simpl. split_and!; done. }
    cbn [insertRecords_for].
    set (stored := if rhas r "_id" then r
                   else ("_id", VStr (t +:+ ":" +:+ nano (seed db))) :: r).
    set (db0 := if rhas r "_id" then db else set_seed S db).
    assert (E0 : (if rhas r "_id" then ret r
                  else nanoid ≫= fun id => ret (("_id", VStr (t +:+ ":" +:+ id)) :: r)) db
                 = (Ok stored, db0)).
    { unfold stored, db0. by destruct (rhas r "_id"). }
    assert (HI0 : InvH (Some (t, pid)) db0).
    { unfold db0. destruct (rhas r "_id"); [done|by apply InvH_seed]. }
    assert (Hf0 : pages db0 = pages db /\ _buf db0 = _buf db /\ _tables db0 = _tables db /\
                  _tablePageSpaces db0 = _tablePageSpaces db /\ _tableCols db0 = _tableCols db /\
                  _tableHashes db0 = _tableHashes db).
    { unfold db0. by destruct (rhas r "_id"). }
    destruct Hf0 as (F1 & F2 & F3 & F4 & F5 & F6).
    rewrite (bind_ok _ _ _ _ _ E0).
    assert (Hp0 : pages db0 !! pid = Some p) by by rewrite F1.
    assert (Ht0 : _tables db0 !! t = Some pids) by by rewrite F3.
    assert (Hb0 : pid ∈ _buf db0) by by rewrite F2.
    assert (Hl0 : length (_files p) < maxNoOfRecsPerFile) by lia.
    rewrite (bind_ok _ _ _ _ _ (buf_insertRecord_ok db0 pid p stored Hb0 Hp0 Hl0)).
    set (db1 := set_pages _ _).
    pose proof (InvH_insert_record db0 t pids pid p stored HI0 Ht0 Hpid Hp0 Hl0) as K.
    assert (HI1 : InvH (Some (t, pid)) db1) by by apply (InvH_ext _ _ db1) in K.
    destruct (IH recs db1 pids (mkPage (_files p ++ [stored]))) as
      (db' & p' & st & E & HI' & Hp' & G1 & G2 & G3 & G4 & G6 & G5 & G7); try done.
    + unfold db1. simpl. by rewrite lookup_insert_eq.
    + simpl. rewrite length_app. simpl. lia.
    + unfold db1. simpl. apply lru_touch_in.
    + exists db', p', (stored :: st). split; [done|].
      assert (D1 : _tables db1 = _tables db) by (unfold db1; simpl; congruence).
      assert (D2 : _tablePageSpaces db1 = _tablePageSpaces db) by (unfold db1; simpl; congruence).
      assert (D3 : _tableCols db1 = _tableCols db) by (unfold db1; simpl; congruence).
      assert (D4 : _tableHashes db1 = _tableHashes db) by (unfold db1; simpl; congruence).
      split_and!; try done; try congruence.
      * rewrite G6.
        pose proof (recordsOf_insert _ db0 t pids pid p stored HI0 Ht0 Hpid Hp0) as Hperm.
        assert (E1 : recordsOf t db1 = recordsOf t
                       (set_pages (<[pid := mkPage (_files p ++ [stored])]>) db0)) by done.
        assert (E2 : recordsOf t db0 = recordsOf t db).
        { unfold recordsOf, filesOf. by rewrite F1, F3. }
        rewrite E1, Hperm, E2. by rewrite <- app_assoc.
      * cbn [firstn]. constructor; [|done]. unfold storedAs, stored.
        destruct (rhas r "_id"); [done|by eexists].
      * intros t' Hne. eapply untouched_trans; [|by apply G7].
        pose proof (untouched_insert _ db0 t pids pid (mkPage (_files p ++ [stored])) t'
                      HI0 Ht0 Hpid Hne) as (A1 & A2 & A3 & A4 & A5).
        unfold untouched. simpl in *. rewrite <- F1, <- F3, <- F4, <- F5, <- F6.
        split_and!; try done.
Qed.

Lemma insertRecords_while_exact t : forall fuel recs db pids,
  Inv db -> _tables db !! t = Some pids -> length recs <= fuel ->
  exists db' stored,
    insertRecords_while fuel t recs db = (Ok tt, db') /\ Inv db' /\
    is_Some (_tables db' !! t) /\
    recordsOf t db' ≡ₚ recordsOf t db ++ stored /\
    Forall2 (storedAs t) recs stored /\
    _tableHashes db' = _tableHashes db /\ _tableCols db' = _tableCols db /\
    (forall t', t' <> t -> untouched t' db db').
Proof.
  induction fuel as [|fuel IH]; intros recs db pids HI Ht Hfuel.
  { destruct recs; [|simpl in Hfuel; lia]. exists db, []. rewrite app_nil_r.
    simpl. split_and!; auto; intros t' _; unfold untouched; done. }
  destruct recs as [|r0 recs0].
  { exists db, []. rewrite app_nil_r. simpl. split_and!; auto; intros t' _; unfold untouched; done. }
  set (recs := r0 :: recs0) in *.
  destruct (getPageToInsert_spec db t pids HI Ht)
    as (pid & s & db1 & pids1 & p & E1 & HI1 & Ht1 & Hpid1 & Hp1 & Hs & Hs1 &
        Eb & Eh & Ec & Ese & Hrec1 & Hunt1).
  set (db2 := set_buf (fun c => if bool_decide (pid ∈ c) then c else lru_set pid c) db1).
  assert (HI2 : InvH (Some (t, pid)) db2) by by apply InvH_set_buf.
  assert (Hlen : length (_files p) + s <= maxNoOfRecsPerFile).
  { pose proof HI1 as [K1 _ _]. destruct (K1 t pids1 Ht1) as [_ _ K3 _ _ _].
    destruct (K3 pid Hpid1) as (k & p0 & _ & _ & Hp0 & Hl). rewrite Hp1 in Hp0.
    injection Hp0 as <-. unfold Page_spacesLeft in Hs. lia. }
  destruct (insertRecords_for_exact t pid s recs db2 pids1 p HI2 Ht1 Hpid1 Hp1 Hlen)
    as (db3 & p3 & st3 & E3 & HI3 & Hp3 & G1 & G2 & G3 & G4 & G5 & G6 & G7).
  { unfold db2. simpl. apply resident_after. }
  assert (Ht3 : _tables db3 !! t = Some pids1) by (rewrite G1; done).
  destruct (InvH_queue_of _ db3 t pids1 HI3 Ht3) as (q3 & Hq3).
  set (db4 := set_tablePageSpaces (<[t := q_add (pid, Page_spacesLeft p3) q3]>) db3).
  assert (E : insertRecords_while (S fuel) t recs db =
              insertRecords_while fuel t (List.skipn s recs) db4).
  { unfold recs at 1. cbn [insertRecords_while].
    rewrite (bind_ok _ _ _ _ _ E1).
    rewrite (bind_ok _ _ _ _ _ (tableGet_ok _ _ _ _ Ht1 Hpid1)).
    rewrite make_resident_bind. fold db2. fold recs.
    rewrite (bind_ok _ _ _ _ _ E3).
    rewrite (bind_ok _ _ _ _ _ (spacesLeftOf_ok db3 pid p3 Hp3)).
    by rewrite (bind_ok _ _ _ _ _ (queue_add_run db3 t _ q3 Hq3)). }
  rewrite E.
  assert (HI4 : Inv db4) by by apply (InvH_queue_add db3 t pid _ q3 HI3 Hq3 Hp3).
  assert (Hrest : length (List.skipn s recs) <= fuel).
  { rewrite length_skipn. unfold recs in *. simpl in *. lia. }
  assert (Ht4 : _tables db4 !! t = Some pids1) by done.
  destruct (IH (List.skipn s recs) db4 pids1 HI4 Ht4 Hrest)
    as (db' & st & J0 & J1 & J2 & J3 & J4 & J5 & J6 & J7).
  exists db', (st3 ++ st). split_and!; try done.
  - rewrite J3.
    assert (E4 : recordsOf t db4 = recordsOf t db3) by done.
    assert (E2 : recordsOf t db2 = recordsOf t db1) by done.
    rewrite E4, G5, E2, (Hrec1 t). by rewrite <- app_assoc.
  - rewrite <- (firstn_skipn s recs). by apply Forall2_app.
  - rewrite J5. unfold db4. simpl. rewrite G4. unfold db2. simpl. done.
  - rewrite J6. unfold db4. simpl. rewrite G3. unfold db2. simpl. done.
  - intros t' Hne. eapply untouched_trans; [by apply Hunt1|].
    eapply untouched_trans; [apply (untouched_set_buf t' db1)|].
    eapply untouched_trans; [by apply G7|].
    eapply untouched_trans; [|by apply J7].
    unfold untouched, db4. simpl. rewrite lookup_insert_ne by done. done.
Qed.

(** X2.  On a well-formed catalog, [insertRecords] into an existing table
    returns normally and stores every record of the batch, none twice: the
    table then holds its old records and, for each record of the batch, that
    record itself when it carries an [_id], or else that record with a
    generated [_id] of the form [table:nanoid].  The entry count grows by the
    size of the batch and the records of the other tables are as before. *)
Theorem insertRecords_stores_batch (t : string) (recs : list Record) (db : DB)
    (pids : list string) :
  Inv db -> _tables db !! t = Some pids ->
  exists db' stored,
    insertRecords t recs db = (Ok tt, db') /\
    recordsOf t db' ≡ₚ recordsOf t db ++ stored /\
    Forall2 (storedAs t) recs stored /\
    fst (getNumberOfEntries t db') =
      Ok (Z.of_nat (length (recordsOf t db) + length recs)) /\
    forall t', t' <> t -> recordsOf t' db' = recordsOf t' db.
Proof.
  intros HI Ht. unfold insertRecords.
  destruct (insertRecords_while_exact t (length recs) recs db pids HI Ht (le_n _))
    as (db' & stored & E & HI' & (pids' & Ht') & Hperm & Hst & _ & _ & Hunt).
  exists db', stored. split_and!; try done.
  - rewrite (getNumberOfEntries_run db' t pids' HI' Ht'). simpl.
    rewrite Hperm, length_app, (Forall2_length _ _ _ Hst). done.
  - intros t' Hne. by apply untouched_recordsOf, Hunt.
Qed.

Lemma insertRecords_stores_batch_witness :
  exists db' stored,
    insertRecords "t" [[("c1", VNum 7)]] db_t = (Ok tt, db') /\
    recordsOf "t" db' ≡ₚ recordsOf "t" db_t ++ stored /\
    Forall2 (storedAs "t") [[("c1", VNum 7)]] stored.
Proof.
  assert (HI : Inv db_t) by apply after_Inv, Inv_empty.
  assert (Ht : _tables db_t !! "t" = Some [nano 0]) by (by vm_compute).
  destruct (insertRecords_stores_batch "t" [[("c1", VNum 7)]] db_t [nano 0] HI Ht)
    as (db' & stored & E & Hp & Hs & _).
  by exists db', stored.
Defined.

(** X3.  [insertRecords] maintains no index: whatever [hasValue] answered for
    a column and a value before the call, it answers the same afterwards,
    also where the batch has just stored a record with that value. *)
Theorem insertRecords_leaves_indexes_stale (t : string) (recs : list Record) (db : DB)
    (pids : list string) (c : string) (v : Value) :
  Inv db -> _tables db !! t = Some pids ->
  fst (hasValue t c v (snd (insertRecords t recs db))) = fst (hasValue t c v db).
Proof.
  intros HI Ht. unfold insertRecords.
  destruct (insertRecords_while_exact t (length recs) recs db pids HI Ht (le_n _))
    as (db' & stored & E & _ & _ & _ & _ & Hh & _). rewrite E. cbn [snd].
  unfold hasValue, isTableHashed, getIndex. mred. rewrite Hh.
  destruct (_tableHashes db !! t) as [reg|]; [|done]. mred.
  destruct (negb _); [done|]. mred. rewrite Hh.
  destruct (_tableHashes db !! t) as [reg'|]; [|done]. mred.
  by destruct (mjoin (reg' !! c)).
Qed.

Lemma insertRecords_leaves_indexes_stale_witness :
  fst (hasValue "t" "_id" (VStr "z")
         (snd (insertRecords "t" [[("_id", VStr "z")]] db_t))) = Ok false.
Proof.
  assert (HI : Inv db_t) by apply after_Inv, Inv_empty.
  assert (Ht : _tables db_t !! "t" = Some [nano 0]) by (by vm_compute).
  rewrite (insertRecords_leaves_indexes_stale "t" [[("_id", VStr "z")]] db_t [nano 0]
             "_id" (VStr "z") HI Ht).
  by vm_compute.
Defined.

(** ** Scans *)

Lemma foldR_concat {S A} (g : S -> A -> Res S) (ll : list (list A)) : forall s,
  foldR (fun s l => foldR g l s) ll s = foldR g (concat ll) s.
Proof.
  assert (Happ : forall l1 l2 s, foldR g (l1 ++ l2) s =
            match foldR g l1 s with Ok s' => foldR g l2 s' | Throw e => Throw e end).
  { induction l1 as [|x l1 IH]; intros l2 s; simpl; [done|].
    destruct (g s x); [apply IH|done]. }
  induction ll as [|l ll IH]; intros s; simpl; [done|].
  rewrite Happ. destruct (foldR g l s); [apply IH|done].
Qed.

Lemma foldR_map {S A B} (g : S -> B -> Res S) (h : A -> B) (l : list A) : forall s,
  foldR g (map h l) s = foldR (fun s x => g s (h x)) l s.
Proof.
  induction l as [|x l IH]; intros s; simpl; [done|]. destruct (g s (h x)); [apply IH|done].
Qed.

(** a scan hands the records of the table to its consumer in storage order *)
Lemma getAllRecords_runs {S} db t pids (f : S -> Record -> M S) (g : S -> Record -> Res S) s :
  Inv db -> _tables db !! t = Some pids ->
  (forall s r, runs db (f s r) (g s r)) ->
  runs db (getAllRecords t f s) (foldR g (recordsOf t db) s).
Proof.
  intros HI Ht Hf. unfold getAllRecords, recordsOf. rewrite Ht.
  eapply runs_bind.
  { apply (runs_gets db (fun db => _tables db !! t)). done. }
  rewrite Ht. eapply runs_bind; [apply (runs_defined db (Some pids))|].
  rewrite <- foldR_concat, foldR_map.
  apply runs_foldM. intros s' pid Hpid.
  destruct (table_pages_exist _ _ _ _ HI Ht pid Hpid) as [_ [p Hp]].
  intros c. destruct (read_page (set_buf (fun _ => c) db) t pids pid p Ht Hpid Hp) as (c1 & E1).
  revert E1. mred.
  destruct (ensurePage t pid (set_buf (fun _ => c) db)) as [[[]|e] db1]; [|done].
  intros E1. rewrite E1. unfold filesOf. rewrite Hp.
  destruct (runs_foldM db f g (_files p) (fun s r _ => Hf s r) s' c1) as (c2 & E2).
  exists c2. exact E2.
Qed.

Lemma foldR_filter_app (p : Record -> bool) (l : list Record) : forall s,
  foldR (fun acc r => if p r then Ok (acc ++ [r]) else Ok acc) l s = Ok (s ++ List.filter p l).
Proof.
  induction l as [|r l IH]; intros s; simpl; [by rewrite app_nil_r|].
  destruct (p r); rewrite IH; [|done]. by rewrite <- app_assoc.
Qed.

(** X4.  On a well-formed catalog, a scan of an existing table with
    [getAllRecords] yields exactly the stored records of the table, page
    after page in storage order, and [filterRecords] yields those of them
    that satisfy the filter, in the same order; both change nothing but the
    page buffer.  On an unknown table both raise a [TypeError]. *)
Theorem scans_yield_stored_records (t : string) (p : Record -> bool) (db : DB) :
  Inv db ->
  match _tables db !! t with
  | Some _ =>
      runs db (collect (getAllRecords t)) (Ok (recordsOf t db)) /\
      runs db (collect (filterRecords t p)) (Ok (List.filter p (recordsOf t db)))
  | None =>
      collect (getAllRecords t) db = (Throw TypeError, db) /\
      collect (filterRecords t p) db = (Throw TypeError, db)
  end.
Proof.
  intros HI. destruct (_tables db !! t) as [pids|] eqn:Ht.
  - split.
    + unfold collect.
      pose proof (getAllRecords_runs db t pids (fun acc r => ret (acc ++ [r]))
                    (fun acc r => Ok (acc ++ [r])) [] HI Ht) as K.
      rewrite (foldR_app (fun r => [r])) in K. rewrite map_as_flat_map, map_id in K.
      apply K. intros s r. apply runs_ret.
    + unfold collect, filterRecords.
      pose proof (getAllRecords_runs db t pids
                    (fun acc r => if p r then ret (acc ++ [r]) else ret acc)
                    (fun acc r => if p r then Ok (acc ++ [r]) else Ok acc) [] HI Ht) as K.
      rewrite foldR_filter_app in K. apply K.
      intros s r. destruct (p r); apply runs_ret.
  - unfold collect, filterRecords, getAllRecords. mred. by rewrite Ht.
Qed.

Lemma scans_yield_stored_records_witness :
  runs db_t (collect (getAllRecords "t")) (Ok [rec_a; rec_b]) /\
  runs db_t (collect (filterRecords "t" (fun r => bool_decide (rget r "c1" = VNum 2))))
    (Ok [rec_b]).
Proof.
  assert (HI : Inv db_t) by apply after_Inv, Inv_empty.
  exact (scans_yield_stored_records "t" (fun r => bool_decide (rget r "c1" = VNum 2)) db_t HI).
Defined.

(** X5.  On a well-formed catalog, [getNumberOfEntries] returns the number of
    records the table holds and changes nothing; on an unknown table it
    raises a [TypeError]. *)
Theorem getNumberOfEntries_counts_records (t : string) (db : DB) :
  Inv db ->
  getNumberOfEntries t db =
    (match _tables db !! t with
     | Some _ => Ok (Z.of_nat (length (recordsOf t db)))
     | None => Throw TypeError
     end, db).
Proof.
  intros HI. destruct (_tables db !! t) as [pids|] eqn:Ht.
  - by apply (getNumberOfEntries_run db t pids).
  - by apply getNumberOfEntries_unknown.
Qed.

Lemma getNumberOfEntries_counts_records_witness :
  getNumberOfEntries "t" db_t = (Ok 2%Z, db_t) /\
  getNumberOfEntries "u" db_t = (Throw TypeError, db_t).
Proof.
  assert (HI : Inv db_t) by apply after_Inv, Inv_empty.
  split.
  - exact (getNumberOfEntries_counts_records "t" db_t HI).
  - exact (getNumberOfEntries_counts_records "u" db_t HI).
Defined.

(** ** Clearing, dropping and declaring tables *)

(** X6.  On a well-formed catalog, [clearTable] on an existing table returns
    normally and leaves the table declared, with the pages and columns it had
    but without any record (the entry count is 0) and without any index
    ([hasValue] raises the must-hash error for every column); every other
    table is untouched.  On an unknown table it raises a [TypeError] and
    changes nothing. *)
Theorem clearTable_empties_table (t : string) (db : DB) :
  Inv db ->
  match _tables db !! t with
  | Some pids =>
      exists db',
        clearTable t db = (Ok tt, db') /\ Inv db' /\
        _tables db' !! t = Some pids /\ _tableCols db' !! t = _tableCols db !! t /\
        recordsOf t db' = [] /\
        getNumberOfEntries t db' = (Ok 0%Z, db') /\
        (forall c v, hasValue t c v db' = (Throw E_MUST_HASH, db')) /\
        (forall t', t' <> t -> untouched t' db db')
  | None => clearTable t db = (Throw TypeError, db)
  end.
Proof.
  intros HI. destruct (_tables db !! t) as [pids|] eqn:Ht.
  - destruct (clearTable_run db t pids HI Ht) as (c & E).
    pose proof (Inv_cleared db t pids c HI Ht) as HI'.
    pose proof (recordsOf_cleared db t pids c Ht) as Hrec.
    exists (clearedState t pids c db). split_and!; try done.
    + rewrite (getNumberOfEntries_run _ t pids HI'); [|done]. by rewrite Hrec.
    + intros col v. unfold hasValue, isTableHashed. mred. simpl.
      rewrite lookup_insert_eq. mred. rewrite lookup_empty.
      rewrite bool_decide_eq_false_2 by (by intros [? ?]). done.
    + intros t' Hne. by apply untouched_cleared.
  - unfold clearTable. mred. by rewrite Ht.
Qed.

Lemma clearTable_empties_table_witness :
  exists db', clearTable "t" db_t = (Ok tt, db') /\ recordsOf "t" db' = [].
Proof.
  assert (HI : Inv db_t) by apply after_Inv, Inv_empty.
  destruct (clearTable_empties_table "t" db_t HI) as (db' & E & _ & _ & _ & Hr & _).
  by exists db'.
Defined.

(** X7.  On a well-formed catalog, [drop] on an existing table returns
    normally and removes the table from every catalog map (pages, free-space
    queues, indexes, columns), so that the name can be declared again with
    [addTable]; every other table is untouched. *)
Theorem drop_removes_table (t : string) (cols : list ColKey) (db : DB) (pids : list string) :
  Inv db -> _tables db !! t = Some pids ->
  exists db',
    drop t db = (Ok tt, db') /\ Inv db' /\
    _tables db' !! t = None /\ _tablePageSpaces db' !! t = None /\
    _tableHashes db' !! t = None /\ _tableCols db' !! t = None /\
    fst (addTable t cols db') = Ok true /\
    (forall t', t' <> t -> untouched t' db db').
Proof.
  intros HI Ht. destruct (clearTable_run db t pids HI Ht) as (c & E).
  exists (droppedState t (clearedState t pids c db)).
  assert (Hd : _tables (droppedState t (clearedState t pids c db)) !! t = None).
  { simpl. by rewrite lookup_delete_eq. }
  split_and!.
  - unfold drop. rewrite bind_run, gets_run. cbn beta iota.
    rewrite bool_decide_eq_true_2 by (rewrite Ht; eauto).
    rewrite (bind_ok _ _ _ _ _ E). by mred.
  - by apply Inv_dropped, Inv_cleared.
  - done.
  - simpl. by rewrite lookup_delete_eq.
  - simpl. by rewrite lookup_delete_eq.
  - simpl. by rewrite lookup_delete_eq.
  - by rewrite (addTable_run_new _ _ _ Hd).
  - intros t' Hne. eapply untouched_trans; [by apply (untouched_cleared db t pids c)|].
    unfold untouched. simpl. rewrite !lookup_delete_ne by done. done.
Qed.

Lemma drop_removes_table_witness :
  exists db', drop "t" db_t = (Ok tt, db') /\ _tables db' !! "t" = None.
Proof.
  assert (HI : Inv db_t) by apply after_Inv, Inv_empty.
  assert (Ht : _tables db_t !! "t" = Some [nano 0]) by (by vm_compute).
  destruct (drop_removes_table "t" [] db_t [nano 0] HI Ht) as (db' & E & _ & Hn & _).
  by exists db'.
Defined.

(** X8.  On a well-formed catalog, [addTable] with a name that is not in use
    returns [true] and declares a table of one empty page: no record, no
    index, the given column list; every other table is untouched.  With a
    name in use it returns [false] and changes nothing, the declared columns
    of the table included. *)
Theorem addTable_declares_empty_table (t : string) (cols : list ColKey) (db : DB) :
  Inv db ->
  match _tables db !! t with
  | None =>
      exists db' pid,
        addTable t cols db = (Ok true, db') /\ Inv db' /\
        _tables db' !! t = Some [pid] /\ pages db' !! pid = Some (mkPage []) /\
        recordsOf t db' = [] /\
        getTableKeys t db' = (Ok cols, db') /\
        (forall c, isTableHashed t c db' = (Ok false, db')) /\
        (forall t', t' <> t -> untouched t' db db')
  | Some _ => addTable t cols db = (Ok false, db)
  end.
Proof.
  intros HI. destruct (_tables db !! t) as [pids|] eqn:Ht.
  - apply addTable_run_known. rewrite Ht. eauto.
  - exists (newPageState t [] [] (declaredState t cols db)), (nano (seed db)).
    split_and!.
    + by apply addTable_run_new.
    + by apply Inv_added.
    + simpl. by rewrite lookup_insert_eq.
    + simpl. by rewrite lookup_insert_eq.
    + unfold recordsOf, filesOf. simpl. rewrite !lookup_insert_eq. simpl.
      by rewrite lookup_insert_eq.
    + unfold getTableKeys. mred. simpl. by rewrite lookup_insert_eq.
    + intros c. unfold isTableHashed. mred. simpl. rewrite lookup_insert_eq. mred.
      rewrite lookup_empty. by rewrite bool_decide_eq_false_2 by (by intros [? ?]).
    + intros t' Hne. unfold untouched. simpl. rewrite !lookup_insert_ne by done.
      split_and!; try done. intros pids pid Ht' Hpid.
      rewrite lookup_insert_ne; [done|]. intros E. symmetry in E. revert E.
      by eapply Inv_fresh.
Qed.

Lemma addTable_declares_empty_table_witness :
  addTable "t" [] db_t = (Ok false, db_t) /\
  exists db' pid, addTable "u" [KStr "x"] db_t = (Ok true, db') /\
                  _tables db' !! "u" = Some [pid].
Proof.
  assert (HI : Inv db_t) by apply after_Inv, Inv_empty.
  split.
  - exact (addTable_declares_empty_table "t" [] db_t HI).
  - destruct (addTable_declares_empty_table "u" [KStr "x"] db_t HI)
      as (db' & pid & E & _ & Ht & _).
    by exists db', pid.
Defined.

(** ** Indexes built by [hashTable] *)

Lemma index_page_get c v pid files : forall (idx : list (Value * list (string * nat))) i,
  default [] (hm_get (index_page c pid files idx i) v) =
  default [] (hm_get idx v) ++ locsOf c v pid i files.
Proof.
  induction files as [|r files IH]; intros idx i; cbn [index_page locsOf].
  - by rewrite app_nil_r.
  - rewrite IH, hm_get_index_add. destruct (decide (rget r c = v)) as [->|Hne].
    + cbn [default from_option id]. by rewrite <- app_assoc.
    + done.
Qed.

Lemma index_pages_get c v db pids : forall (idx : list (Value * list (string * nat))),
  default [] (hm_get (index_pages c db pids idx) v) =
  default [] (hm_get idx v) ++ flat_map (fun pid => locsOf c v pid 0 (filesOf db pid)) pids.
Proof.
  unfold index_pages. induction pids as [|pid pids IH]; intros idx; cbn [fold_left flat_map].
  - by rewrite app_nil_r.
  - rewrite IH, index_page_get. by rewrite <- app_assoc.
Qed.

Lemma recordAt_locsOf c v db pid : forall rest pre,
  filesOf db pid = pre ++ rest ->
  map (recordAt db) (locsOf c v pid (length pre) rest) = withValue c v rest.
Proof.
  induction rest as [|r rest IH]; intros pre E; cbn [locsOf]; [done|].
  rewrite map_app. unfold withValue. cbn [List.filter].
  assert (E' : filesOf db pid = (pre ++ [r]) ++ rest) by by rewrite <- app_assoc.
  specialize (IH (pre ++ [r]) E'). rewrite length_app in IH. cbn [length] in IH.
  rewrite Nat.add_1_r in IH. rewrite IH.
  destruct (decide (rget r c = v)) as [Hv|Hv].
  - rewrite (bool_decide_eq_true_2 _ Hv). cbn [map app]. f_equal.
    unfold recordAt. cbn [fst snd]. rewrite E.
    rewrite lookup_app_r by lia. by rewrite Nat.sub_diag.
  - by rewrite (bool_decide_eq_false_2 _ Hv).
Qed.

Lemma withValue_concat c v (ll : list (list Record)) :
  withValue c v (concat ll) = flat_map (withValue c v) ll.
Proof.
  unfold withValue. induction ll as [|l ll IH]; cbn [concat flat_map]; [done|].
  by rewrite List.filter_app, IH.
Qed.

(** the records a fresh index lists under a value are the records of the
    table with that value, in storage order *)
Lemma index_pages_records c v db t pids :
  _tables db !! t = Some pids ->
  map (recordAt db) (default [] (hm_get (index_pages c db pids []) v)) =
  withValue c v (recordsOf t db).
Proof.
  intros Ht. rewrite index_pages_get. cbn [hm_get default from_option id app].
  unfold recordsOf. rewrite Ht, withValue_concat.
  generalize pids. clear. induction pids as [|pid pids IH]; cbn [flat_map map]; [done|].
  rewrite map_app, IH. f_equal. apply (recordAt_locsOf c v db pid (filesOf db pid) []). done.
Qed.

Lemma hm_keys_has (h : list (Value * list (string * nat))) k :
  k ∈ hm_keys h <-> hm_has h k = true.
Proof.
  unfold hm_keys, hm_has. induction h as [|[k0 l0] h IH]; simpl.
  - split; [by intros ?%elem_of_nil|done].
  - rewrite elem_of_cons. destruct (decide (k0 = k)) as [->|Hne].
    + split; [done|by left].
    + rewrite <- IH. split; [intros [?|?]; [congruence|done]|by right].
Qed.

Lemma hm_keys_set (h : list (Value * list (string * nat))) k ls :
  hm_keys (hm_set h k ls) = if hm_has h k then hm_keys h else hm_keys h ++ [k].
Proof.
  unfold hm_keys, hm_has. induction h as [|[k0 l0] h IH]; simpl; [done|].
  destruct (decide (k0 = k)) as [->|Hne]; simpl; [done|].
  rewrite IH. by destruct (hm_get h k).
Qed.

Lemma NoDup_keys_index_add (idx : list (Value * list (string * nat))) k loc :
  NoDup (hm_keys idx) -> NoDup (hm_keys (index_add idx k loc)).
Proof.
  intros Hnd. unfold index_add.
  destruct (hm_get idx k) as [ls|] eqn:E; rewrite hm_keys_set; unfold hm_has; rewrite E.
  - done.
  - apply NoDup_app. split_and!; [done| |apply NoDup_singleton].
    intros x Hx ->%list_elem_of_singleton. apply hm_keys_has in Hx.
    unfold hm_has in Hx. by rewrite E in Hx.
Qed.

Lemma NoDup_keys_index_page c pid files : forall (idx : list (Value * list (string * nat))) i,
  NoDup (hm_keys idx) -> NoDup (hm_keys (index_page c pid files idx i)).
Proof.
  induction files as [|r files IH]; intros idx i Hnd; cbn [index_page]; [done|].
  by apply IH, NoDup_keys_index_add.
Qed.

Lemma NoDup_keys_index_pages c db pids : forall (idx : list (Value * list (string * nat))),
  NoDup (hm_keys idx) -> NoDup (hm_keys (index_pages c db pids idx)).
Proof.
  unfold index_pages. induction pids as [|pid pids IH]; intros idx Hnd; cbn [fold_left]; [done|].
  by apply IH, NoDup_keys_index_page.
Qed.

Lemma flat_map_single_key (P : Value -> bool) (r : Record) (v : Value) (ks : list Value) :
  NoDup ks -> v ∈ ks ->
  flat_map (fun k => if bool_decide (v = k) then [r] else []) (List.filter P ks) =
  if P v then [r] else [].
Proof.
  assert (Hno : forall l, v ∉ l ->
            flat_map (fun k => if bool_decide (v = k) then [r] else []) (List.filter P l) = []).
  { induction l as [|k l IH]; intros Hni; simpl; [done|].
    apply not_elem_of_cons in Hni as [Hne Hni].
    destruct (P k); simpl; [|by apply IH].
    rewrite bool_decide_eq_false_2 by done. by apply IH. }
  induction ks as [|k ks IH]; intros Hnd Hin; [by apply elem_of_nil in Hin|].
  apply NoDup_cons in Hnd as [Hk Hnd]. simpl.
  destruct (decide (v = k)) as [<-|Hne].
  - destruct (P v); simpl.
    + rewrite bool_decide_eq_true_2 by done. by rewrite Hno.
    + by apply Hno.
  - apply elem_of_cons in Hin as [?|Hin]; [done|].
    destruct (P k); simpl; [|by apply IH].
    rewrite bool_decide_eq_false_2 by done. by apply IH.
Qed.

(** grouping records by the value of a column and keeping the groups whose
    value passes a test selects the records whose value passes it *)
Lemma group_by_value_perm (P : Value -> bool) c (ks : list Value) : forall recs,
  NoDup ks -> (forall r, r ∈ recs -> rget r c ∈ ks) ->
  flat_map (fun k => withValue c k recs) (List.filter P ks) ≡ₚ
  List.filter (fun r => P (rget r c)) recs.
Proof.
  intros recs Hnd. induction recs as [|r recs IH]; intros Hin.
  - simpl. induction (List.filter P ks) as [|k l IHl]; simpl; done.
  - assert (E : forall k, withValue c k (r :: recs) =
                  (if bool_decide (rget r c = k) then [r] else []) ++ withValue c k recs).
    { intros k. unfold withValue. simpl. by destruct (bool_decide (rget r c = k)). }
    rewrite (flat_map_ext _ _ E), flat_map_app_perm.
    rewrite flat_map_single_key; [|done|apply Hin, list_elem_of_here].
    rewrite IH by (intros; apply Hin; by apply list_elem_of_further).
    simpl. by destruct (P (rget r c)).
Qed.

Section FreshIndex.
Context `{JsBuiltins}.

(** X9.  On a well-formed catalog, [hashTable(t, c, true)] on an existing
    table returns normally and stores no record; through the index it builds,
    [getRecsFromHash] with ['='] yields exactly the records of the table
    whose column [c] holds the given value, in storage order, with ['>'] it
    yields the records whose value is greater than the given one (each once,
    grouped by value), and [hasValue] tells whether some record of the table
    holds the value. *)
Theorem fresh_index_answers_lookups (t c : string) (db : DB) (pids : list string) :
  Inv db -> _tables db !! t = Some pids ->
  exists db',
    hashTable t c true db = (Ok tt, db') /\ Inv db' /\
    recordsOf t db' = recordsOf t db /\
    (forall v, runs db' (collect (getRecsFromHash t c "=" v))
                 (Ok (withValue c v (recordsOf t db)))) /\
    (forall v, exists out,
        runs db' (collect (getRecsFromHash t c ">" v)) (Ok out) /\
        out ≡ₚ List.filter (fun r => jsGt (rget r c) v) (recordsOf t db)) /\
    (forall v, runs db' (hasValue t c v)
                 (Ok (bool_decide (v ∈ map (fun r => rget r c) (recordsOf t db))))).
Proof.
  intros HI Ht. destruct (table_has_hashes _ _ _ _ HI Ht) as (reg & Hreg).
  destruct (hashTable_new_run db t c pids reg HI Ht Hreg) as (b & E).
  destruct (hashTable_spec db t c true HI) as (r & db' & E' & HI' & _ & Hio & _).
  rewrite E in E'. injection E' as <- Edb.
  set (idx := index_pages c db pids []) in *.
  assert (Hidx : hasIndex db' t c idx).
  { exists (<[c := Some idx]> reg). rewrite <- Edb. simpl. by rewrite !lookup_insert_eq. }
  assert (Hrec : recordsOf t db' = recordsOf t db) by by apply (index_only_recordsOf t).
  assert (Hat : forall loc, recordAt db' loc = recordAt db loc).
  { intros loc. unfold recordAt, filesOf. destruct Hio as (-> & _). done. }
  assert (Hget : forall v, map (recordAt db') (default [] (hm_get idx v)) =
                           withValue c v (recordsOf t db)).
  { intros v. rewrite (map_ext _ _ Hat). by apply index_pages_records. }
  exists db'. split_and!; try done.
  - rewrite E. by f_equal.
  - intros v. pose proof (getRecsFromHash_runs db' t c idx "=" v HI' Hidx) as K.
    unfold lookupResult in K. cbn [String.eqb Ascii.eqb Bool.eqb] in K. by rewrite Hget in K.
  - intros v. pose proof (getRecsFromHash_runs db' t c idx ">" v HI' Hidx) as K.
    unfold lookupResult in K. cbn [String.eqb Ascii.eqb Bool.eqb] in K.
    eexists. split; [exact K|].
    rewrite (flat_map_ext _ _ Hget).
    apply group_by_value_perm.
    + apply NoDup_keys_index_pages. apply NoDup_nil_2.
    + intros r0 Hr0. apply hm_keys_has. eapply index_pages_covers; [done|].
      apply list_elem_of_fmap. by exists r0.
  - intros v. pose proof (hasValue_runs db' t c idx v Hidx) as K.
    replace (bool_decide _) with (hm_has idx v); [done|].
    unfold idx. rewrite hm_has_index_pages. unfold recordsOf. rewrite Ht. done.
Qed.
End FreshIndex.

Lemma fresh_index_answers_lookups_witness :
  exists db',
    hashTable "t" "c1" true db_t = (Ok tt, db') /\
    runs db' (collect (getRecsFromHash (H:=sampleHost) "t" "c1" "=" (VNum 2))) (Ok [rec_b]) /\
    runs db' (hasValue "t" "c1" (VNum 3)) (Ok false).
Proof.
  assert (HI : Inv db_t) by apply after_Inv, Inv_empty.
  assert (Ht : _tables db_t !! "t" = Some [nano 0]) by (by vm_compute).
  destruct (fresh_index_answers_lookups (H:=sampleHost) "t" "c1" db_t [nano 0] HI Ht)
    as (db' & E & _ & _ & Heq & _ & Hhas).
  exists db'. split_and!; [done|apply (Heq (VNum 2))|apply (Hhas (VNum 3))].
Defined.

(** ** What [hashJoin] yields *)

Lemma filter_all {A} (l : list A) : List.filter (fun _ => true) l = l.
Proof. induction l as [|x l IH]; simpl; [done|]. by rewrite IH. Qed.

Lemma flat_map_flat_map {A B C} (f : A -> list B) (g : B -> list C) (l : list A) :
  flat_map g (flat_map f l) = flat_map (fun x => flat_map g (f x)) l.
Proof.
  induction l as [|x l IH]; simpl; [done|]. by rewrite flat_map_app, IH.
Qed.

Lemma flat_map_ext_in {A B} (f g : A -> list B) (l : list A) :
  (forall x, x ∈ l -> f x = g x) -> flat_map f l = flat_map g l.
Proof.
  induction l as [|x l IH]; intros Hfg; simpl; [done|].
  rewrite (Hfg x) by apply list_elem_of_here.
  rewrite IH; [done|]. intros y Hy. apply Hfg. by apply list_elem_of_further.
Qed.

Lemma list_prod_as_flat_map {A B} (l1 : list A) (l2 : list B) :
  list_prod l1 l2 = flat_map (fun a => map (pair a) l2) l1.
Proof. induction l1 as [|a l1 IH]; simpl; [done|]. by rewrite IH. Qed.

Lemma filter_list_prod {A B} (p : A -> B -> bool) (l1 : list A) (l2 : list B) :
  List.filter (fun pr => p (fst pr) (snd pr)) (list_prod l1 l2) =
  flat_map (fun a => map (pair a) (List.filter (p a) l2)) l1.
Proof.
  induction l1 as [|a l1 IH]; simpl; [done|]. rewrite List.filter_app, IH. f_equal.
  clear. induction l2 as [|b l2 IH]; simpl; [done|]. destruct (p a b); simpl; by rewrite IH.
Qed.

(** joining the groups of two tables value by value selects the pairs of
    records whose values pass the test *)
Lemma join_groups_perm (p : Value -> Value -> bool) c1 c2 (ks1 ks2 : list Value)
    (recs1 recs2 : list Record) :
  NoDup ks1 -> NoDup ks2 ->
  (forall r, r ∈ recs1 -> rget r c1 ∈ ks1) -> (forall r, r ∈ recs2 -> rget r c2 ∈ ks2) ->
  flat_map (fun k1 => list_prod (withValue c1 k1 recs1)
                        (flat_map (fun k2 => withValue c2 k2 recs2) (List.filter (p k1) ks2)))
           ks1 ≡ₚ
  List.filter (fun pr => p (rget (fst pr) c1) (rget (snd pr) c2)) (list_prod recs1 recs2).
Proof.
  intros Hnd1 Hnd2 Hin1 Hin2.
  rewrite (filter_list_prod (fun r1 r2 => p (rget r1 c1) (rget r2 c2))).
  set (h := fun r1 : Record =>
              map (pair r1) (List.filter (fun r2 => p (rget r1 c1) (rget r2 c2)) recs2)).
  transitivity (flat_map (fun k1 => flat_map h (withValue c1 k1 recs1)) ks1).
  - apply flat_map_perm_ext. intros k1. rewrite list_prod_as_flat_map.
    transitivity (flat_map (fun a => map (pair a)
                    (List.filter (fun r2 => p k1 (rget r2 c2)) recs2)) (withValue c1 k1 recs1)).
    + apply flat_map_perm_ext. intros a. apply Permutation_map.
      by apply group_by_value_perm.
    + erewrite flat_map_ext_in; [reflexivity|]. intros r1 Hr1. unfold h.
      apply list_elem_of_In, filter_In in Hr1 as [_ Hv]. apply bool_decide_eq_true_1 in Hv.
      by rewrite Hv.
  - rewrite <- flat_map_flat_map.
    rewrite <- (filter_all ks1) at 1.
    rewrite (group_by_value_perm (fun _ => true) c1 ks1 recs1 Hnd1 Hin1).
    by rewrite filter_all.
Qed.

Section JoinMeaning.
Context `{JsBuiltins}.

Lemma unhashed_registry db t c :
  isTableHashed t c db = (Ok false, db) ->
  exists reg, _tableHashes db !! t = Some reg /\ reg !! c = None.
Proof.
  unfold isTableHashed. mred. destruct (_tableHashes db !! t) as [reg|]; [|done].
  mred. intros [= E]. exists reg. split; [done|].
  apply bool_decide_eq_false_1 in E. destruct (reg !! c); [|done]. destruct E. eauto.
Qed.

Lemma recsAt_fresh db db' t c pids k :
  pages db' = pages db -> _tables db !! t = Some pids ->
  recsAt db' (index_pages c db pids []) k = withValue c k (recordsOf t db).
Proof.
  intros Hp Ht. unfold recsAt. rewrite <- (index_pages_records c k db t pids Ht).
  apply map_ext. intros loc. unfold recordAt, filesOf. by rewrite Hp.
Qed.

(** X10.  On a well-formed catalog, [hashJoin] of two tables on columns
    without an index, with a projection that names only the two tables,
    yields one projected record for every pair of a record of the first
    table and a record of the second whose join values pass the operator
    (['='] compares loosely, ['>'] by order, any other operator keeps no
    pair), each pair once; the order of the results follows the indexes. *)
Theorem hashJoin_is_filtered_product (t1 c1 t2 c2 : string) (projection : list Proj)
    (op : string) (db : DB) :
  Inv db -> is_Some (_tables db !! t1) -> is_Some (_tables db !! t2) ->
  isTableHashed t1 c1 db = (Ok false, db) -> isTableHashed t2 c2 db = (Ok false, db) ->
  projOK t1 t2 projection = true ->
  exists out,
    fst (collect (hashJoin t1 c1 t2 c2 projection op false) db) = Ok out /\
    out ≡ₚ map (projected t1 t2 projection)
             (List.filter (fun pr => keepVal2 op (rget (fst pr) c1) (rget (snd pr) c2))
                (list_prod (recordsOf t1 db) (recordsOf t2 db))).
Proof.
  intros HI [pids1 Ht1] [pids2 Ht2] Hh1 Hh2 Hproj.
  destruct (unhashed_registry _ _ _ Hh1) as (reg1 & Hreg1 & Hc1).
  destruct (unhashed_registry _ _ _ Hh2) as (reg2 & Hreg2 & Hc2).
  set (idx1 := index_pages c1 db pids1 []).
  set (idx2 := index_pages c2 db pids2 []).
  set (db1 := withIndex t1 c1 db).
  assert (E1 : db1 = set_tableHashes (<[t1 := <[c1 := Some idx1]> reg1]>) db).
  { unfold db1, withIndex. by rewrite Ht1, Hreg1, Hc1. }
  set (db2 := withIndex t2 c2 db1).
  assert (Hp2 : pages db2 = pages db).
  { unfold db2, db1. by rewrite !withIndex_pages. }
  assert (Hidx : hasIndex db2 t1 c1 idx1 /\ hasIndex db2 t2 c2 idx2).
  { unfold db2, withIndex. rewrite E1. cbn [set_tableHashes _tables _tableHashes]. rewrite Ht2.
    destruct (decide (t1 = t2)) as [<-|Hne].
    - rewrite lookup_insert_eq. rewrite Ht1 in Ht2. injection Ht2 as <-.
      rewrite Hreg1 in Hreg2. injection Hreg2 as <-.
      destruct (decide (c1 = c2)) as [<-|Hnc].
      + rewrite lookup_insert_eq. split; exists (<[c1 := Some idx1]> reg1); simpl;
          by rewrite !lookup_insert_eq.
      + rewrite lookup_insert_ne, Hc2 by done.
        split; eexists; simpl; rewrite lookup_insert_eq; (split; [done|]).
        * rewrite lookup_insert_ne by done. by rewrite lookup_insert_eq.
        * by rewrite lookup_insert_eq.
    - rewrite lookup_insert_ne, Hreg2, Hc2 by done. split.
      + exists (<[c1 := Some idx1]> reg1). simpl. rewrite lookup_insert_ne by done.
        by rewrite !lookup_insert_eq.
      + exists (<[c2 := Some idx2]> reg2). simpl. by rewrite !lookup_insert_eq. }
  destruct Hidx as [Hidx1 Hidx2].
  rewrite (hashJoin_run db t1 c1 t2 c2 projection op idx1 idx2); eauto.
  fold db1. fold db2. unfold joinResult. rewrite Hproj. eexists. split; [done|].
  apply Permutation_map. unfold joinPairs.
  rewrite (flat_map_ext _ _ (fun k => f_equal2 (@list_prod _ _)
             (recsAt_fresh db db2 t1 c1 pids1 k Hp2 Ht1) eq_refl)).
  erewrite flat_map_ext; [apply (join_groups_perm (keepVal2 op) c1 c2)|].
  - apply (NoDup_keys_index_pages c1 db pids1 []). constructor.
  - apply (NoDup_keys_index_pages c2 db pids2 []). constructor.
  - intros r Hr. apply hm_keys_has. eapply index_pages_covers; [done|].
    apply list_elem_of_fmap. by exists r.
  - intros r Hr. apply hm_keys_has. eapply index_pages_covers; [done|].
    apply list_elem_of_fmap. by exists r.
  - intros k1. cbn beta. f_equal. apply flat_map_ext. intros k2.
    by apply (recsAt_fresh db db2 t2 c2 pids2 k2).
Qed.
End JoinMeaning.

Lemma hashJoin_is_filtered_product_witness :
  exists out,
    fst (collect (hashJoin (H:=sampleHost) "a" "x" "b" "y" proj_ab "=" false) db_ab) = Ok out /\
    out ≡ₚ [[("l", VStr "a2"); ("r", VStr "b1")]; [("l", VStr "a2"); ("r", VStr "b2")]].
Proof.
  assert (HI : Inv db_ab) by apply after_Inv, Inv_empty.
  assert (Ha : is_Some (_tables db_ab !! "a")) by (eexists; vm_compute; reflexivity).
  assert (Hb : is_Some (_tables db_ab !! "b")) by (eexists; vm_compute; reflexivity).
  assert (Hha : isTableHashed "a" "x" db_ab = (Ok false, db_ab)) by (by vm_compute).
  assert (Hhb : isTableHashed "b" "y" db_ab = (Ok false, db_ab)) by (by vm_compute).
  assert (Hp : projOK "a" "b" proj_ab = true) by (by vm_compute).
  destruct (hashJoin_is_filtered_product (H:=sampleHost) "a" "x" "b" "y" proj_ab "=" db_ab
              HI Ha Hb Hha Hhb Hp) as (out & E & Hperm).
  exists out. split; [done|]. rewrite Hperm. by vm_compute.
Defined.

(** ** What [insertUniqueRecordsById] stores *)

Lemma accepted_ext (s s' : list Value) : forall recs,
  (forall v, v ∈ s <-> v ∈ s') -> accepted s recs = accepted s' recs.
Proof.
  intros recs. revert s s'. induction recs as [|r recs IH]; intros s s' Hs; simpl; [done|].
  rewrite (bool_decide_ext _ _ (Hs (rget r "_id"))).
  destruct (bool_decide (rget r "_id" ∈ s')); [by apply IH|].
  f_equal. apply IH. intros v. rewrite !elem_of_cons. by rewrite Hs.
Qed.

Lemma accepted_covers (s : list Value) : forall recs r,
  r ∈ recs -> rget r "_id" ∈ s ++ map (fun r => rget r "_id") (accepted s recs).
Proof.
  intros recs. revert s. induction recs as [|r0 recs IH]; intros s r Hr;
    [by apply elem_of_nil in Hr|].
  simpl. apply elem_of_cons in Hr as [->|Hr].
  - case_bool_decide as Hin.
    + apply elem_of_app. by left.
    + apply elem_of_app. right. simpl. apply list_elem_of_here.
  - case_bool_decide as Hin; [by apply IH|].
    specialize (IH (rget r0 "_id" :: s) r Hr). simpl.
    apply elem_of_app in IH as [[->|IH]%elem_of_cons|IH]; apply elem_of_app.
    + right. apply list_elem_of_here.
    + by left.
    + right. by apply list_elem_of_further.
Qed.

Lemma accepted_nothing (s : list Value) : forall recs,
  (forall r, r ∈ recs -> rget r "_id" ∈ s) -> accepted s recs = [].
Proof.
  induction recs as [|r recs IH]; intros Hs; simpl; [done|].
  rewrite bool_decide_eq_true_2 by apply Hs, list_elem_of_here.
  apply IH. intros r' Hr'. by apply Hs, list_elem_of_further.
Qed.

(** the loop of [insertUniqueRecordsById] over an exact index *)
Lemma insertUnique_loop_exact t : forall recs db,
  Inv db -> exactIds t db ->
  exists db',
    forM_ recs (insertUnique_each t) db = (Ok tt, db') /\ Inv db' /\ exactIds t db' /\
    recordsOf t db' ≡ₚ recordsOf t db ++ accepted (idsOf t db) recs /\
    (accepted (idsOf t db) recs = [] -> db' = db) /\
    (forall t', t' <> t -> untouched t' db db').
Proof.
  unfold forM_. induction recs as [|rec recs IH]; intros db HI Hex.
  { exists db. simpl. rewrite app_nil_r. split_and!; auto. }
  destruct Hex as (idx & Hidx & Hiff).
  destruct (hasIndex_table _ _ _ _ _ HI Hidx) as (pids & Ht).
  pose proof Hidx as (reg & Hreg & Hi).
  cbn [foldM accepted].
  destruct (hm_has idx (rget rec "_id")) eqn:Hhas.
  - assert (E : insertUnique_each t rec db = (Ok tt, db)).
    { unfold insertUnique_each.
      rewrite (bind_ok _ _ _ _ _ (idIndex_ok db t reg idx Hreg Hi)). by rewrite Hhas. }
    rewrite (bind_ok _ _ _ _ _ E).
    rewrite bool_decide_eq_true_2 by by apply Hiff.
    apply IH; [done|]. by exists idx.
  - destruct (insertUnique_each_accepts db t pids reg idx rec HI Ht Hreg Hi Hhas)
      as (db1 & pid & index & E & HI1 & Hreg1 & Hf & _ & Hperm & Hunt).
    rewrite (bind_ok _ _ _ _ _ E).
    assert (Hni : rget rec "_id" ∉ idsOf t db).
    { intros Hin. apply Hiff in Hin. congruence. }
    rewrite bool_decide_eq_false_2 by done.
    assert (Hids : idsOf t db1 ≡ₚ idsOf t db ++ [rget rec "_id"]).
    { unfold idsOf. rewrite Hperm. by rewrite map_app. }
    assert (Hex1 : exactIds t db1).
    { exists (hm_set idx (rget rec "_id") [(pid, index)]). split.
      - exists (<["_id" := Some (hm_set idx (rget rec "_id") [(pid, index)])]> reg).
        split; [done|by rewrite lookup_insert_eq].
      - intros v. rewrite hm_has_set, Hids, elem_of_app, list_elem_of_singleton, <- Hiff.
        rewrite orb_true_iff, bool_decide_eq_true. split; intros [?|?]; auto. }
    destruct (IH db1 HI1 Hex1) as (db' & E' & HI' & Hex' & Hperm' & _ & Hunt').
    exists db'. split_and!; try done.
    + rewrite Hperm', Hperm, <- app_assoc. apply Permutation_app_head. simpl.
      apply Permutation_cons; [done|].
      rewrite (accepted_ext (idsOf t db1) (rget rec "_id" :: idsOf t db) recs); [done|].
      intros v. rewrite Hids, elem_of_app, list_elem_of_singleton, elem_of_cons. tauto.
    + intros t' Hne. eapply untouched_trans; [by apply Hunt|by apply Hunt'].
Qed.

(** the first call on a table without an [_id] index *)
Lemma insertUnique_run_fresh (t : string) (recs : list Record) (db : DB) :
  Inv db -> is_Some (_tables db !! t) -> isTableHashed t "_id" db = (Ok false, db) ->
  exists db',
    insertUniqueRecordsById t recs db = (Ok tt, db') /\ Inv db' /\ exactIds t db' /\
    recordsOf t db' ≡ₚ recordsOf t db ++ accepted (idsOf t db) recs /\
    (forall t', t' <> t -> untouched t' db db').
Proof.
  intros HI [pids Ht] Hh.
  assert (Hreg : exists reg, _tableHashes db !! t = Some reg /\ reg !! "_id" = None).
  { revert Hh. unfold isTableHashed. mred. destruct (_tableHashes db !! t) as [reg|]; [|done].
    mred. intros [= E]. exists reg. split; [done|].
    apply bool_decide_eq_false_1 in E. destruct (reg !! "_id"); [|done]. destruct E. eauto. }
  destruct Hreg as (reg & Hreg & Hno).
  destruct (hashTable_new_run db t "_id" pids reg HI Ht Hreg) as (b & E).
  set (idx := index_pages "_id" db pids []) in *.
  set (db1 := set_tableHashes _ _) in E.
  assert (HI1 : Inv db1).
  { destruct (hashTable_spec db t "_id" true HI) as (r & db' & E' & ? & _).
    rewrite E in E'. by injection E' as <- <-. }
  assert (Hidx1 : hasIndex db1 t "_id" idx).
  { eexists. unfold db1. simpl. rewrite lookup_insert_eq. split; [done|].
    by rewrite lookup_insert_eq. }
  assert (Hrec1 : recordsOf t db1 = recordsOf t db) by done.
  assert (Hex1 : exactIds t db1).
  { exists idx. split; [done|]. intros v. unfold idsOf. rewrite Hrec1.
    unfold idx. rewrite hm_has_index_pages. cbn [hm_has hm_get orb].
    unfold recordsOf. rewrite Ht. apply bool_decide_eq_true. }
  destruct (insertUnique_loop_exact t recs db1 HI1 Hex1)
    as (db' & E' & HI' & Hex' & Hperm & _ & Hunt).
  exists db'. split_and!; try done.
  - unfold insertUniqueRecordsById.
    rewrite (bind_ok _ _ _ _ _ Hh). cbn [negb when].
    rewrite (bind_ok _ _ _ _ _ E).
    assert (Eg : getIndex t "_id" db1 = (Ok (Some idx), db1)).
    { destruct Hidx1 as (reg1 & Hr1 & Hi1). unfold getIndex. mred. rewrite Hr1. mred.
      by rewrite Hi1. }
    by rewrite (bind_ok _ _ _ _ _ Eg).
  - intros t' Hne. eapply untouched_trans; [|by apply Hunt].
    unfold untouched, db1. simpl. rewrite lookup_insert_ne by done. done.
Qed.

(** a call on a table whose [_id] index is exact *)
Lemma insertUnique_run_indexed (t : string) (recs : list Record) (db : DB) :
  Inv db -> exactIds t db ->
  (forall r, r ∈ recs -> rget r "_id" ∈ idsOf t db) ->
  insertUniqueRecordsById t recs db = (Ok tt, db).
Proof.
  intros HI Hex Hall. pose proof Hex as (idx & (reg & Hreg & Hi) & Hiff).
  destruct (insertUnique_loop_exact t recs db HI Hex) as (db' & E' & _ & _ & _ & Hsame & _).
  rewrite (Hsame (accepted_nothing _ _ Hall)) in E'.
  unfold insertUniqueRecordsById, isTableHashed, getIndex. mred. rewrite Hreg. mred.
  rewrite Hi. rewrite bool_decide_eq_true_2 by eauto. cbn [negb when]. mred.
  rewrite Hreg. mred. exact E'.
Qed.

(** X11.  On a well-formed catalog, [insertUniqueRecordsById] into an
    existing table without an [_id] index returns normally and stores, in
    addition to what the table held, exactly the records of the batch whose
    [_id] is neither held by the table nor carried by an earlier record of
    the batch (a record without [_id] counts as carrying [undefined]);
    afterwards [hasValue] finds the [_id] of every record of the batch, and
    the other tables are untouched. *)
Theorem insertUnique_stores_first_occurrences (t : string) (recs : list Record) (db : DB) :
  Inv db -> is_Some (_tables db !! t) -> isTableHashed t "_id" db = (Ok false, db) ->
  exists db',
    insertUniqueRecordsById t recs db = (Ok tt, db') /\ Inv db' /\
    recordsOf t db' ≡ₚ recordsOf t db ++ accepted (idsOf t db) recs /\
    (forall r, r ∈ recs -> runs db' (hasValue t "_id" (rget r "_id")) (Ok true)) /\
    (forall t', t' <> t -> untouched t' db db').
Proof.
  intros HI Ht Hh.
  destruct (insertUnique_run_fresh t recs db HI Ht Hh)
    as (db' & E & HI' & (idx' & Hidx' & Hiff') & Hperm & Hunt).
  exists db'. split_and!; try done.
  intros r Hr. pose proof (hasValue_runs db' t "_id" idx' (rget r "_id") Hidx') as K.
  assert (Hk : hm_has idx' (rget r "_id") = true).
  { apply Hiff'. unfold idsOf. rewrite Hperm, map_app. by apply accepted_covers. }
  by rewrite Hk in K.
Qed.

Lemma insertUnique_stores_first_occurrences_witness :
  exists db',
    insertUniqueRecordsById "s" [rec_1; rec_a; rec_a] db_s = (Ok tt, db') /\
    recordsOf "s" db' ≡ₚ [rec_1; rec_2]. 
Proof.
  assert (HI : Inv db_s) by apply after_Inv, Inv_empty.
  assert (Ht : is_Some (_tables db_s !! "s")) by (eexists; vm_compute; reflexivity).
  assert (Hh : isTableHashed "s" "_id" db_s = (Ok false, db_s)) by (by vm_compute).
  destruct (insertUnique_stores_first_occurrences "s" [rec_1; rec_a; rec_a] db_s HI Ht Hh)
    as (db' & E & _ & Hperm & _).
  exists db'. split; [done|]. rewrite Hperm. by vm_compute.
Defined.

(** X12.  Once [insertUniqueRecordsById] has run on a table without an [_id]
    index, running it again with the same batch, or with any batch of records
    whose [_id] values the table holds, returns normally and changes nothing
    at all. *)
Theorem insertUnique_again_changes_nothing (t : string) (recs : list Record) (db : DB) :
  Inv db -> is_Some (_tables db !! t) -> isTableHashed t "_id" db = (Ok false, db) ->
  exists db',
    insertUniqueRecordsById t recs db = (Ok tt, db') /\
    insertUniqueRecordsById t recs db' = (Ok tt, db') /\
    forall recs', (forall r, r ∈ recs' -> rget r "_id" ∈ idsOf t db') ->
                  insertUniqueRecordsById t recs' db' = (Ok tt, db').
Proof.
  intros HI Ht Hh.
  destruct (insertUnique_run_fresh t recs db HI Ht Hh)
    as (db' & E & HI' & Hex' & Hperm & Hunt).
  exists db'. split_and!; [done| |].
  - apply insertUnique_run_indexed; [done|done|].
    intros r Hr. unfold idsOf. rewrite Hperm, map_app. by apply accepted_covers.
  - intros recs' Hall. by apply insertUnique_run_indexed.
Qed.

Lemma insertUnique_again_changes_nothing_witness :
  exists db',
    insertUniqueRecordsById "s" [rec_a; rec_b] db_s = (Ok tt, db') /\
    insertUniqueRecordsById "s" [rec_a; rec_b] db' = (Ok tt, db').
Proof.
  assert (HI : Inv db_s) by apply after_Inv, Inv_empty.
  assert (Ht : is_Some (_tables db_s !! "s")) by (eexists; vm_compute; reflexivity).
  assert (Hh : isTableHashed "s" "_id" db_s = (Ok false, db_s)) by (by vm_compute).
  destruct (insertUnique_again_changes_nothing "s" [rec_a; rec_b] db_s HI Ht Hh)
    as (db' & E & E' & _).
  by exists db'.
Defined.

(** ** Helpers of the evaluator *)

(** X13.  [deleteIds] removes every field whose name starts with [_id], a
    user column of such a name included, and keeps the value of every other
    field; applying it twice is applying it once. *)
Theorem deleteIds_strips_id_fields (record : Record) (key : string) :
  rget (deleteIds record) key =
    (if String.prefix "_id" key then VUndef else rget record key) /\
  rhas (deleteIds record) key =
    (if String.prefix "_id" key then false else rhas record key) /\
  deleteIds (deleteIds record) = deleteIds record.
Proof.
  unfold deleteIds. split_and!.
  - induction record as [|[k v] r IH]; simpl; [by destruct (String.prefix "_id" key)|].
    destruct (String.eqb_spec k key) as [->|Hne].
    + destruct (String.prefix "_id" key) eqn:E; simpl; [exact IH|].
      by rewrite String.eqb_refl.
    + destruct (String.prefix "_id" k) eqn:E; simpl; [exact IH|].
      destruct (String.eqb_spec k key); [done|exact IH].
  - induction record as [|[k v] r IH]; simpl; [by destruct (String.prefix "_id" key)|].
    destruct (String.eqb_spec k key) as [->|Hne].
    + destruct (String.prefix "_id" key) eqn:E; simpl; [exact IH|].
      by rewrite String.eqb_refl.
    + destruct (String.prefix "_id" k) eqn:E; simpl; [exact IH|].
      destruct (String.eqb_spec k key); [done|exact IH].
  - induction record as [|[k v] r IH]; simpl; [done|].
    destruct (String.prefix "_id" k) eqn:E; simpl; [exact IH|]. rewrite E. simpl.
    by rewrite IH.
Qed.

(** X14.  The pair table of a join does not depend on the order in which the
    two table names are given: [joinedIdOf a b] and [joinedIdOf b a] are the
    same sorted pair, made of the two names. *)
Theorem joinedIdOf_symmetric (a b : string) :
  joinedIdOf a b = joinedIdOf b a /\
  (joinedIdOf a b = (a, b) \/ joinedIdOf a b = (b, a)).
Proof.
  unfold joinedIdOf, String.ltb. rewrite (String.compare_antisym b a).
  destruct (String.compare a b) eqn:E; simpl; auto.
  apply String.compare_eq_iff in E as ->. auto.
Qed.

(** ** The join forest *)

Lemma joinedIdOf_pair (a b : string) :
  joinedIdOf a b = (a, b) \/ joinedIdOf a b = (b, a).
Proof. unfold joinedIdOf. destruct (String.ltb b a); auto. Qed.

Lemma al_get_set {K V} `{EqDecision K} (m : list (K * V)) k v k' :
  al_get (al_set m k v) k' = if decide (k = k') then Some v else al_get m k'.
Proof.
  induction m as [|[k0 v0] m IH]; simpl.
  - destruct (decide (k = k')); done.
  - destruct (decide (k0 = k)) as [->|Hne]; simpl.
    + destruct (decide (k = k')); done.
    + destruct (decide (k0 = k')) as [->|Hne'].
      * by rewrite decide_False.
      * done.
Qed.

Lemma al_keys_get {K V} `{EqDecision K} (m : list (K * V)) k :
  k ∈ al_keys m <-> is_Some (al_get m k).
Proof.
  unfold al_keys. induction m as [|[k0 v0] m IH]; simpl.
  - split; [by intros ?%elem_of_nil|by intros [? ?]].
  - rewrite elem_of_cons. destruct (decide (k0 = k)) as [->|Hne].
    + split; [eauto|by left].
    + rewrite <- IH. split; [intros [?|?]; [congruence|done]|by right].
Qed.

Lemma al_keys_set {K V} `{EqDecision K} (m : list (K * V)) k v :
  al_keys (al_set m k v) =
    match al_get m k with Some _ => al_keys m | None => al_keys m ++ [k] end.
Proof.
  unfold al_keys. induction m as [|[k0 v0] m IH]; simpl; [done|].
  destruct (decide (k0 = k)) as [->|Hne]; simpl; [done|].
  rewrite IH. by destruct (al_get m k).
Qed.

Lemma NoDup_al_keys_set {K V} `{EqDecision K} (m : list (K * V)) k v :
  NoDup (al_keys m) -> NoDup (al_keys (al_set m k v)).
Proof.
  intros Hnd. rewrite al_keys_set. destruct (al_get m k) eqn:E; [done|].
  apply NoDup_app. split_and!; [done| |apply NoDup_singleton].
  intros x Hx ->%list_elem_of_singleton. apply al_keys_get in Hx as [? Hx]. congruence.
Qed.

Lemma NoDup_al_keys_push {K V} `{EqDecision K} (m : list (K * list V)) k x :
  NoDup (al_keys m) -> NoDup (al_keys (al_push m k x)).
Proof. intros Hnd. unfold al_push. destruct (al_get m k); by apply NoDup_al_keys_set. Qed.

Lemma al_get_push_some {K V} `{EqDecision K} (m : list (K * list V)) k x k' :
  is_Some (al_get (al_push m k x) k') <-> k = k' \/ is_Some (al_get m k').
Proof.
  unfold al_push. destruct (al_get m k) eqn:E; rewrite al_get_set;
    destruct (decide (k = k')) as [->|Hne]; split; eauto; intros [?|?]; eauto; done.
Qed.

(** the pair tables of a term are pairwise distinct *)
Lemma sortOps_composite_NoDup term : NoDup (al_keys (compositeOps (sortOps term))).
Proof.
  unfold sortOps.
  assert (G : forall l st, NoDup (al_keys (snd (fst st))) ->
            NoDup (al_keys (snd (fst (fold_left sortOps_each l st))))).
  { induction l as [|op l IH]; intros [[s c] w] Hnd; simpl; [done|].
    apply IH. unfold sortOps_each. destruct (rhs op); simpl; [|done].
    by apply NoDup_al_keys_push. }
  specialize (G (default [] (ops term)) ([], [], []) (NoDup_nil_2)).
  by destruct (fold_left sortOps_each (default [] (ops term)) ([], [], [])) as [[s c] w].
Qed.

(** each pair table of a term joins the two tables of one of its operations *)
Lemma sortOps_composite_from_ops term id :
  id ∈ al_keys (compositeOps (sortOps term)) ->
  exists op t c, op ∈ default [] (ops term) /\ rhs op = RCol t c /\
                 id = joinedIdOf (fst (lhs op)) t.
Proof.
  unfold sortOps.
  assert (G : forall l st,
            id ∈ al_keys (snd (fst (fold_left sortOps_each l st))) ->
            id ∈ al_keys (snd (fst st)) \/
            exists op t c, op ∈ l /\ rhs op = RCol t c /\ id = joinedIdOf (fst (lhs op)) t).
  { induction l as [|op l IH]; intros [[s c] w] Hin; simpl in *; [by left|].
    destruct (IH _ Hin) as [Hst|(op' & t & c' & Hop & Hr & ->)].
    - unfold sortOps_each in Hst. destruct (rhs op) as [t c'|v] eqn:Hr; simpl in Hst.
      + apply al_keys_get, al_get_push_some in Hst as [<-|Hst].
        * right. exists op, t, c'. split_and!; [apply list_elem_of_here|done|done].
        * left. by apply al_keys_get.
      + by left.
    - right. exists op', t, c'. split_and!; [by apply list_elem_of_further|done|done]. }
  intros Hin.
  destruct (fold_left sortOps_each (default [] (ops term)) ([], [], [])) as [[s c] w] eqn:E.
  specialize (G (default [] (ops term)) ([], [], [])). rewrite E in G.
  destruct (G Hin) as [Hnil|?]; [by apply elem_of_nil in Hnil|done].
Qed.

Lemma joinMap_add_defined jm id jm' :
  joinMap_add jm id = Ok jm' ->
  (forall k, is_Some (al_get jm k) -> is_Some (al_get jm' k)) /\
  is_Some (al_get jm' (fst id)) /\ is_Some (al_get jm' (snd id)).
Proof.
  unfold joinMap_add. destruct (al_get jm (fst id)) as [l1|] eqn:E1; [|done].
  destruct (al_get (al_set jm (fst id) (l1 ++ [id])) (snd id)) as [l2|] eqn:E2; [|done].
  intros [= <-]. split_and!.
  - intros k Hk. rewrite !al_get_set. destruct (decide (snd id = k)); [eauto|].
    destruct (decide (fst id = k)); [eauto|done].
  - rewrite !al_get_set. destruct (decide (snd id = fst id)); [eauto|].
    rewrite decide_True by done. eauto.
  - rewrite al_get_set, decide_True by done. eauto.
Qed.

Lemma joinMap_fold_defined ids : forall jm jm',
  foldR joinMap_add ids jm = Ok jm' ->
  (forall k, is_Some (al_get jm k) -> is_Some (al_get jm' k)) /\
  forall id, id ∈ ids -> is_Some (al_get jm' (fst id)) /\ is_Some (al_get jm' (snd id)).
Proof.
  induction ids as [|id ids IH]; intros jm jm'; simpl.
  - intros [= <-]. split; [done|]. by intros id ?%elem_of_nil.
  - destruct (joinMap_add jm id) as [jm1|e] eqn:E1; [|done]. intros E.
    destruct (joinMap_add_defined _ _ _ E1) as (K1 & K2 & K3).
    destruct (IH _ _ E) as (J1 & J2). split; [auto|].
    intros id' [->|Hin]%elem_of_cons; [split; auto|by apply J2].
Qed.

Lemma joinMap_fold_ok ids : forall jm,
  (forall id, id ∈ ids -> is_Some (al_get jm (fst id)) /\ is_Some (al_get jm (snd id))) ->
  exists jm', foldR joinMap_add ids jm = Ok jm'.
Proof.
  induction ids as [|id ids IH]; intros jm Hdef; simpl; [eauto|].
  destruct (Hdef id (list_elem_of_here _ _)) as [[l1 E1] [l2 E2]].
  assert (E : exists jm1, joinMap_add jm id = Ok jm1).
  { unfold joinMap_add. rewrite E1. rewrite al_get_set.
    destruct (decide (fst id = snd id)); [eauto|]. rewrite E2. eauto. }
  destruct E as (jm1 & E). rewrite E.
  destruct (joinMap_add_defined _ _ _ E) as (K1 & _).
  apply IH. intros id' Hin. destruct (Hdef id' (list_elem_of_further _ _ _ Hin)). auto.
Qed.

Lemma filter_out_perm (ids : list (string * string)) id :
  NoDup ids -> id ∈ ids ->
  id :: List.filter (fun x => negb (bool_decide (x = id))) ids ≡ₚ ids.
Proof.
  induction ids as [|x ids IH]; intros Hnd Hin; [by apply elem_of_nil in Hin|].
  apply NoDup_cons in Hnd as [Hx Hnd]. simpl.
  destruct (decide (x = id)) as [->|Hne].
  - rewrite bool_decide_eq_true_2 by done. simpl. apply Permutation_cons; [done|].
    assert (E : List.filter (fun x => negb (bool_decide (x = id))) ids = ids); [|by rewrite E].
    clear -Hx. induction ids as [|y ids IH]; simpl; [done|].
    apply not_elem_of_cons in Hx as [Hy Hx].
    rewrite bool_decide_eq_false_2 by done. simpl. by rewrite IH.
  - rewrite bool_decide_eq_false_2 by done. simpl.
    apply elem_of_cons in Hin as [?|Hin]; [done|].
    rewrite Permutation_swap. by rewrite IH.
Qed.

(** a tree and the ids it leaves share out the ids it was built from *)
Lemma constructJoinTableTree_nodes fuel joinMap : forall ids id,
  length ids < fuel -> NoDup ids ->
  (forall x, x ∈ ids -> is_Some (al_get joinMap (fst x)) /\ is_Some (al_get joinMap (snd x))) ->
  exists t ids',
    constructJoinTableTree fuel joinMap ids id = Ok (t, ids') /\
    match t with Some tree => nodes tree | None => [] end ++ ids' ≡ₚ ids /\
    id ∉ ids'.
Proof.
  induction fuel as [|fuel IH]; intros ids id Hlen Hnd Hdef; [lia|].
  cbn [constructJoinTableTree].
  destruct (bool_decide (id ∈ ids)) eqn:Hin; cbn [negb].
  2:{ apply bool_decide_eq_false in Hin. exists None, ids. done. }
  apply bool_decide_eq_true in Hin.
  set (ids1 := List.filter (fun x => negb (bool_decide (x = id))) ids).
  pose proof (filter_out_perm ids id Hnd Hin) as Hperm1. fold ids1 in Hperm1.
  assert (Hlt : length ids1 < length ids).
  { rewrite <- Hperm1. simpl. lia. }
  set (visit := fun (st : list Tree * list (string * string)) cId =>
          match constructJoinTableTree fuel joinMap (snd st) cId with
          | Ok (Some childNode, ids) => Ok (fst st ++ [childNode], ids)
          | Ok (None, ids) => Ok (fst st, ids)
          | Throw e => Throw e
          end).
  assert (Hvisit : forall adj st,
            flat_map nodes (fst st) ++ snd st ≡ₚ ids1 ->
            exists st', foldR visit adj st = Ok st' /\
                        flat_map nodes (fst st') ++ snd st' ≡ₚ ids1).
  { induction adj as [|cId adj IHa]; intros st Hst; simpl; [eauto|].
    assert (Hnd1 : NoDup ids1).
    { rewrite <- Hperm1 in Hnd. by apply NoDup_cons in Hnd as [_ ?]. }
    assert (Hsub : forall x, x ∈ snd st -> x ∈ ids).
    { intros x Hx. rewrite <- Hperm1. apply list_elem_of_further. rewrite <- Hst.
      apply elem_of_app. by right. }
    destruct (IH (snd st) cId) as (t & ids2 & E & Hp & _).
    - assert (length (snd st) <= length ids1); [|lia].
      rewrite <- Hst, length_app. lia.
    - rewrite <- Hst in Hnd1. by apply NoDup_app in Hnd1 as (_ & _ & ?).
    - intros x Hx. by apply Hdef, Hsub.
    - unfold visit at 1. rewrite E. destruct t as [child|].
      + apply IHa. simpl. rewrite flat_map_app. simpl. rewrite app_nil_r.
        rewrite <- app_assoc, Hp. done.
      + apply IHa. simpl. simpl in Hp. by rewrite Hp. }
  destruct (Hdef id Hin) as [[adj1 E1] [adj2 E2]]. rewrite E1.
  destruct (Hvisit adj1 ([], ids1)) as (st1 & F1 & P1); [done|]. rewrite F1, E2.
  destruct (Hvisit adj2 st1) as (st2 & F2 & P2); [done|]. rewrite F2.
  exists (Some (Node id (fst st2))), (snd st2). split; [done|]. split.
  - cbn [nodes]. simpl. by rewrite P2.
  - intros Hin2. assert (Hin1 : id ∈ ids1).
    { rewrite <- P2. apply elem_of_app. by right. }
    unfold ids1 in Hin1. apply list_elem_of_In, filter_In in Hin1 as [_ Hb].
    by rewrite bool_decide_eq_true_2 in Hb.
Qed.

Lemma joinTrees_nodes joinMap order : forall ids trees,
  NoDup ids ->
  (forall x, x ∈ ids -> is_Some (al_get joinMap (fst x)) /\ is_Some (al_get joinMap (snd x))) ->
  exists res rest,
    joinTrees joinMap order ids trees = Ok res /\
    flat_map nodes res ++ rest ≡ₚ flat_map nodes trees ++ ids /\
    (forall x, x ∈ rest -> x ∈ ids) /\ (forall x, x ∈ order -> x ∉ rest).
Proof.
  induction order as [|id order IH]; intros ids trees Hnd Hdef; cbn [joinTrees].
  { exists trees, ids. split_and!; try done. by intros x ?%elem_of_nil. }
  destruct (bool_decide (id ∈ ids)) eqn:Hin.
  - destruct (constructJoinTableTree_nodes (S (length ids)) joinMap ids id)
      as (t & ids' & E & Hp & Hni); [lia|done|done|]. rewrite E.
    assert (Hsub : forall x, x ∈ ids' -> x ∈ ids).
    { intros x Hx. rewrite <- Hp. apply elem_of_app. by right. }
    assert (Hnd' : NoDup ids').
    { rewrite <- Hp in Hnd. by apply NoDup_app in Hnd as (_ & _ & ?). }
    destruct t as [tree|].
    + destruct (IH ids' (trees ++ [tree])) as (res & rest & F & P & S1 & S2); [done|auto|].
      exists res, rest. split_and!; [done| |auto|].
      * rewrite P, flat_map_app. simpl. rewrite app_nil_r, <- app_assoc. by rewrite Hp.
      * intros x [->|Hx]%elem_of_cons; [|by apply S2]. intros Hr. by apply Hni, S1.
    + destruct (IH ids' trees) as (res & rest & F & P & S1 & S2); [done|auto|].
      exists res, rest. split_and!; [done| |auto|].
      * rewrite P. simpl in Hp. by rewrite Hp.
      * intros x [->|Hx]%elem_of_cons; [|by apply S2]. intros Hr. by apply Hni, S1.
  - apply bool_decide_eq_false in Hin.
    destruct (IH ids trees) as (res & rest & F & P & S1 & S2); [done|done|].
    exists res, rest. split_and!; try done.
    intros x [->|Hx]%elem_of_cons; [|by apply S2]. intros Hr. by apply Hin, S1.
Qed.

Lemma joinMap_init_defined (tables : list string) : forall (m : list (string * list (string * string))) t,
  t ∈ tables \/ is_Some (al_get m t) ->
  is_Some (al_get (fold_left (fun m t => al_set m t []) tables m) t).
Proof.
  induction tables as [|t0 tables IH]; intros m t Hin; simpl.
  - destruct Hin as [?%elem_of_nil|?]; done.
  - apply IH. rewrite al_get_set. destruct (decide (t0 = t)) as [->|Hne]; [eauto|].
    destruct Hin as [[?|?]%elem_of_cons|?]; [congruence|by left|by right].
Qed.

(** X15.  When every join condition of a term relates two tables of its
    [FROM] list, planning the joins succeeds, and the join trees it builds
    share out the pair tables of the term: every pair table is a node of
    exactly one tree, exactly once. *)
Theorem join_forest_partitions_pair_tables (term : Term) :
  Forall (fun op => match rhs op with
                    | RCol t _ => fst (lhs op) ∈ tables term /\ t ∈ tables term
                    | RVal _ => True
                    end) (default [] (ops term)) ->
  exists joinMap trees,
    joinMapOf (tables term) (al_keys (compositeOps (sortOps term))) = Ok joinMap /\
    joinTrees joinMap (al_keys (compositeOps (sortOps term)))
      (al_keys (compositeOps (sortOps term))) [] = Ok trees /\
    flat_map nodes trees ≡ₚ al_keys (compositeOps (sortOps term)).
Proof.
  intros Hops. set (cids := al_keys (compositeOps (sortOps term))).
  assert (Hends : forall id, id ∈ cids -> fst id ∈ tables term /\ snd id ∈ tables term).
  { intros id Hid. destruct (sortOps_composite_from_ops term id Hid) as (op & t & c & Hop & Hr & ->).
    rewrite Forall_forall in Hops. specialize (Hops op Hop). rewrite Hr in Hops.
    destruct Hops as [H1 H2].
    destruct (joinedIdOf_pair (fst (lhs op)) t) as [-> | ->]; simpl; done. }
  destruct (joinMap_fold_ok cids (fold_left (fun m t => al_set m t []) (tables term) []))
    as (jm & Ejm).
  { intros id Hid. destruct (Hends id Hid).
    split; apply joinMap_init_defined; by left. }
  destruct (joinMap_fold_defined _ _ _ Ejm) as (_ & Hdef).
  destruct (joinTrees_nodes jm cids cids [] (sortOps_composite_NoDup term) Hdef)
    as (trees & rest & E & Hp & S1 & S2).
  exists jm, trees. split_and!; [done|done|].
  assert (Hrest : rest = []).
  { destruct rest as [|x rest]; [done|]. exfalso.
    apply (S2 x); [apply S1|]; apply list_elem_of_here. }
  subst rest. by rewrite app_nil_r in Hp.
Qed.

Lemma join_forest_partitions_pair_tables_witness :
  exists joinMap trees,
    joinMapOf (tables term_abc) (al_keys (compositeOps (sortOps term_abc))) = Ok joinMap /\
    joinTrees joinMap (al_keys (compositeOps (sortOps term_abc)))
      (al_keys (compositeOps (sortOps term_abc))) [] = Ok trees /\
    flat_map nodes trees ≡ₚ [("a", "b"); ("b", "c")].
Proof.
  apply (join_forest_partitions_pair_tables term_abc).
  repeat constructor; simpl; set_solver.
Defined.

(** ** Dropping every table *)

Lemma drop_run t db :
  Inv db ->
  exists db', drop t db = (Ok tt, db') /\ Inv db' /\ _tables db' !! t = None /\
              forall t', t' <> t -> untouched t' db db'.
Proof.
  intros HI. destruct (_tables db !! t) as [pids|] eqn:Ht.
  - destruct (clearTable_run db t pids HI Ht) as (c & E).
    exists (droppedState t (clearedState t pids c db)). split_and!.
    + unfold drop. rewrite bind_run, gets_run. cbn beta iota.
      rewrite bool_decide_eq_true_2 by (rewrite Ht; eauto).
      rewrite (bind_ok _ _ _ _ _ E). by mred.
    + by apply Inv_dropped, Inv_cleared.
    + simpl. by rewrite lookup_delete_eq.
    + intros t' Hne. eapply untouched_trans; [by apply (untouched_cleared db t pids c)|].
      unfold untouched. simpl. rewrite !lookup_delete_ne by done. done.
  - exists db. split_and!; try done.
    unfold drop. rewrite bind_run, gets_run. cbn beta iota.
    rewrite bool_decide_eq_false_2; [done|]. rewrite Ht. by intros [? ?].
Qed.

Lemma drop_each_run names : forall db,
  Inv db ->
  exists db', forM_ names drop db = (Ok tt, db') /\ Inv db' /\
              forall t, _tables db' !! t = if bool_decide (t ∈ names) then None
                                           else _tables db !! t.
Proof.
  unfold forM_. induction names as [|n names IH]; intros db HI; simpl.
  - exists db. split_and!; try done.
  - destruct (drop_run n db HI) as (db1 & E1 & HI1 & Hn & Hunt).
    rewrite (bind_ok _ _ _ _ _ E1).
    destruct (IH db1 HI1) as (db' & E' & HI' & Hall).
    exists db'. split_and!; [done|done|]. intros t. rewrite Hall.
    destruct (decide (t ∈ names)) as [Hin|Hni].
    + rewrite !bool_decide_eq_true_2; [done| |done]. by apply list_elem_of_further.
    + rewrite (bool_decide_eq_false_2 _ Hni). destruct (decide (t = n)) as [->|Hne].
      * rewrite bool_decide_eq_true_2 by apply list_elem_of_here. done.
      * rewrite bool_decide_eq_false_2; [by apply Hunt|].
        intros [?|?]%elem_of_cons; done.
Qed.

(** X16.  On a well-formed catalog, [dropAllTables] returns normally and
    leaves a catalog without any table, free-space queue, index or column
    list, and an empty page buffer. *)
Theorem dropAllTables_empties_catalog (db : DB) :
  Inv db ->
  exists db',
    dropAllTables db = (Ok tt, db') /\ Inv db' /\
    _tables db' = ∅ /\ _tablePageSpaces db' = ∅ /\ _tableHashes db' = ∅ /\
    _tableCols db' = ∅ /\ _buf db' = [].
Proof.
  intros HI. unfold dropAllTables. rewrite bind_run, gets_run.
  destruct (drop_each_run (map fst (map_to_list (_tables db))) db HI)
    as (db1 & E1 & HI1 & Hall).
  rewrite (bind_ok _ _ _ _ _ E1).
  assert (Hnone : forall t, _tables db1 !! t = None).
  { intros t. rewrite Hall. case_bool_decide as Hin; [done|].
    destruct (_tables db !! t) as [pids|] eqn:Ht; [|done]. destruct Hin.
    apply list_elem_of_fmap. exists (t, pids). split; [done|].
    by apply elem_of_map_to_list. }
  exists (set_buf (fun _ => []) db1).
  pose proof HI1 as [_ _ H3].
  split_and!; try done.
  - by apply InvH_set_buf.
  - apply map_empty. intros t. apply Hnone.
  - apply map_empty. intros t. by destruct (H3 t (Hnone t)) as (? & ? & ?).
  - apply map_empty. intros t. by destruct (H3 t (Hnone t)) as (? & ? & ?).
  - apply map_empty. intros t. by destruct (H3 t (Hnone t)) as (? & ? & ?).
Qed.

Lemma dropAllTables_empties_catalog_witness :
  exists db', dropAllTables db_ab = (Ok tt, db') /\ _tables db' = ∅.
Proof.
  assert (HI : Inv db_ab) by apply after_Inv, Inv_empty.
  destruct (dropAllTables_empties_catalog db_ab HI) as (db' & E & _ & Ht & _).
  by exists db'.
Defined.

(** ** Loading CSV lines *)

Lemma imap_fst_zip {A B} (arr1 : list A) (arr2 : list B) : forall k,
  map fst (imap (fun i a => (a, arr2 !! (k + i))) arr1) = arr1.
Proof.
  induction arr1 as [|a arr1 IH]; intros k; simpl; [done|]. f_equal.
  rewrite <- (IH (S k)) at 2. f_equal. apply imap_ext. intros i x _. simpl.
  do 2 f_equal. lia.
Qed.

Lemma imap_snd_zip {A B} (arr1 : list A) : forall (pre arr2 : list B),
  length arr1 = length arr2 ->
  map snd (imap (fun i a => (a, (pre ++ arr2) !! (length pre + i))) arr1) = map Some arr2.
Proof.
  induction arr1 as [|a arr1 IH]; intros pre [|b arr2] Hlen; simpl in *; try done.
  f_equal.
  - rewrite Nat.add_0_r, lookup_app_r, Nat.sub_diag by lia. done.
  - rewrite <- (IH (pre ++ [b]) arr2) by lia. f_equal. apply imap_ext. intros i x _.
    simpl. f_equal. rewrite <- app_assoc, length_app. simpl. f_equal. lia.
Qed.

(** X17.  [zip2] throws exactly when the two arrays differ in length;
    otherwise it returns one pair per position, whose first components are
    the first array and whose second components are the second array. *)
Theorem zip2_pairs_positions {A B} (arr1 : list A) (arr2 : list B) :
  if decide (length arr1 = length arr2)
  then exists pairs, zip2 arr1 arr2 = Ok pairs /\
                     map fst pairs = arr1 /\ map snd pairs = map Some arr2
  else zip2 arr1 arr2 = Throw E_ZIP.
Proof.
  unfold zip2. destruct (decide (length arr1 = length arr2)) as [E|Hne].
  - rewrite (proj2 (Nat.eqb_eq _ _) E). simpl. eexists. split; [done|]. split.
    + apply (imap_fst_zip arr1 arr2 0).
    + by apply (imap_snd_zip arr1 [] arr2).
  - by rewrite (proj2 (Nat.eqb_neq _ _) Hne).
Qed.

Lemma liftR_ok_bind {A B} (a : A) (k : A -> M B) db : (liftR (Ok a) ≫= k) db = k a db.
Proof. done. Qed.

Lemma liftR_throw_bind {A B} e (k : A -> M B) db :
  (liftR (Throw e) ≫= k) db = (Throw e, db).
Proof. done. Qed.

Section CsvFacts.
Context `{JsBuiltins}.

Lemma csvDoc_fields names line :
  csvDoc names line =
    if decide (length names = length (split_comma line EmptyString))
    then Ok (let res := fromEntries
                          (imap (fun i a => (a, split_comma line EmptyString !! i)) names) in
             rset res "_id" (VStr (JSON_stringify res)))
    else Throw E_ZIP.
Proof.
  unfold csvDoc, zip2. destruct (decide _) as [E|Hne].
  - by rewrite (proj2 (Nat.eqb_eq _ _) E).
  - by rewrite (proj2 (Nat.eqb_neq _ _) Hne).
Qed.

Lemma mapR_csvDoc_bad names lines :
  Exists (fun line => length (split_comma line EmptyString) <> length names) lines ->
  mapR (csvDoc names) lines = Throw E_ZIP.
Proof.
  induction lines as [|line lines IH]; intros Hex; [by apply Exists_nil in Hex|].
  simpl. rewrite csvDoc_fields. destruct (decide _) as [E|Hne]; [|done].
  apply Exists_cons in Hex as [Hbad|Hex]; [congruence|]. by rewrite IH.
Qed.


Lemma parseCsvLines_lines fileLines tableName scale colNames :
  fileLines <> [] ->
  parseCsvLines fileLines tableName scale colNames =
    (fieldNames ← liftR (csvFieldNames fileLines colNames);
     addTable tableName (map KStr fieldNames);;
     docs ← liftR (mapR (csvDoc fieldNames) fileLines);
     insertUniqueRecordsById tableName (take (roundPercent (length docs) scale) docs)).
Proof. by destruct fileLines. Qed.

(** X18.  When some line of the input has a number of fields that differs
    from the number of column names, also a line beyond the share of the
    file that is to be kept, [parseCsvFile] throws the error of [zip2] after
    it has declared the table: nothing is stored, and a table declared by
    the call stays declared. *)
Theorem parseCsv_malformed_line_throws (fileLines : list string) (tableName : string)
    (scale : nat) (colNames : option (list string)) (names : list string) (db : DB) :
  csvFieldNames fileLines colNames = Ok names ->
  Exists (fun line => length (split_comma line EmptyString) <> length names) fileLines ->
  parseCsvLines fileLines tableName scale colNames db =
    (Throw E_ZIP, snd (addTable tableName (map KStr names) db)).
Proof.
  intros Hn Hbad. rewrite parseCsvLines_lines.
  2:{ intros ->. by apply Exists_nil in Hbad. }
  rewrite Hn, liftR_ok_bind.
  assert (E : exists b, addTable tableName (map KStr names) db =
                        (Ok b, snd (addTable tableName (map KStr names) db))).
  { destruct (_tables db !! tableName) as [pids|] eqn:Ht.
    - exists false. rewrite addTable_run_known; [done|]. rewrite Ht. eauto.
    - exists true. by rewrite (addTable_run_new _ _ _ Ht). }
  destruct E as (b & E). rewrite (bind_ok _ _ _ _ _ E).
  by rewrite (mapR_csvDoc_bad names fileLines Hbad), liftR_throw_bind.
Qed.

End CsvFacts.

Lemma parseCsv_malformed_line_throws_witness :
  parseCsvLines (H:=sampleHost) ["1,2"; "3"] "g" 50 (Some ["a"; "b"]) emptyDB =
    (Throw E_ZIP, snd (addTable "g" [KStr "a"; KStr "b"] emptyDB)).
Proof.
  apply (parseCsv_malformed_line_throws (H:=sampleHost) ["1,2"; "3"] "g" 50
           (Some ["a"; "b"]) ["a"; "b"] emptyDB); [done|].
  apply Exists_cons_tl, Exists_cons_hd. by vm_compute.
Defined.

